(** * Filtered Space-Saving top-k sketch: a model of [topk.go]

    The Go package keeps a bounded min-heap of monitored elements with a
    key-to-slot map ([keys]), and an array of overflow counters ([alphas])
    indexed by a reduced hash.  This file embeds the package's functions
    and proves properties of [Insert], [Merge], [Keys], [Estimate], the
    encoder and decoder, and [reduce]. *)

From Stdlib Require Import ZArith Lia Permutation Sorted.
From stdpp Require Import base tactics option numbers list gmap strings sorting finite.

Local Open Scope Z_scope.

(** ** Go's fixed-width integers

    [int] is the 64-bit signed integer of the usual targets; [uint32] and
    [uint64] conversions reduce modulo a power of two. *)

Module GoInt.

Definition min_int : Z := - 2 ^ 63.
Definition max_int : Z := 2 ^ 63 - 1.

(** The value of an [int] expression whose mathematical value is [z]. *)
Definition wrap (z : Z) : Z := (z + 2 ^ 63) mod 2 ^ 64 - 2 ^ 63.

Definition add (a b : Z) : Z := wrap (a + b).

Definition to_uint32 (z : Z) : Z := z mod 2 ^ 32.
Definition to_uint64 (z : Z) : Z := z mod 2 ^ 64.

Definition in_range (z : Z) : Prop := min_int <= z <= max_int.

End GoInt.

(** ** Elements *)

(** [type Element struct { Key string; Count int; Error int }] *)
Record Element := mkElement { Key : string; Count : Z; Error : Z }.

Global Instance Element_eq_dec : EqDecision Element.
Proof. solve_decision. Defined.

Global Instance Element_inhabited : Inhabited Element :=
  populate (mkElement "" 0 0).

(** [elementsByCountDescending.Less], on the two elements it compares. *)
Definition countDescLess (a b : Element) : bool :=
  (Count b <? Count a) || ((Count a =? Count b) && String.ltb (Key a) (Key b)).

(** The comparison of [keys.Less], on the two elements it compares. *)
Definition elemLess (a b : Element) : bool :=
  (Count a <? Count b) || ((Count a =? Count b) && (Error b <? Error a)).

(** ** The monitored set: [keys] *)

(** [type keys struct { m map[string]int; elts []Element }] *)
Record keys := mkKeys { m : gmap string Z; elts : list Element }.

(** Go's [container/heap.Interface].  [Len], [Less] and [Swap] are those
    of [sort.Interface]; indices are slice positions. *)
Class Interface (H E : Type) := {
  Len : H -> nat;
  Less : H -> nat -> nat -> bool;
  Swap : H -> nat -> nat -> H;
  Push : H -> E -> H;
  Pop : H -> option (E * H)
}.

(** [Less] and [Swap] index the slice, so in Go they panic on an index
    that is out of range.  [container/heap] calls them with indices
    below [Len] only ([up_loop_spec] and [down_loop_spec] need no more
    than a start index below [Len]), so here they read the default
    element and leave the slice alone there. *)
Definition keys_Len (tk : keys) : nat := length (elts tk).

Definition keys_Less (tk : keys) (i j : nat) : bool :=
  elemLess (elts tk !!! i) (elts tk !!! j).

(** [tk.elts[i], tk.elts[j] = tk.elts[j], tk.elts[i]], then the two map
    writes, which read the keys of the slice after the exchange. *)
Definition keys_Swap (tk : keys) (i j : nat) : keys :=
  let ei := elts tk !!! i in
  let ej := elts tk !!! j in
  let elts' := <[j := ei]> (<[i := ej]> (elts tk)) in
  let m1 := <[Key (elts' !!! i) := Z.of_nat i]> (m tk) in
  let m2 := <[Key (elts' !!! j) := Z.of_nat j]> m1 in
  mkKeys m2 elts'.

Definition keys_Push (tk : keys) (e : Element) : keys :=
  mkKeys (<[Key e := Z.of_nat (length (elts tk))]> (m tk)) (elts tk ++ [e]).

(** [Pop] takes the last element off; on an empty slice Go panics, which
    is [None] here. *)
Definition keys_Pop (tk : keys) : option (Element * keys) :=
  match last (elts tk) with
  | None => None
  | Some e => Some (e, mkKeys (delete (Key e) (m tk)) (removelast (elts tk)))
  end.

Global Instance keys_Interface : Interface keys Element := {|
  Len := keys_Len;
  Less := keys_Less;
  Swap := keys_Swap;
  Push := keys_Push;
  Pop := keys_Pop
|}.

(** ** [container/heap]: [up], [down], [Fix], [Push]

    The loops of the library are written with a fuel argument that the
    callers set to a bound on the number of iterations; [up_fuel] and
    [down_fuel] below show that the bound is never reached early. *)

Module heap.
Section heap.
Context {H E : Type} `{Interface H E}.

(** [for { i := (j - 1) / 2; if i == j || !h.Less(j, i) { break };
            h.Swap(i, j); j = i }] *)
Fixpoint up_loop (fuel : nat) (h : H) (j : nat) : H :=
  let i := ((j - 1) / 2)%nat in
  if (i =? j)%nat || negb (Less h j i) then h
  else match fuel with
         | O => h
         | S fuel' => up_loop fuel' (Swap h i j) i
         end.

Definition up (h : H) (j : nat) : H := up_loop j h j.

(** The loop of [down]; it returns the heap and the final position [i],
      from which [down] computes [i > i0]. *)
Fixpoint down_loop (fuel : nat) (h : H) (i n : nat) : H * nat :=
  let j1 := (2 * i + 1)%nat in
  if (n <=? j1)%nat then (h, i)
  else
      let j2 := (j1 + 1)%nat in
      let j := if (j2 <? n)%nat && Less h j2 j1 then j2 else j1 in
      if negb (Less h j i) then (h, i)
      else match fuel with
           | O => (h, i)
           | S fuel' => down_loop fuel' (Swap h i j) j n
           end.

Definition down (h : H) (i0 n : nat) : H * bool :=
  let '(h', i) := down_loop (n - i0) h i0 n in (h', (i0 <? i)%nat).

(** [func Fix(h Interface, i int) { if !down(h, i, h.Len()) { up(h, i) } }] *)
Definition Fix (h : H) (i : nat) : H :=
  let '(h', moved) := down h i (Len h) in
  if moved then h' else up h' i.

(** [func Push(h Interface, x any) { h.Push(x); up(h, h.Len()-1) }] *)
Definition Push (h : H) (x : E) : H :=
  let h' := Push h x in up h' (Len h' - 1).

End heap.
End heap.


(** ** The sketch: [Stream] *)

(** [const bufMultiplier = 6] *)
Definition bufMultiplier : Z := 6.

(** [type Stream struct { n int; k keys; alphas []int }] *)
Record Stream := mkStream { n : Z; k : keys; alphas : list Z }.

(** Slice indexing by an [int]: out of range is a run-time panic, [None]
    in the functions below. *)
Definition index {A} (l : list A) (i : Z) : option A :=
  if i <? 0 then None else l !! Z.to_nat i.

Definition int_mul (a b : Z) : Z := GoInt.wrap (a * b).

(** [func New(n int) *Stream].  [make] panics on a negative length or
    capacity. *)
Definition New (sz : Z) : option Stream :=
  let cap := int_mul sz bufMultiplier in
  let len := int_mul cap 6 in
  if (cap <? 0) || (len <? 0) then None
  else Some (mkStream sz (mkKeys ∅ []) (replicate (Z.to_nat len) 0)).

(** [func reduce(x uint64, n int) uint32 {
       return uint32(uint64(uint32(x)) * uint64(n) >> 32) }]
    The product is a [uint64] product, so it wraps; [*] and [>>] have the
    same precedence and associate to the left. *)
Definition reduce (x : Z) (len : Z) : Z :=
  GoInt.to_uint32
    (Z.shiftr
       (GoInt.to_uint64 (GoInt.to_uint64 (GoInt.to_uint32 x) * GoInt.to_uint64 len))
       32).

(** What [Merge] returns: [nil], the error of [fmt.Errorf], or a panic. *)
Inductive MergeResult :=
  | MergeOk (s : Stream)
  | MergeError
  | MergePanic.

(** [sort.Sort(elementsByCountDescending(elts))] leaves the slice in an
    order in which no element is [Less] than one before it.  [a] may
    stand before [b] when [b] is not [Less] than [a]. *)
Definition countDescOrder (a b : Element) : Prop := countDescLess b a = false.

Global Instance countDescOrder_dec : RelDecision countDescOrder.
Proof. intros a b. unfold countDescOrder. apply _. Defined.

Definition sortByCountDescending (l : list Element) : list Element :=
  merge_sort countDescOrder l.

(** [for i, v := range other.alphas { s.alphas[i] += v }]; the write
    panics when [other.alphas] is the longer slice. *)
Fixpoint addAlphas (a o : list Z) : option (list Z) :=
  match o, a with
  | [], _ => Some a
  | v :: o', x :: a' => (fun r => GoInt.add x v :: r) <$> addAlphas a' o'
  | _ :: _, [] => None
  end.

Section Sketch.

(** [metro.Hash64Str(x, 0)]: the 64-bit digest of the key, a function of
    the external hashing library. *)
Variable hash : string -> Z.

Definition bucket (s : Stream) (x : string) : Z :=
  reduce (hash x) (Z.of_nat (length (alphas s))).

(** [func (s *Stream) Insert(x string, count int) Element] *)
Definition Insert (s : Stream) (x : string) (count : Z) : option (Stream * Element) :=
  let xhash := bucket s x in
  match m (k s) !! x with
  | Some idx =>
      e0 ← index (elts (k s)) idx;
      let e := mkElement (Key e0) (GoInt.add (Count e0) count) (Error e0) in
      let k1 := mkKeys (m (k s)) (<[Z.to_nat idx := e]> (elts (k s))) in
      Some (mkStream (n s) (heap.Fix k1 (Z.to_nat idx)) (alphas s), e)
  | None =>
      if Z.of_nat (length (elts (k s))) <? int_mul (n s) bufMultiplier then
        let e := mkElement x count 0 in
        Some (mkStream (n s) (heap.Push (k s) e) (alphas s), e)
      else
        a ← index (alphas s) xhash;
        minElement ← index (elts (k s)) 0;
        if GoInt.add a count <? Count minElement then
          let e := mkElement x (GoInt.add a count) a in
          Some (mkStream (n s) (k s) (<[Z.to_nat xhash := GoInt.add a count]> (alphas s)), e)
        else
          let mkhash := bucket s (Key minElement) in
          _ ← index (alphas s) mkhash;
          let alphas1 := <[Z.to_nat mkhash := Count minElement]> (alphas s) in
          a1 ← index alphas1 xhash;
          let e := mkElement x (GoInt.add a1 count) a1 in
          let elts1 := <[0%nat := e]> (elts (k s)) in
          let m1 := <[x := 0]> (delete (Key minElement) (m (k s))) in
          Some (mkStream (n s) (heap.Fix (mkKeys m1 elts1) 0) alphas1, e)
  end.

(** The body of [for k := range eKeys] in [Merge] for one key: a panic,
    no entry, or the entry written to [eMap]. *)
Definition mergeEntry (s other : Stream) (key : string) : option (option Element) :=
  let idx1 := m (k s) !! key in
  let idx2 := m (k other) !! key in
  let xhash := bucket s key in
  min1 ← index (alphas other) xhash;
  min2 ← index (alphas other) xhash;
  match idx1, idx2 with
  | Some i1, Some i2 =>
      e1 ← index (elts (k s)) i1;
      e2 ← index (elts (k other)) i2;
      Some (Some (mkElement key (GoInt.add (Count e1) (Count e2))
                                (GoInt.add (Error e1) (Error e2))))
  | Some i1, None =>
      e1 ← index (elts (k s)) i1;
      Some (Some (mkElement key (GoInt.add (Count e1) min2) (GoInt.add (Error e1) min2)))
  | None, Some i2 =>
      e2 ← index (elts (k other)) i2;
      Some (Some (mkElement key (GoInt.add (Count e2) min1) (GoInt.add (Error e2) min1)))
  | None, None => Some None
  end.

(** The keys of both slices, [eKeys]. *)
Definition mergeKeys (s other : Stream) : gset string :=
  list_to_set (Key <$> elts (k s)) ∪ list_to_set (Key <$> elts (k other)).

(** The loop over [eKeys] that fills [eMap]. *)
Definition mergeMapOver (s other : Stream) (ks : list string) : option (gmap string Element) :=
  foldr (fun key acc =>
           em ← acc;
           r ← mergeEntry s other key;
           Some (match r with Some e => <[key := e]> em | None => em end))
        (Some ∅) ks.

Definition mergeMap (s other : Stream) : option (gmap string Element) :=
  mergeMapOver s other (elements (mergeKeys s other)).

(** The sorted and trimmed elements of [Merge]. *)
Definition trim (sz : Z) (l : list Element) : option (list Element) :=
  if sz <? Z.of_nat (length l) then
  if sz <? 0 then None else Some (take (Z.to_nat sz) l)
  else Some l.

(** [func (s *Stream) Merge(other *Stream) error] *)
Definition Merge (s other : Stream) : MergeResult :=
  if negb (n s =? n other) then MergeError
  else
    match mergeMap s other with
    | None => MergePanic
    | Some eMap =>
        let sorted := sortByCountDescending (snd <$> map_to_list eMap) in
        match trim (n s) sorted with
        | None => MergePanic
        | Some trimmed =>
            let tk := foldl heap.Push (mkKeys ∅ []) trimmed in
            match addAlphas (alphas s) (alphas other) with
            | None => MergePanic
            | Some alphas' => MergeOk (mkStream (n s) tk alphas')
            end
        end
    end.

(** [func (s *Stream) Keys() []Element].  The sort works on a copy of
    the slice; the second component is the sketch after the call. *)
Definition Keys (s : Stream) : option (list Element * Stream) :=
  let copy := elts (k s) in
  let sorted := sortByCountDescending copy in
  r ← trim (n s) sorted;
  Some (r, s).

(** [func (s *Stream) Estimate(x string) Element] *)
Definition Estimate (s : Stream) (x : string) : option Element :=
  let xhash := bucket s x in
  match m (k s) !! x with
  | Some idx => index (elts (k s)) idx
  | None =>
      count ← index (alphas s) xhash;
      Some (mkElement x count count)
  end.

End Sketch.

(** ** Serialization: [EncodeMsgp], [DecodeMsgp]

    The sketch is written with the [msgp] writer and read back with the
    [msgp] reader, an external codec.  Its byte format is not part of the
    package; the model keeps the sequence of values written, one [token]
    per call of a [Write...] method, and a [Read...] method fails on a
    token of another kind or at the end of the input. *)

Inductive token :=
  | TInt (z : Z)
  | TString (s : string)
  | TMapHeader (sz : Z)
  | TArrayHeader (sz : Z).

Definition WriteInt (w : list token) (z : Z) : list token := w ++ [TInt z].
Definition WriteString (w : list token) (s : string) : list token := w ++ [TString s].
Definition WriteMapHeader (w : list token) (sz : Z) : list token := w ++ [TMapHeader sz].
Definition WriteArrayHeader (w : list token) (sz : Z) : list token := w ++ [TArrayHeader sz].

Definition ReadInt (r : list token) : option (Z * list token) :=
  match r with TInt z :: r' => Some (z, r') | _ => None end.
Definition ReadString (r : list token) : option (string * list token) :=
  match r with TString s :: r' => Some (s, r') | _ => None end.
Definition ReadMapHeader (r : list token) : option (Z * list token) :=
  match r with TMapHeader sz :: r' => Some (sz, r') | _ => None end.
Definition ReadArrayHeader (r : list token) : option (Z * list token) :=
  match r with TArrayHeader sz :: r' => Some (sz, r') | _ => None end.

(** [func (tk *keys) EncodeMsgp(w *msgp.Writer) error].  [order] is the
    order in which [range tk.m] yields the entries of the map, which Go
    leaves unspecified.  The writer's errors are those of the underlying
    [io.Writer]; writing to a buffer has none. *)
Definition keys_EncodeMsgp (order : list (string * Z)) (tk : keys) (w : list token)
    : list token :=
  let w := WriteMapHeader w (GoInt.to_uint32 (Z.of_nat (size (m tk)))) in
  let w := foldl (fun w kv => WriteInt (WriteString w kv.1) kv.2) w order in
  let w := WriteArrayHeader w (GoInt.to_uint32 (Z.of_nat (length (elts tk)))) in
  foldl (fun w e => WriteInt (WriteInt (WriteString w (Key e)) (Count e)) (Error e))
        w (elts tk).

(** The loop [for i := uint32(0); i < sz; i++] of [DecodeMsp]. *)
Fixpoint readEntries (cnt : nat) (mp : gmap string Z) (r : list token)
    : option (gmap string Z * list token) :=
  match cnt with
  | O => Some (mp, r)
  | S cnt' =>
      '(key, r) ← ReadString r;
      '(val, r) ← ReadInt r;
      readEntries cnt' (<[key := val]> mp) r
  end.

(** The loop [for i := range tk.elts] of [DecodeMsp]. *)
Fixpoint readElements (cnt : nat) (r : list token) : option (list Element * list token) :=
  match cnt with
  | O => Some ([], r)
  | S cnt' =>
      '(key, r) ← ReadString r;
      '(c, r) ← ReadInt r;
      '(e, r) ← ReadInt r;
      '(l, r) ← readElements cnt' r;
      Some (mkElement key c e :: l, r)
  end.

(** [func (tk *keys) DecodeMsp(r *msgp.Reader) error]; [None] is an
    error return. *)
Definition keys_DecodeMsp (r : list token) : option (keys * list token) :=
  '(sz, r) ← ReadMapHeader r;
  '(mp, r) ← readEntries (Z.to_nat sz) ∅ r;
  '(sz, r) ← ReadArrayHeader r;
  '(l, r) ← readElements (Z.to_nat sz) r;
  Some (mkKeys mp l, r).

(** [func (s *Stream) EncodeMsgp(w *msgp.Writer) error] *)
Definition Stream_EncodeMsgp (order : list (string * Z)) (s : Stream) (w : list token)
    : list token :=
  let w := WriteInt w (n s) in
  let w := WriteArrayHeader w (GoInt.to_uint32 (Z.of_nat (length (alphas s)))) in
  let w := foldl WriteInt w (alphas s) in
  keys_EncodeMsgp order (k s) w.

(** The loop [for i := range s.alphas] of [DecodeMsgp]. *)
Fixpoint readInts (cnt : nat) (r : list token) : option (list Z * list token) :=
  match cnt with
  | O => Some ([], r)
  | S cnt' =>
      '(a, r) ← ReadInt r;
      '(l, r) ← readInts cnt' r;
      Some (a :: l, r)
  end.

(** [func (s *Stream) DecodeMsgp(r *msgp.Reader) error].  Every field of
    the receiver is overwritten; [None] is an error return. *)
Definition Stream_DecodeMsgp (r : list token) : option (Stream * list token) :=
  '(sz0, r) ← ReadInt r;
  '(sz, r) ← ReadArrayHeader r;
  '(al, r) ← readInts (Z.to_nat sz) r;
  '(tk, r) ← keys_DecodeMsp r;
  Some (mkStream sz0 tk al, r).

(** [func (s *Stream) Encode(w io.Writer) error]: the tokens flushed to
    an empty buffer. *)
Definition Encode (order : list (string * Z)) (s : Stream) : list token :=
  Stream_EncodeMsgp order s [].

(** [func (s *Stream) Decode(r io.Reader) error] *)
Definition Decode (r : list token) : option Stream :=
  fst <$> Stream_DecodeMsgp r.

(** ** The total-weight counter *)

(** Modelled from the spec: the cumulative total-weight counter with its
    operations [Count] and [Clear].  The tests call [Count] and [Clear]
    on the sketch, but [topk.go] declares neither, and [Stream] has no
    field for the counter.  The spec has the sketch own the counter:
    [Insert] always adds its weight to it before anything else, [Count]
    returns it, and [Clear] empties the monitored set, zeroes the filter
    and the counter, and keeps the target size. *)
Record TopK := mkTopK { stream : Stream; counter : Z }.

Section Counter.
Variable hash : string -> Z.

Definition TopK_New (sz : Z) : option TopK :=
  s ← New sz; Some (mkTopK s 0).

Definition TopK_Insert (t : TopK) (x : string) (weight : Z) : option (TopK * Element) :=
  let counter' := GoInt.add (counter t) weight in
  '(s', e) ← Insert hash (stream t) x weight;
  Some (mkTopK s' counter', e).

Definition TopK_Count (t : TopK) : Z := counter t.

Definition TopK_Clear (t : TopK) : TopK :=
  mkTopK (mkStream (n (stream t)) (mkKeys ∅ [])
                   (replicate (length (alphas (stream t))) 0)) 0.

End Counter.


(** The arithmetic and the heap functions are unfolded by name in the
    proofs, never by [simpl]. *)
Global Arguments GoInt.wrap : simpl never.
Global Arguments GoInt.add : simpl never.
Global Arguments GoInt.to_uint32 : simpl never.
Global Arguments GoInt.to_uint64 : simpl never.
Global Arguments int_mul : simpl never.
Global Arguments reduce : simpl never.
Global Arguments bucket : simpl never.
Global Arguments heap.Fix : simpl never.
Global Arguments heap.Push : simpl never.
Global Arguments heap.up : simpl never.
Global Arguments heap.down : simpl never.

(** * Specification

    The notions the properties below are stated with. *)

(** ** Heap order and the key-to-slot map *)

(** The slice after [elts[i], elts[j] = elts[j], elts[i]]. *)
Definition exchange (l : list Element) (i j : nat) : list Element :=
  <[j := l !!! i]> (<[i := l !!! j]> l).

(** The parent slot of [container/heap]: [(c - 1) / 2]. *)
Definition parent (c : nat) : nat := ((c - 1) / 2)%nat.

(** The element in slot [c] is not [Less] than its parent. *)
Definition edgeOk (l : list Element) (c : nat) : Prop :=
  elemLess (l !!! c) (l !!! parent c) = false.

(** The heap order of [container/heap]: no element is [Less] than its
    parent. *)
Definition heapOrdered (l : list Element) : Prop :=
  forall c, (0 < c < length l)%nat -> edgeOk l c.

(** Every edge that does not touch slot [i] is in order, and the children
    of [i] are in order with the parent of [i]. *)
Definition heapHole (l : list Element) (i : nat) : Prop :=
  (forall c, (0 < c < length l)%nat -> c <> i -> parent c <> i -> edgeOk l c) /\
  (forall c, (0 < c < length l)%nat -> parent c = i -> (0 < i)%nat ->
             elemLess (l !!! c) (l !!! parent i) = false).

(** The children of slot [i] are in order with [i]. *)
Definition childrenOk (l : list Element) (i : nat) : Prop :=
  forall c, (0 < c < length l)%nat -> parent c = i -> edgeOk l c.

(** The map sends the key of every slot to that slot, and holds no other
    key. *)
Definition indexed (tk : keys) : Prop :=
  (forall i e, elts tk !! i = Some e -> m tk !! Key e = Some (Z.of_nat i)) /\
  (forall key, is_Some (m tk !! key) -> exists e, e ∈ elts tk /\ Key e = key).

(** The three invariants, spelled out on the slice and the map: the heap
    order (a parent's [Count] is smaller, or equal with an [Error] at
    least as large), the map as a bijection between monitored keys and
    slots, and no key in two slots. *)
Definition monitoredSetInvariants (tk : keys) : Prop :=
  (forall c p e, (0 < c)%nat -> elts tk !! c = Some e ->
     elts tk !! ((c - 1) / 2)%nat = Some p ->
     Count p < Count e \/ (Count p = Count e /\ Error e <= Error p)) /\
  (forall i e, elts tk !! i = Some e -> m tk !! Key e = Some (Z.of_nat i)) /\
  (forall key z, m tk !! key = Some z ->
     exists i e, z = Z.of_nat i /\ elts tk !! i = Some e /\ Key e = key) /\
  NoDup (Key <$> elts tk).

(** ** The invariant of a sketch *)

(** A sketch of positive size whose sizes are [int]s: the filter has
    [n * 36] counters, the monitored set holds at most [n * 6] elements,
    is heap ordered and has its map in step. *)
Record Inv (s : Stream) : Prop := mkInv {
  inv_n : 1 <= n s;
  inv_n_max : n s * 36 <= GoInt.max_int;
  inv_alphas : Z.of_nat (length (alphas s)) = n s * 36;
  inv_cap : Z.of_nat (length (elts (k s))) <= n s * bufMultiplier;
  inv_heap : heapOrdered (elts (k s));
  inv_index : indexed (k s)
}.

(** ** Streams and error bounds *)

(** The weight inserted for key [x] by the calls [hist], oldest first. *)
Definition trueWeight (hist : list (string * Z)) (x : string) : Z :=
  foldr (fun kw acc => if decide (kw.1 = x) then kw.2 + acc else acc) 0 hist.

(** The weight inserted for all keys. *)
Definition totalWeight (hist : list (string * Z)) : Z :=
  foldr (fun kw acc => kw.2 + acc) 0 hist.

(** Weights are at least one, and their sum is an [int]. *)
Definition validStream (hist : list (string * Z)) : Prop :=
  Forall (fun kw => 1 <= kw.2) hist /\ totalWeight hist <= GoInt.max_int.

(** The error bound of an element against the stream seen so far. *)
Definition bounded (hist : list (string * Z)) (e : Element) : Prop :=
  trueWeight hist (Key e) <= Count e /\ Count e - Error e <= trueWeight hist (Key e).

(** Count descending, ties by key ascending. *)
Definition countDescending (a b : Element) : Prop :=
  Count b < Count a \/ (Count a = Count b /\ (Key a ≤ Key b)%string).

(** ** The wire format *)

(** The tokens of the map entries, in the order of iteration. *)
Definition entryTokens (order : list (string * Z)) : list token :=
  order ≫= fun kv => [TString kv.1; TInt kv.2].

(** The tokens of the elements, in slot order. *)
Definition elementTokens (l : list Element) : list token :=
  l ≫= fun e => [TString (Key e); TInt (Count e); TInt (Error e)].

(** ** Runs *)

(** The calls that change the counter. *)
Inductive TopKOp :=
  | OpInsert (x : string) (weight : Z)
  | OpClear.

(** The sum of the weights inserted after the last [Clear]. *)
Definition weightSinceClear (ops : list TopKOp) : Z :=
  foldl (fun acc o => match o with OpInsert _ w => acc + w | OpClear => 0 end) 0 ops.

Section Specification.
Variable hash : string -> Z.

(** What one [Insert] does, by the branch it takes. *)
Variant InsertCase (s : Stream) (x : string) (w : Z) (s' : Stream) (e : Element) : Prop :=
  | case_tracked e0 rest :
      Key e0 = x -> elts (k s) ≡ₚ e0 :: rest -> elts (k s') ≡ₚ e :: rest ->
      e = mkElement x (GoInt.add (Count e0) w) (Error e0) ->
      alphas s' = alphas s ->
      InsertCase s x w s' e
  | case_free :
      m (k s) !! x = None ->
      Z.of_nat (length (elts (k s))) < n s * bufMultiplier ->
      e = mkElement x w 0 -> elts (k s') ≡ₚ e :: elts (k s) ->
      alphas s' = alphas s ->
      InsertCase s x w s' e
  | case_filter a m0 :
      m (k s) !! x = None ->
      Z.of_nat (length (elts (k s))) = n s * bufMultiplier ->
      index (alphas s) (bucket hash s x) = Some a ->
      elts (k s) !! 0%nat = Some m0 ->
      GoInt.add a w < Count m0 ->
      e = mkElement x (GoInt.add a w) a ->
      k s' = k s ->
      alphas s' = <[Z.to_nat (bucket hash s x) := GoInt.add a w]> (alphas s) ->
      InsertCase s x w s' e
  | case_evict a m0 rest a1 :
      m (k s) !! x = None ->
      Z.of_nat (length (elts (k s))) = n s * bufMultiplier ->
      index (alphas s) (bucket hash s x) = Some a ->
      elts (k s) = m0 :: rest ->
      Count m0 <= GoInt.add a w ->
      alphas s' = <[Z.to_nat (bucket hash s (Key m0)) := Count m0]> (alphas s) ->
      index (alphas s') (bucket hash s x) = Some a1 ->
      e = mkElement x (GoInt.add a1 w) a1 ->
      elts (k s') ≡ₚ e :: rest ->
      InsertCase s x w s' e.

(** The bounds the filter and the monitored set keep along a stream:
    every monitored element is within its error bound, every counter of
    the filter is at most every monitored [Count], the filter is zero
    until the monitored set is full, and the bucket of a key that is
    not monitored is at least the weight inserted for it. *)
Record Bounds (hist : list (string * Z)) (s : Stream) : Prop := mkBounds {
  b_elts : forall e, e ∈ elts (k s) ->
    bounded hist e /\ Count e <= totalWeight hist /\ 0 <= Error e;
  b_alphas : forall a, a ∈ alphas s ->
    0 <= a <= totalWeight hist /\ forall e, e ∈ elts (k s) -> a <= Count e;
  b_free : Z.of_nat (length (elts (k s))) < n s * bufMultiplier ->
    forall a, a ∈ alphas s -> a = 0;
  b_untracked : forall x a, m (k s) !! x = None ->
    index (alphas s) (bucket hash s x) = Some a -> trueWeight hist x <= a
}.

(** The sketches a caller can build: [New] with a positive size, then
    any number of [Insert] and successful [Merge] calls. *)
Inductive reachable : Stream -> Prop :=
  | reach_New sz s :
      1 <= sz -> sz * 36 <= GoInt.max_int -> New sz = Some s -> reachable s
  | reach_Insert s x w s' e :
      reachable s -> Insert hash s x w = Some (s', e) -> reachable s'
  | reach_Merge s other s' :
      reachable s -> reachable other -> Merge hash s other = MergeOk s' -> reachable s'.

(** A run of [Insert] calls, oldest first; [None] when a call panics. *)
Definition inserts (s : Stream) (hist : list (string * Z)) : option Stream :=
  foldl (fun os kw => s ← os; fst <$> Insert hash s kw.1 kw.2) (Some s) hist.

(** One call on the sketch with its counter. *)
Definition applyOp (t : TopK) (o : TopKOp) : option TopK :=
  match o with
  | OpInsert x w => fst <$> TopK_Insert hash t x w
  | OpClear => Some (TopK_Clear t)
  end.

(** A run of calls, oldest first; [None] when a call panics. *)
Definition applyOps (t : TopK) (ops : list TopKOp) : option TopK :=
  foldl (fun ot o => t ← ot; applyOp t o) (Some t) ops.

End Specification.

(** A stand-in for the digest: the length of the key.  With a filter of
    [36] counters every key shorter than [2 ^ 32 / 36] bytes falls in
    bucket [0], so all the keys of the examples collide. *)
Definition lengthHash (x : string) : Z := Z.of_nat (String.length x).

(** [New sz] followed by the [Insert] calls of [hist]. *)
Definition sketchOf (hash : string -> Z) (sz : Z) (hist : list (string * Z)) : option Stream :=
  s0 ← New sz; inserts hash s0 hist.

(** Thirty-seven keys for a filter of thirty-six counters. *)
Definition collidingKeys : list string :=
  ["k00"; "k01"; "k02"; "k03"; "k04"; "k05"; "k06"; "k07";
   "k08"; "k09"; "k10"; "k11"; "k12"; "k13"; "k14"; "k15";
   "k16"; "k17"; "k18"; "k19"; "k20"; "k21"; "k22"; "k23";
   "k24"; "k25"; "k26"; "k27"; "k28"; "k29"; "k30"; "k31";
   "k32"; "k33"; "k34"; "k35"; "k36"].

(** ** Two claims as the spec states them *)

(** C4, as the spec states it: a merge whose union of monitored keys has
    more than [n] but at most [n * 6] entries keeps them all. *)
Definition mergeKeepsWholeBuffer (hash : string -> Z) : Prop :=
  forall s other s',
    reachable hash s -> reachable hash other -> Merge hash s other = MergeOk s' ->
    n s < Z.of_nat (size (mergeKeys s other)) <= n s * bufMultiplier ->
    length (elts (k s')) = size (mergeKeys s other).

(** C3 as the spec states it: the element installed on eviction carries
    the filter estimate read at the start of the call. *)
Definition evictionKeepsFirstEstimate (hash : string -> Z) : Prop :=
  forall s x w s' e filterEst minElement,
    reachable hash s ->
    m (k s) !! x = None ->
    Z.of_nat (length (elts (k s))) = n s * bufMultiplier ->
    index (alphas s) (bucket hash s x) = Some filterEst ->
    elts (k s) !! 0%nat = Some minElement ->
    Count minElement <= GoInt.add filterEst w ->
    Insert hash s x w = Some (s', e) ->
    index (alphas s') (bucket hash s (Key minElement)) = Some (Count minElement) /\
    m (k s') !! Key minElement = None /\
    e = mkElement x (GoInt.add filterEst w) filterEst.

(** * Properties *)

(** ** Integer arithmetic *)

Lemma wrap_in_range z : GoInt.in_range z -> GoInt.wrap z = z.
Proof.
  unfold GoInt.in_range, GoInt.min_int, GoInt.max_int, GoInt.wrap. intros H.
  rewrite Z.mod_small; lia.
Qed.

Lemma wrap_range z : GoInt.in_range (GoInt.wrap z).
Proof.
  unfold GoInt.in_range, GoInt.min_int, GoInt.max_int, GoInt.wrap.
  pose proof (Z.mod_pos_bound (z + 2 ^ 63) (2 ^ 64) ltac:(lia)). lia.
Qed.

Lemma add_exact a b : GoInt.in_range (a + b) -> GoInt.add a b = a + b.
Proof. apply wrap_in_range. Qed.

(** ** [reduce] *)

Lemma reduce_high_bits x len :
  reduce x len = (((x mod 2 ^ 32) * (len mod 2 ^ 64)) mod 2 ^ 64) / 2 ^ 32.
Proof.
  unfold reduce, GoInt.to_uint32, GoInt.to_uint64.
  rewrite Z.shiftr_div_pow2 by lia.
  assert (Ha : 0 <= x mod 2 ^ 32 < 2 ^ 32) by (apply Z.mod_pos_bound; lia).
  rewrite (Z.mod_small (x mod 2 ^ 32) (2 ^ 64)) by lia.
  set (P := (x mod 2 ^ 32 * (len mod 2 ^ 64)) mod 2 ^ 64).
  assert (HP : 0 <= P < 2 ^ 64) by (apply Z.mod_pos_bound; lia).
  apply Z.mod_small. split.
  - apply Z.div_pos; lia.
  - apply Z.div_lt_upper_bound; lia.
Qed.

Lemma reduce_bound x len : 1 <= len -> 0 <= reduce x len < len.
Proof.
  intros Hlen. rewrite reduce_high_bits.
  assert (Ha : 0 <= x mod 2 ^ 32 < 2 ^ 32) by (apply Z.mod_pos_bound; lia).
  set (a := x mod 2 ^ 32) in *.
  set (P := (a * (len mod 2 ^ 64)) mod 2 ^ 64).
  assert (HP : 0 <= P < 2 ^ 64) by (apply Z.mod_pos_bound; lia).
  split; [apply Z.div_pos; lia|].
  destruct (Z_lt_le_dec len (2 ^ 32)) as [Hs|Hb].
  - subst P. rewrite (Z.mod_small len) by lia.
    rewrite Z.mod_small by nia.
    apply Z.div_lt_upper_bound; nia.
  - assert (P / 2 ^ 32 < 2 ^ 32) by (apply Z.div_lt_upper_bound; lia). lia.
Qed.

(** ** Order facts for [keys.Less] *)

Lemma elemLess_asym a b : elemLess a b = true -> elemLess b a = false.
Proof.
  unfold elemLess. intros Hab.
  apply orb_true_iff in Hab. apply orb_false_iff.
  rewrite andb_true_iff in Hab. rewrite andb_false_iff.
  rewrite !Z.ltb_lt, Z.eqb_eq in Hab. rewrite !Z.ltb_ge, Z.eqb_neq. lia.
Qed.

Lemma elemLess_trans_false a b c :
  elemLess b a = false -> elemLess c b = false -> elemLess c a = false.
Proof.
  unfold elemLess. intros Hab Hbc.
  apply orb_false_iff in Hab. apply orb_false_iff in Hbc. apply orb_false_iff.
  rewrite andb_false_iff in Hab, Hbc. rewrite andb_false_iff.
  rewrite !Z.ltb_ge, Z.eqb_neq in *. lia.
Qed.

Lemma elemLess_false_Count a b : elemLess b a = false -> Count a <= Count b.
Proof.
  unfold elemLess. intros H. apply orb_false_iff in H. rewrite Z.ltb_ge in H. lia.
Qed.

(** ** Exchanging two slots *)

Lemma length_exchange l i j : length (exchange l i j) = length l.
Proof. unfold exchange. by rewrite !length_insert. Qed.

Lemma exchange_lookup l i j c :
  (i < length l)%nat -> (j < length l)%nat ->
  exchange l i j !!! c =
    if decide (c = j) then l !!! i else if decide (c = i) then l !!! j else l !!! c.
Proof.
  intros Hi Hj. unfold exchange.
  rewrite list_lookup_total_insert, length_insert.
  repeat case_decide; try lia; subst; try done.
  - rewrite list_lookup_total_insert_eq; [done|lia].
  - rewrite list_lookup_total_insert_ne; [done|lia].
Qed.

Lemma exchange_Permutation l i j :
  (i < length l)%nat -> (j < length l)%nat -> exchange l i j ≡ₚ l.
Proof.
  intros Hi Hj.
  apply (Permutation_inj _ _). split; [by rewrite length_exchange|].
  exists (fun c => if decide (c = j) then i else if decide (c = i) then j else c).
  split.
  - intros a b. repeat case_decide; lia.
  - intros c. unfold exchange.
    destruct (decide (c = j)) as [->|Hcj].
    + rewrite list_lookup_insert_eq by (rewrite length_insert; lia).
      by rewrite list_lookup_lookup_total_lt.
    + rewrite list_lookup_insert_ne by done.
      destruct (decide (c = i)) as [->|Hci].
      * rewrite list_lookup_insert_eq by lia. by rewrite list_lookup_lookup_total_lt.
      * by rewrite list_lookup_insert_ne.
Qed.

(** ** Heap order *)

Lemma parent_lt c : (0 < c)%nat -> (parent c < c)%nat.
Proof. unfold parent. intros. apply Nat.Div0.div_lt_upper_bound; lia. Qed.

Lemma parent_child c i : (0 < c)%nat -> parent c = i <-> c = (2 * i + 1)%nat \/ c = (2 * i + 2)%nat.
Proof.
  unfold parent. intros Hc.
  pose proof (Nat.div_mod_eq (c - 1) 2) as Hd.
  pose proof (Nat.mod_upper_bound (c - 1) 2 ltac:(lia)) as Hm.
  lia.
Qed.

Lemma parent_fix j : parent j = j <-> j = 0%nat.
Proof.
  split; [|intros ->; reflexivity].
  intros Hp. destruct (decide (j = 0%nat)) as [|Hne]; [done|].
  pose proof (parent_lt j ltac:(lia)). lia.
Qed.

Lemma heapOrdered_hole l i : heapOrdered l -> heapHole l i /\ childrenOk l i.
Proof.
  intros Hh. split; [split|].
  - intros c Hc _ _. by apply Hh.
  - intros c Hc Hp Hi.
    assert (Hic : (i < c)%nat) by (subst i; apply parent_lt; lia).
    eapply elemLess_trans_false; [apply (Hh i); lia|].
    rewrite <- Hp at 1. apply (Hh c Hc).
  - intros c Hc _. by apply Hh.
Qed.

Lemma hole_closed l i :
  heapHole l i -> childrenOk l i -> ((0 < i < length l)%nat -> edgeOk l i) -> heapOrdered l.
Proof.
  intros [H1 H2] Hch Hi c Hc.
  destruct (decide (c = i)) as [->|Hci]; [by apply Hi|].
  destruct (decide (parent c = i)) as [Hp|Hp]; [by apply Hch|by apply H1].
Qed.

(** Overwriting slot [i] of an ordered heap leaves a hole at [i]. *)
Lemma heapHole_insert l i e : heapOrdered l -> heapHole (<[i := e]> l) i.
Proof.
  intros Hh. destruct (heapOrdered_hole l i Hh) as [[H1 H2] _].
  split.
  - intros c Hc Hci Hp. rewrite length_insert in Hc. unfold edgeOk.
    rewrite !list_lookup_total_insert_ne by done. by apply H1.
  - intros c Hc Hp Hi. rewrite length_insert in Hc.
    assert (Hic : (i < c)%nat) by (subst i; apply parent_lt; lia).
    pose proof (parent_lt i Hi).
    rewrite !list_lookup_total_insert_ne by lia. by apply H2.
Qed.

(** The root of an ordered heap is not after any element. *)
Lemma heapOrdered_root l c :
  heapOrdered l -> (c < length l)%nat -> elemLess (l !!! c) (l !!! 0%nat) = false.
Proof.
  intros Hh. induction (lt_wf c) as [c _ IH]. intros Hc.
  destruct (decide (c = 0%nat)) as [->|Hne].
  - unfold elemLess. rewrite Z.ltb_irrefl, Z.eqb_refl. simpl. apply Z.ltb_irrefl.
  - pose proof (parent_lt c ltac:(lia)).
    eapply elemLess_trans_false; [apply (IH (parent c)); lia|]. apply Hh. lia.
Qed.

(** ** One step of [up] and of [down] *)

Lemma elemLess_irrefl a : elemLess a a = false.
Proof. unfold elemLess. rewrite !Z.ltb_irrefl, Z.eqb_refl. reflexivity. Qed.

Lemma up_step_hole l j :
  (0 < j < length l)%nat ->
  elemLess (l !!! j) (l !!! parent j) = true ->
  heapHole l j -> childrenOk l j ->
  heapHole (exchange l (parent j) j) (parent j) /\
  childrenOk (exchange l (parent j) j) (parent j).
Proof.
  intros Hj Hless [H1 H2] Hch.
  pose proof (parent_lt j ltac:(lia)) as Hpj.
  set (i := parent j) in *.
  assert (Hlk : forall c, exchange l i j !!! c =
            if decide (c = j) then l !!! i else if decide (c = i) then l !!! j else l !!! c)
    by (intros c; apply exchange_lookup; lia).
  split; [split|].
  - intros c Hc Hci Hpc. rewrite length_exchange in Hc. unfold edgeOk. rewrite !Hlk.
    destruct (decide (c = j)) as [->|Hcj]; [done|].
    destruct (decide (c = i)) as [|_]; [done|].
    destruct (decide (parent c = j)) as [Hpcj|Hpcj].
    + apply H2; [done|done|lia].
    + destruct (decide (parent c = i)) as [|_]; [done|]. by apply H1.
  - intros c Hc Hpc Hi. rewrite length_exchange in Hc. rewrite !Hlk.
    pose proof (parent_lt i Hi) as Hpi.
    assert (Hic : (i < c)%nat) by (rewrite <- Hpc; apply parent_lt; lia).
    destruct (decide (parent i = j)) as [|_]; [lia|].
    destruct (decide (parent i = i)) as [|_]; [lia|].
    assert (Hei : edgeOk l i) by (apply H1; lia).
    destruct (decide (c = j)) as [->|Hcj]; [exact Hei|].
    destruct (decide (c = i)) as [|_]; [lia|].
    eapply elemLess_trans_false; [exact Hei|].
    rewrite <- Hpc. apply H1; [done|done|lia].
  - intros c Hc Hpc. rewrite length_exchange in Hc. unfold edgeOk. rewrite Hpc, !Hlk.
    assert (Hic : (i < c)%nat) by (rewrite <- Hpc; apply parent_lt; lia).
    destruct (decide (i = j)) as [|_]; [lia|].
    destruct (decide (i = i)) as [_|]; [|done].
    destruct (decide (c = j)) as [->|Hcj]; [by apply elemLess_asym|].
    destruct (decide (c = i)) as [|_]; [lia|].
    eapply elemLess_trans_false; [apply elemLess_asym, Hless|].
    rewrite <- Hpc. apply H1; [done|done|lia].
Qed.

Lemma down_step_hole l i j :
  (i < length l)%nat -> (0 < j < length l)%nat -> parent j = i ->
  elemLess (l !!! j) (l !!! i) = true ->
  (forall c, (0 < c < length l)%nat -> parent c = i -> elemLess (l !!! c) (l !!! j) = false) ->
  heapHole l i ->
  heapHole (exchange l i j) j /\ edgeOk (exchange l i j) j.
Proof.
  intros Hi Hj Hpj Hless Hmin [H1 H2].
  assert (Hij : (i < j)%nat) by (rewrite <- Hpj; apply parent_lt; lia).
  assert (Hlk : forall c, exchange l i j !!! c =
            if decide (c = j) then l !!! i else if decide (c = i) then l !!! j else l !!! c)
    by (intros c; apply exchange_lookup; lia).
  split; [split|].
  - intros c Hc Hcj Hpc. rewrite length_exchange in Hc. unfold edgeOk. rewrite !Hlk.
    destruct (decide (c = j)) as [|_]; [done|].
    destruct (decide (parent c = j)) as [|_]; [done|].
    pose proof (parent_lt c ltac:(lia)) as Hpcc.
    destruct (decide (c = i)) as [->|Hci].
    + destruct (decide (parent i = i)) as [|_]; [lia|]. apply (H2 j); [lia|done|lia].
    + destruct (decide (parent c = i)) as [Hpci|Hpci]; [by apply Hmin|by apply H1].
  - intros c Hc Hpc _. rewrite length_exchange in Hc. rewrite Hpj, !Hlk.
    assert (Hjc : (j < c)%nat) by (rewrite <- Hpc; apply parent_lt; lia).
    destruct (decide (c = j)) as [|_]; [lia|].
    destruct (decide (c = i)) as [|_]; [lia|].
    destruct (decide (i = j)) as [|_]; [lia|].
    destruct (decide (i = i)) as [_|]; [|done].
    rewrite <- Hpc. apply H1; [done|lia|lia].
  - unfold edgeOk. rewrite Hpj, !Hlk.
    destruct (decide (j = j)) as [_|]; [|done].
    destruct (decide (i = j)) as [|_]; [lia|].
    destruct (decide (i = i)) as [_|]; [|done].
    by apply elemLess_asym.
Qed.

(** ** The key-to-slot map *)

Lemma indexed_inj tk i j a b :
  indexed tk -> elts tk !! i = Some a -> elts tk !! j = Some b -> Key a = Key b -> i = j.
Proof.
  intros [H1 _] Ha Hb Hk. apply H1 in Ha. apply H1 in Hb. rewrite Hk in Ha.
  rewrite Ha in Hb. injection Hb. lia.
Qed.

Lemma indexed_NoDup tk : indexed tk -> NoDup (Key <$> elts tk).
Proof.
  intros Hix. apply NoDup_alt. intros i j key Hi Hj.
  rewrite list_lookup_fmap in Hi, Hj.
  destruct (elts tk !! i) as [a|] eqn:Ha; [|done].
  destruct (elts tk !! j) as [b|] eqn:Hb; [|done].
  simpl in *. eapply indexed_inj; eauto. congruence.
Qed.

Lemma indexed_tracked tk key :
  indexed tk -> is_Some (m tk !! key) <-> key ∈ Key <$> elts tk.
Proof.
  intros [H1 H2]. split.
  - intros Hs. destruct (H2 key Hs) as (e & He & <-). by apply list_elem_of_fmap_2.
  - intros (e & -> & He)%list_elem_of_fmap. apply list_elem_of_lookup in He as [i Hi].
    rewrite (H1 i e Hi). eauto.
Qed.

Lemma elts_Swap tk i j : elts (Swap tk i j) = exchange (elts tk) i j.
Proof. reflexivity. Qed.

Lemma Swap_indexed tk i j :
  (i < length (elts tk))%nat -> (j < length (elts tk))%nat ->
  indexed tk -> indexed (Swap tk i j).
Proof.
  intros Hi Hj Hix. pose proof Hix as [H1 H2].
  assert (Hlk : forall c, exchange (elts tk) i j !!! c =
            if decide (c = j) then elts tk !!! i
            else if decide (c = i) then elts tk !!! j else elts tk !!! c)
    by (intros c; apply exchange_lookup; lia).
  assert (Hne : forall a b, (a < length (elts tk))%nat -> (b < length (elts tk))%nat ->
            a <> b -> Key (elts tk !!! a) <> Key (elts tk !!! b)).
  { intros a b Ha Hb Hab Hk. apply Hab.
    eapply (indexed_inj tk a b); eauto using list_lookup_lookup_total_lt. }
  split.
  - intros c e Hc. cbn [Swap keys_Interface keys_Swap m elts] in *.
    fold (exchange (elts tk) i j) in *.
    apply list_lookup_alt in Hc as [Hlen <-]. rewrite length_exchange in Hlen.
    rewrite !Hlk.
    destruct (decide (j = j)) as [_|]; [|done].
    destruct (decide (c = j)) as [->|Hcj]; [by rewrite lookup_insert_eq|].
    destruct (decide (i = j)) as [->|Hij].
    + rewrite decide_False by done.
      rewrite !lookup_insert_ne by (apply Hne; lia).
      apply H1. by apply list_lookup_lookup_total_lt.
    + destruct (decide (i = i)) as [_|]; [|done].
      destruct (decide (c = i)) as [->|Hci].
      * rewrite lookup_insert_ne by (apply Hne; lia). by rewrite lookup_insert_eq.
      * rewrite !lookup_insert_ne by (apply Hne; lia).
        apply H1. by apply list_lookup_lookup_total_lt.
  - intros key Hs. rewrite elts_Swap.
    assert (Hin : forall c, (c < length (elts tk))%nat ->
              exchange (elts tk) i j !!! c ∈ exchange (elts tk) i j)
      by (intros c Hc; apply list_elem_of_lookup_total_2; by rewrite length_exchange).
    cbn [Swap keys_Interface keys_Swap m elts] in Hs.
    fold (exchange (elts tk) i j) in Hs.
    apply lookup_insert_is_Some in Hs as [<-|[_ Hs]]; [eauto|].
    apply lookup_insert_is_Some in Hs as [<-|[_ Hs]]; [eauto|].
    destruct (H2 key Hs) as (e & He & Hk). exists e. split; [|done].
    by rewrite exchange_Permutation.
Qed.

Lemma Push_indexed tk e :
  m tk !! Key e = None -> indexed tk -> indexed (Push tk e).
Proof.
  intros Hfresh [H1 H2]. split.
  - intros i a Hi. cbn [Push keys_Interface keys_Push m elts] in *.
    apply lookup_app_Some in Hi as [Hi|[Hlen Hi]].
    + rewrite lookup_insert_ne; [by apply H1|].
      intros Hk. apply H1 in Hi. rewrite <- Hk in Hi. congruence.
    + apply list_lookup_singleton_Some in Hi as [Hz ->].
      rewrite lookup_insert_eq. f_equal. lia.
  - intros key Hs. cbn [Push keys_Interface keys_Push m elts] in *.
    apply lookup_insert_is_Some in Hs as [<-|[_ Hs]].
    + exists e. split; [|done]. apply elem_of_app. right. by apply list_elem_of_singleton.
    + destruct (H2 key Hs) as (a & Ha & Hk). exists a. split; [|done].
      apply elem_of_app. by left.
Qed.

(** ** The loops of [container/heap] *)

Section fuel.
Context {H E : Type} `{Interface H E}.

Lemma up_loop_eq fuel (h : H) j :
  heap.up_loop fuel h j =
    if (((j - 1) / 2)%nat =? j)%nat || negb (Less h j ((j - 1) / 2)%nat) then h
    else match fuel with
         | O => h
         | S fuel' => heap.up_loop fuel' (Swap h ((j - 1) / 2)%nat j) ((j - 1) / 2)%nat
         end.
Proof. destruct fuel; reflexivity. Qed.

Lemma down_loop_eq fuel (h : H) i len :
  heap.down_loop fuel h i len =
    if (len <=? 2 * i + 1)%nat then (h, i)
    else
      let j := if (2 * i + 1 + 1 <? len)%nat && Less h (2 * i + 1 + 1)%nat (2 * i + 1)%nat
               then (2 * i + 1 + 1)%nat else (2 * i + 1)%nat in
      if negb (Less h j i) then (h, i)
      else match fuel with
           | O => (h, i)
           | S fuel' => heap.down_loop fuel' (Swap h i j) j len
           end.
Proof. destruct fuel; reflexivity. Qed.

(** The loops stop by themselves before the fuel of [up] and [down] is
    used up: more fuel gives the same result. *)
Lemma up_fuel f1 : forall f2 (h : H) j,
  (j <= f1)%nat -> (j <= f2)%nat -> heap.up_loop f1 h j = heap.up_loop f2 h j.
Proof.
  induction f1 as [|f1 IH]; intros f2 h j H1 H2; rewrite (up_loop_eq _ h j), (up_loop_eq f2 h j).
  - assert (j = 0%nat) as -> by lia. reflexivity.
  - destruct ((((j - 1) / 2)%nat =? j)%nat) eqn:Hi; [reflexivity|].
    destruct (negb (Less h j ((j - 1) / 2)%nat)); [reflexivity|]. cbv beta iota.
    apply Nat.eqb_neq in Hi.
    assert (Hj : (0 < j)%nat) by (destruct j; [done|lia]).
    pose proof (parent_lt j Hj) as Hp. unfold parent in Hp.
    destruct f2 as [|f2]; [lia|]. apply IH; lia.
Qed.

Lemma down_fuel f1 : forall f2 (h : H) i len,
  (len - i <= f1)%nat -> (len - i <= f2)%nat ->
  heap.down_loop f1 h i len = heap.down_loop f2 h i len.
Proof.
  induction f1 as [|f1 IH]; intros f2 h i len H1 H2;
    rewrite (down_loop_eq _ h i len), (down_loop_eq f2 h i len).
  - assert ((len <=? 2 * i + 1)%nat = true) as -> by (apply Nat.leb_le; lia). reflexivity.
  - destruct (len <=? 2 * i + 1)%nat eqn:Hlen; [reflexivity|]. apply Nat.leb_gt in Hlen.
    cbv zeta.
    destruct (negb _); [reflexivity|].
    destruct f2 as [|f2]; [lia|].
    apply IH; destruct (_ && _); lia.
Qed.

End fuel.

Lemma keys_Less_eq (tk : keys) i j : Less tk i j = elemLess (elts tk !!! i) (elts tk !!! j).
Proof. reflexivity. Qed.

Lemma length_Swap (tk : keys) i j : length (elts (Swap tk i j)) = length (elts tk).
Proof. rewrite elts_Swap. apply length_exchange. Qed.

Lemma up_loop_spec fuel : forall (tk : keys) j,
  (j <= fuel)%nat -> (j < length (elts tk))%nat -> indexed tk ->
  heapHole (elts tk) j -> childrenOk (elts tk) j ->
  heapOrdered (elts (heap.up_loop fuel tk j)) /\
  indexed (heap.up_loop fuel tk j) /\
  elts (heap.up_loop fuel tk j) ≡ₚ elts tk.
Proof.
  induction fuel as [|fuel IH]; intros tk j Hf Hj Hix Hh Hch; rewrite up_loop_eq;
    fold (parent j); rewrite keys_Less_eq.
  - assert (j = 0%nat) as -> by lia. simpl. split; [|done].
    apply (hole_closed _ 0%nat); [done|done|lia].
  - destruct (parent j =? j)%nat eqn:Hi.
    { apply Nat.eqb_eq in Hi. simpl. split; [|done].
      apply (hole_closed _ j); [done|done|]. apply parent_fix in Hi. lia. }
    apply Nat.eqb_neq in Hi. simpl.
    assert (Hj0 : (0 < j)%nat) by (destruct (decide (j = 0%nat)) as [->|]; [done|lia]).
    destruct (elemLess (elts tk !!! j) (elts tk !!! parent j)) eqn:Hless; simpl.
    + pose proof (parent_lt j Hj0) as Hp.
      destruct (up_step_hole (elts tk) j ltac:(lia) Hless Hh Hch) as [Hh' Hch'].
      destruct (IH (Swap tk (parent j) j) (parent j)) as (Ho & Hix' & Hperm).
      * lia.
      * rewrite length_Swap. lia.
      * apply Swap_indexed; [lia|lia|done].
      * by rewrite elts_Swap.
      * by rewrite elts_Swap.
      * split; [done|]. split; [done|].
        rewrite Hperm, elts_Swap. apply exchange_Permutation; lia.
    + split; [|done]. apply (hole_closed _ j); [done|done|]. intros _. exact Hless.
Qed.

Lemma down_loop_spec fuel : forall (tk : keys) i,
  (length (elts tk) - i <= fuel)%nat -> (i < length (elts tk))%nat -> indexed tk ->
  heapHole (elts tk) i ->
  let r := heap.down_loop fuel tk i (length (elts tk)) in
  heapHole (elts r.1) r.2 /\ childrenOk (elts r.1) r.2 /\
  (i <= r.2 < length (elts tk))%nat /\
  (r.2 = i -> r.1 = tk) /\
  ((i < r.2)%nat -> edgeOk (elts r.1) r.2) /\
  indexed r.1 /\ elts r.1 ≡ₚ elts tk.
Proof.
  induction fuel as [|fuel IH]; intros tk i Hf Hi Hix Hh; rewrite down_loop_eq.
  - assert ((length (elts tk) <=? 2 * i + 1)%nat = true) as -> by (apply Nat.leb_le; lia).
    simpl. split_and!; try done; try lia;
      intros c Hc Hp; apply parent_child in Hp; lia.
  - destruct (length (elts tk) <=? 2 * i + 1)%nat eqn:Hlen.
    { apply Nat.leb_le in Hlen. simpl. split_and!; try done; try lia;
        intros c Hc Hp; apply parent_child in Hp; lia. }
    apply Nat.leb_gt in Hlen. cbv zeta.
    set (j1 := (2 * i + 1)%nat) in *.
    set (j := if (j1 + 1 <? length (elts tk))%nat && Less tk (j1 + 1)%nat j1
              then (j1 + 1)%nat else j1).
    assert (Hj : (j = j1 \/ j = j1 + 1)%nat /\ (j < length (elts tk))%nat /\
                 forall c, (0 < c < length (elts tk))%nat -> parent c = i ->
                           elemLess (elts tk !!! c) (elts tk !!! j) = false).
    { subst j. rewrite keys_Less_eq.
      destruct (j1 + 1 <? length (elts tk))%nat eqn:H2; simpl.
      - apply Nat.ltb_lt in H2.
        destruct (elemLess (elts tk !!! (j1 + 1)%nat) (elts tk !!! j1)) eqn:Hl.
        + split; [lia|]. split; [lia|]. intros c Hc Hp.
          apply parent_child in Hp; [|lia]. destruct Hp as [->| ->].
          * by apply elemLess_asym.
          * replace (2 * i + 2)%nat with (j1 + 1)%nat by lia. apply elemLess_irrefl.
        + split; [lia|]. split; [lia|]. intros c Hc Hp.
          apply parent_child in Hp; [|lia]. destruct Hp as [->| ->].
          * apply elemLess_irrefl.
          * replace (2 * i + 2)%nat with (j1 + 1)%nat by lia. done.
      - apply Nat.ltb_ge in H2. split; [lia|]. split; [lia|]. intros c Hc Hp.
        apply parent_child in Hp; [|lia]. destruct Hp as [->| ->]; [|lia].
        apply elemLess_irrefl. }
    clearbody j. destruct Hj as (Hjj & Hjlen & Hmin).
    assert (Hpj : parent j = i) by (apply parent_child; lia).
    rewrite keys_Less_eq.
    destruct (elemLess (elts tk !!! j) (elts tk !!! i)) eqn:Hless; cbn [negb]; cbv beta iota.
    + destruct (down_step_hole (elts tk) i j Hi ltac:(lia) Hpj Hless Hmin Hh) as [Hh' He'].
      pose proof (IH (Swap tk i j) j) as IH'. rewrite length_Swap in IH'.
      rewrite elts_Swap in IH' at 1.
      specialize (IH' ltac:(lia) ltac:(lia) (Swap_indexed tk i j Hi Hjlen Hix) Hh').
      destruct (heap.down_loop fuel (Swap tk i j) j (length (elts tk))) as [tk' i'].
      cbn [fst snd] in *. destruct IH' as (G1 & G2 & G3 & G4 & G5 & G6 & G7).
      split_and!; try done; try lia.
      * intros _. destruct (decide (i' = j)) as [Hq|Hq].
        -- rewrite Hq, (G4 Hq), elts_Swap. exact He'.
        -- apply G5. lia.
      * rewrite G7, elts_Swap. by apply exchange_Permutation.
    + cbn [fst snd]. split_and!; try done; try lia.
      intros c Hc Hp. unfold edgeOk. rewrite Hp.
      eapply elemLess_trans_false; [exact Hless|]. by apply Hmin.
Qed.

(** [heap.Fix] at a slot whose element was overwritten restores the heap
    order and keeps the map in step. *)
Lemma Fix_spec (tk : keys) i :
  (i < length (elts tk))%nat -> indexed tk -> heapHole (elts tk) i ->
  heapOrdered (elts (heap.Fix tk i)) /\ indexed (heap.Fix tk i) /\
  elts (heap.Fix tk i) ≡ₚ elts tk.
Proof.
  intros Hi Hix Hh. unfold heap.Fix, heap.down.
  change (Len tk) with (length (elts tk)).
  pose proof (down_loop_spec (length (elts tk) - i) tk i ltac:(lia) Hi Hix Hh) as Hd.
  destruct (heap.down_loop (length (elts tk) - i) tk i (length (elts tk))) as [tk' i'].
  simpl in Hd. destruct Hd as (G1 & G2 & G3 & G4 & G5 & G6 & G7).
  destruct (i <? i')%nat eqn:Hm.
  - apply Nat.ltb_lt in Hm. split; [|done].
    apply (hole_closed _ i'); [done|done|]. intros _. by apply G5.
  - apply Nat.ltb_ge in Hm. assert (i' = i) as -> by lia.
    rewrite (G4 eq_refl) in *. unfold heap.up.
    by apply up_loop_spec.
Qed.

Lemma Push_spec (tk : keys) e :
  m tk !! Key e = None -> indexed tk -> heapOrdered (elts tk) ->
  heapOrdered (elts (heap.Push tk e)) /\ indexed (heap.Push tk e) /\
  elts (heap.Push tk e) ≡ₚ e :: elts tk.
Proof.
  intros Hfresh Hix Hh. unfold heap.Push, heap.up.
  set (tk' := Push tk e).
  assert (Hel : elts tk' = elts tk ++ [e]) by reflexivity.
  change (Len tk') with (length (elts tk')).
  assert (Hlen : (length (elts tk') - 1 = length (elts tk))%nat)
    by (rewrite Hel, length_app; simpl; lia).
  rewrite Hlen.
  destruct (up_loop_spec (length (elts tk)) tk' (length (elts tk))) as (G1 & G2 & G3).
  - lia.
  - rewrite Hel, length_app. simpl. lia.
  - by apply Push_indexed.
  - rewrite Hel. split.
    + intros c Hc Hci Hp. rewrite length_app in Hc. simpl in Hc.
      pose proof (parent_lt c ltac:(lia)).
      unfold edgeOk. rewrite !lookup_total_app_l by lia. apply Hh. lia.
    + intros c Hc Hp Hi. rewrite length_app in Hc. simpl in Hc.
      pose proof (parent_lt c ltac:(lia)). lia.
  - rewrite Hel. intros c Hc Hp. rewrite length_app in Hc. simpl in Hc.
    pose proof (parent_lt c ltac:(lia)). lia.
  - split; [done|]. split; [done|]. rewrite G3, Hel.
    by rewrite Permutation_app_comm.
Qed.

(** ** Overwriting one slot *)

Lemma indexed_overwrite tk i e0 e :
  indexed tk -> elts tk !! i = Some e0 -> Key e = Key e0 ->
  indexed (mkKeys (m tk) (<[i := e]> (elts tk))).
Proof.
  intros [H1 H2] Hi Hk. pose proof (lookup_lt_Some _ _ _ Hi) as Hlen. split; simpl.
  - intros c a Hc. destruct (decide (i = c)) as [<-|Hne].
    + rewrite list_lookup_insert_eq in Hc by done. injection Hc as <-.
      rewrite Hk. by apply H1.
    + rewrite list_lookup_insert_ne in Hc by done. by apply H1.
  - intros key Hs. destruct (H2 key Hs) as (a & Ha & Hka).
    apply list_elem_of_lookup in Ha as [c Hc].
    destruct (decide (i = c)) as [<-|Hne].
    + exists e. split; [|congruence].
      apply list_elem_of_lookup. exists i. by rewrite list_lookup_insert_eq.
    + exists a. split; [|done].
      apply list_elem_of_lookup. exists c. by rewrite list_lookup_insert_ne.
Qed.

Lemma indexed_evict tk m0 e :
  indexed tk -> elts tk !! 0%nat = Some m0 -> m tk !! Key e = None ->
  indexed (mkKeys (<[Key e := 0]> (delete (Key m0) (m tk))) (<[0%nat := e]> (elts tk))).
Proof.
  intros Hix H0 Hx. pose proof Hix as [H1 H2].
  pose proof (lookup_lt_Some _ _ _ H0) as Hlen. split; simpl.
  - intros c a Hc. destruct (decide (0%nat = c)) as [<-|Hne].
    + rewrite list_lookup_insert_eq in Hc by done. injection Hc as <-.
      by rewrite lookup_insert_eq.
    + rewrite list_lookup_insert_ne in Hc by done.
      assert (Key a <> Key e) by (intros Hk; apply H1 in Hc; congruence).
      assert (Key a <> Key m0).
      { intros Hk. apply Hne. symmetry. by eapply (indexed_inj tk c 0%nat). }
      rewrite lookup_insert_ne, lookup_delete_ne by done. by apply H1.
  - intros key Hs. apply lookup_insert_is_Some in Hs as [<-|[Hne Hs]].
    + exists e. split; [|done]. apply list_elem_of_lookup. exists 0%nat.
      by rewrite list_lookup_insert_eq.
    + rewrite lookup_delete_is_Some in Hs. destruct Hs as [Hm0 Hs].
      destruct (H2 key Hs) as (a & Ha & Hka).
      apply list_elem_of_lookup in Ha as [c Hc].
      destruct (decide (0%nat = c)) as [<-|Hc0]; [congruence|].
      exists a. split; [|done]. apply list_elem_of_lookup. exists c.
      by rewrite list_lookup_insert_ne.
Qed.

Lemma delete_overwrite {A} (l : list A) i e : delete i (<[i := e]> l) = delete i l.
Proof.
  revert i. induction l as [|a l IH]; intros [|i]; simpl; try done.
  by rewrite IH.
Qed.

Lemma overwrite_Permutation (l : list Element) i e0 e :
  l !! i = Some e0 ->
  l ≡ₚ e0 :: delete i l /\ <[i := e]> l ≡ₚ e :: delete i l.
Proof.
  intros Hi. pose proof (lookup_lt_Some _ _ _ Hi) as Hlen. split.
  - by apply delete_Permutation.
  - rewrite <- (delete_overwrite l i e).
    apply delete_Permutation. by rewrite list_lookup_insert_eq.
Qed.

(** ** The structural invariant of a sketch *)

Lemma index_lt {A} (l : list A) i :
  0 <= i < Z.of_nat (length l) -> exists a, index l i = Some a /\ l !! Z.to_nat i = Some a.
Proof.
  intros Hi. unfold index. destruct (i <? 0) eqn:Hneg; [apply Z.ltb_lt in Hneg; lia|].
  destruct (lookup_lt_is_Some_2 l (Z.to_nat i) ltac:(lia)) as [a Ha]. eauto.
Qed.

Lemma index_Some {A} (l : list A) i a :
  index l i = Some a -> 0 <= i /\ l !! Z.to_nat i = Some a.
Proof.
  unfold index. destruct (i <? 0) eqn:Hneg; [done|]. apply Z.ltb_ge in Hneg. done.
Qed.

Lemma index_of_nat {A} (l : list A) (i : nat) : index l (Z.of_nat i) = l !! i.
Proof.
  unfold index. destruct (Z.of_nat i <? 0) eqn:Hneg; [apply Z.ltb_lt in Hneg; lia|].
  by rewrite Nat2Z.id.
Qed.

Lemma capacity_exact sz :
  1 <= sz -> sz * 36 <= GoInt.max_int -> int_mul sz bufMultiplier = sz * 6.
Proof.
  intros H1 H2. unfold int_mul, bufMultiplier. apply wrap_in_range.
  unfold GoInt.in_range, GoInt.min_int, GoInt.max_int in *. lia.
Qed.

Lemma New_Inv sz :
  1 <= sz -> sz * 36 <= GoInt.max_int ->
  exists s, New sz = Some s /\ Inv s /\ n s = sz /\ elts (k s) = [] /\
            alphas s = replicate (Z.to_nat (sz * 36)) 0.
Proof.
  intros H1 H2. unfold New. rewrite capacity_exact by done.
  assert (int_mul (sz * 6) 6 = sz * 36) as ->.
  { unfold int_mul. rewrite wrap_in_range; [lia|].
    unfold GoInt.in_range, GoInt.min_int, GoInt.max_int in *. lia. }
  destruct (sz * 6 <? 0) eqn:Ha; [apply Z.ltb_lt in Ha; lia|].
  destruct (sz * 36 <? 0) eqn:Hb; [apply Z.ltb_lt in Hb; lia|].
  simpl. eexists. split; [done|]. split; [|done].
  constructor; simpl.
  - done.
  - done.
  - rewrite length_replicate. lia.
  - unfold bufMultiplier. lia.
  - intros c Hc. simpl in Hc. lia.
  - split; simpl.
    + intros i e Hi. by rewrite lookup_nil in Hi.
    + intros key [z Hz]. by rewrite lookup_empty in Hz.
Qed.

Section SketchInv.
Variable hash : string -> Z.

Lemma bucket_bound s x :
  alphas s <> [] -> 0 <= bucket hash s x < Z.of_nat (length (alphas s)).
Proof.
  intros Hne. unfold bucket. apply reduce_bound.
  destruct (alphas s); [done|]. simpl. lia.
Qed.

Lemma Inv_alphas_nonempty s : Inv s -> alphas s <> [].
Proof.
  intros Hi Hnil. pose proof (inv_alphas s Hi) as Hl. pose proof (inv_n s Hi).
  rewrite Hnil in Hl. simpl in Hl. lia.
Qed.

Lemma Insert_spec s x w :
  Inv s ->
  exists s' e, Insert hash s x w = Some (s', e) /\ Inv s' /\ n s' = n s /\
               InsertCase hash s x w s' e.
Proof.
  intros HI. pose proof HI as [Hn Hmax Hal Hcap Hheap Hix].
  pose proof (Inv_alphas_nonempty s HI) as Hne.
  unfold Insert.
  destruct (m (k s) !! x) as [idx|] eqn:Hm.
  - (* tracked *)
    destruct (proj2 Hix x (mk_is_Some _ _ Hm)) as (e0 & He0 & Hk).
    apply list_elem_of_lookup in He0 as [i Hi].
    pose proof (proj1 Hix i e0 Hi) as Hmi. rewrite Hk, Hm in Hmi. injection Hmi as ->.
    rewrite index_of_nat, Hi, Nat2Z.id. cbn [mbind option_bind].
    pose proof (lookup_lt_Some _ _ _ Hi) as Hlen.
    set (e := mkElement (Key e0) (GoInt.add (Count e0) w) (Error e0)).
    set (k1 := mkKeys (m (k s)) (<[i := e]> (elts (k s)))).
    destruct (Fix_spec k1 i) as (G1 & G2 & G3).
    + subst k1. cbn [elts]. by rewrite length_insert.
    + by apply (indexed_overwrite (k s) i e0 e).
    + subst k1. cbn [elts]. by apply heapHole_insert.
    + destruct (overwrite_Permutation (elts (k s)) i e0 e Hi) as [P1 P2].
      exists (mkStream (n s) (heap.Fix k1 i) (alphas s)), e.
      split; [done|]. split; [|split; [done|]].
      * constructor; cbn [n k alphas]; try done;
          try (rewrite (Permutation_length G3); subst k1; cbn [elts]; by rewrite length_insert).
      * apply (case_tracked _ _ _ _ _ _ e0 (delete i (elts (k s)))); cbn [n k alphas]; try done.
        -- rewrite G3. subst k1. by cbn [elts].
        -- subst e. by rewrite Hk.
  - rewrite capacity_exact by done.
    destruct (Z.of_nat (length (elts (k s))) <? n s * 6) eqn:Hfree.
    + (* free space *)
      apply Z.ltb_lt in Hfree.
      destruct (Push_spec (k s) (mkElement x w 0)) as (G1 & G2 & G3); try done.
      exists (mkStream (n s) (heap.Push (k s) (mkElement x w 0)) (alphas s)), (mkElement x w 0).
      split; [done|]. split; [|split; [done|]].
      * constructor; cbn [n k alphas]; try done;
          try (rewrite (Permutation_length G3); cbn [length]; unfold bufMultiplier; lia).
      * apply case_free; cbn [n k alphas]; try done; try (unfold bufMultiplier; lia).
    + apply Z.ltb_ge in Hfree. unfold bufMultiplier in Hcap.
      assert (Hfull : Z.of_nat (length (elts (k s))) = n s * bufMultiplier)
        by (unfold bufMultiplier; lia).
      destruct (index_lt (alphas s) (bucket hash s x) (bucket_bound s x Hne)) as (a & Ha & Ha').
      rewrite Ha. cbn [mbind option_bind].
      destruct (elts (k s)) as [|m0 rest] eqn:Hel; [cbn [length] in Hfree; lia|].
      change (index (m0 :: rest) 0) with (Some m0). cbn [mbind option_bind].
      destruct (GoInt.add a w <? Count m0) eqn:Hlt.
      * (* the filter absorbs the weight *)
        apply Z.ltb_lt in Hlt.
        exists (mkStream (n s) (k s) (<[Z.to_nat (bucket hash s x) := GoInt.add a w]> (alphas s))),
               (mkElement x (GoInt.add a w) a).
        split; [done|]. split; [|split; [done|]].
        -- constructor; cbn [n k alphas]; try done;
             try (by rewrite length_insert); try (by rewrite Hel);
             try (rewrite Hel; unfold bufMultiplier; lia).
        -- apply (case_filter _ _ _ _ _ _ a m0); cbn [n k alphas]; try done;
             try (by rewrite Hel).
      * (* eviction *)
        apply Z.ltb_ge in Hlt.
        destruct (index_lt (alphas s) (bucket hash s (Key m0)) (bucket_bound s _ Hne))
          as (am & Hm0 & _).
        rewrite Hm0. cbn [mbind option_bind].
        set (alphas1 := <[Z.to_nat (bucket hash s (Key m0)) := Count m0]> (alphas s)).
        destruct (index_lt alphas1 (bucket hash s x)) as (a1 & Ha1 & _).
        { subst alphas1. rewrite length_insert. by apply bucket_bound. }
        rewrite Ha1. cbn [mbind option_bind].
        set (e := mkElement x (GoInt.add a1 w) a1).
        change (<[0%nat := e]> (m0 :: rest)) with (e :: rest).
        set (k1 := mkKeys (<[x := 0]> (delete (Key m0) (m (k s)))) (e :: rest)).
        destruct (Fix_spec k1 0) as (G1 & G2 & G3).
        -- subst k1. cbn [elts length]. lia.
        -- pose proof (indexed_evict (k s) m0 e Hix) as Hev. rewrite Hel in Hev.
           apply Hev; done.
        -- subst k1. cbn [elts]. change (e :: rest) with (<[0%nat := e]> (m0 :: rest)).
           by apply heapHole_insert.
        -- exists (mkStream (n s) (heap.Fix k1 0) alphas1), e.
           split; [done|]. split; [|split; [done|]].
           ++ constructor; cbn [n k alphas]; try done;
                try (subst alphas1; by rewrite length_insert);
                try (rewrite (Permutation_length G3); subst k1; cbn [elts length] in *;
                     unfold bufMultiplier; lia).
           ++ apply (case_evict _ _ _ _ _ _ a m0 rest a1); cbn [n k alphas]; try done;
                try (by rewrite Hel).
Qed.

End SketchInv.

(** ** The stream seen so far *)

Lemma trueWeight_snoc hist x w y :
  trueWeight (hist ++ [(x, w)]) y = trueWeight hist y + (if decide (x = y) then w else 0).
Proof.
  induction hist as [|[x' w'] hist IH]; simpl.
  - destruct (decide (x = y)); lia.
  - rewrite IH. destruct (decide (x' = y)); lia.
Qed.

Lemma totalWeight_snoc hist x w : totalWeight (hist ++ [(x, w)]) = totalWeight hist + w.
Proof. induction hist as [|[x' w'] hist IH]; simpl; lia. Qed.

Lemma trueWeight_bounds hist x :
  Forall (fun kw => 1 <= kw.2) hist -> 0 <= trueWeight hist x <= totalWeight hist.
Proof.
  induction 1 as [|[x' w'] hist Hw _ IH]; simpl in *; [lia|].
  destruct (decide (x' = x)); lia.
Qed.

Lemma validStream_snoc hist x w :
  validStream (hist ++ [(x, w)]) ->
  validStream hist /\ 1 <= w /\ totalWeight hist + w <= GoInt.max_int.
Proof.
  intros [Hf Ht]. rewrite totalWeight_snoc in Ht.
  apply Forall_app in Hf as [Hf Hw]. rewrite Forall_singleton in Hw. simpl in Hw.
  pose proof (trueWeight_bounds hist x Hf).
  unfold validStream. split_and!; try done; lia.
Qed.

Lemma add_small a b :
  0 <= a -> 0 <= b -> a + b <= GoInt.max_int -> GoInt.add a b = a + b.
Proof.
  intros. apply add_exact.
  unfold GoInt.in_range, GoInt.min_int, GoInt.max_int in *. lia.
Qed.

Lemma elem_of_overwrite {A} (l : list A) i v a : a ∈ <[i := v]> l -> a = v \/ a ∈ l.
Proof.
  intros [j Hj]%list_elem_of_lookup.
  apply list_lookup_insert_Some in Hj as [(-> & -> & _)|[_ Hj]]; [by left|].
  right. by eapply list_elem_of_lookup_2.
Qed.

Lemma index_overwrite {A} (l : list A) i j v a :
  0 <= i -> index (<[Z.to_nat i := v]> l) j = Some a ->
  (i = j /\ a = v) \/ (i <> j /\ index l j = Some a).
Proof.
  intros Hi Hj. unfold index in *. destruct (j <? 0) eqn:Hneg; [done|].
  apply Z.ltb_ge in Hneg.
  apply list_lookup_insert_Some in Hj as [(Heq & -> & _)|[Hne Hj]].
  - left. split; [lia|done].
  - right. split; [|done]. intros ->. done.
Qed.

Lemma index_elem_of {A} (l : list A) i a : index l i = Some a -> a ∈ l.
Proof. intros [_ H]%index_Some. by eapply list_elem_of_lookup_2. Qed.

Lemma untracked_iff tk x :
  indexed tk -> m tk !! x = None <-> forall e, e ∈ elts tk -> Key e <> x.
Proof.
  intros Hix. rewrite eq_None_not_Some, (indexed_tracked tk x Hix), list_elem_of_fmap.
  split.
  - intros Hn e He Hk. apply Hn. eauto.
  - intros Hn (e & -> & He). by apply (Hn e).
Qed.

Lemma root_min_Count (l : list Element) m0 e :
  heapOrdered l -> l !! 0%nat = Some m0 -> e ∈ l -> Count m0 <= Count e.
Proof.
  intros Hh H0 He. apply list_elem_of_lookup_total_1 in He as (c & Hc & <-).
  apply list_lookup_total_correct in H0 as <-.
  apply elemLess_false_Count. by apply heapOrdered_root.
Qed.

Section Bounds.
Variable hash : string -> Z.

Lemma bucket_same s s' x :
  length (alphas s') = length (alphas s) -> bucket hash s' x = bucket hash s x.
Proof. unfold bucket. by intros ->. Qed.

Lemma Bounds_New sz s : New sz = Some s -> Bounds hash [] s.
Proof.
  unfold New. destruct (_ || _); [done|]. intros [= <-]. split; cbn [n k alphas elts m].
  - intros e He. by apply elem_of_nil in He.
  - intros a Ha. apply elem_of_replicate in Ha as [-> _]. split; [simpl; lia|].
    intros e He. by apply elem_of_nil in He.
  - intros _ a Ha. by apply elem_of_replicate in Ha as [-> _].
  - intros x a _ Ha. apply index_elem_of, elem_of_replicate in Ha as [-> _]. simpl. lia.
Qed.
End Bounds.

Section BoundsStep.
Variable hash : string -> Z.

Lemma Bounds_tracked hist s x w s' e e0 rest :
  Inv s -> Bounds hash hist s -> Forall (fun kw => 1 <= kw.2) hist ->
  1 <= w -> totalWeight hist + w <= GoInt.max_int ->
  Inv s' -> n s' = n s ->
  Key e0 = x -> elts (k s) ≡ₚ e0 :: rest -> elts (k s') ≡ₚ e :: rest ->
  e = mkElement x (GoInt.add (Count e0) w) (Error e0) ->
  alphas s' = alphas s ->
  Bounds hash (hist ++ [(x, w)]) s' /\ bounded (hist ++ [(x, w)]) e.
Proof.
  intros HI HB Hf Hw Ht HI' Hn Hk P1 P2 He Hal.
  destruct HB as [B1 B2 B3 B4].
  assert (He0 : e0 ∈ elts (k s)) by (rewrite P1; left).
  destruct (B1 e0 He0) as ([Hlo Hhi] & Htot & Herr).
  pose proof (trueWeight_bounds hist x Hf) as Htw.
  rewrite Hk in Hlo, Hhi.
  rewrite add_small in He by lia.
  assert (Hbe : bounded (hist ++ [(x, w)]) e).
  { subst e. unfold bounded. cbn [Key Count Error]. rewrite trueWeight_snoc.
    rewrite decide_True by done. lia. }
  assert (Hnd : NoDup (Key <$> e0 :: rest)).
  { rewrite <- P1. apply indexed_NoDup, HI. }
  rewrite fmap_cons in Hnd. apply NoDup_cons in Hnd as [Hnotin _].
  assert (Hrest : forall a, a ∈ rest -> Key a <> x).
  { intros a Ha Hka. apply Hnotin. rewrite Hk, <- Hka. by apply list_elem_of_fmap_2. }
  split; [|done]. split.
  - intros a Ha. rewrite P2 in Ha. apply elem_of_cons in Ha as [->|Ha].
    + split; [done|]. subst e. cbn [Count Error]. rewrite totalWeight_snoc. lia.
    + destruct (B1 a) as ([Hl Hh] & Ht' & He'); [rewrite P1; by right|].
      unfold bounded. rewrite trueWeight_snoc, totalWeight_snoc.
      rewrite decide_False by (intros Heq; by apply (Hrest a)). lia.
  - intros a Ha. rewrite Hal in Ha. destruct (B2 a Ha) as [Hr Hle].
    rewrite totalWeight_snoc. split; [lia|].
    intros b Hb. rewrite P2 in Hb. apply elem_of_cons in Hb as [->|Hb].
    + subst e. cbn [Count]. specialize (Hle e0 He0). lia.
    + apply Hle. rewrite P1. by right.
  - intros Hlen a Ha. rewrite Hal in Ha. apply B3; [|done].
    rewrite <- Hn, (Permutation_length P1). rewrite (Permutation_length P2) in Hlen.
    exact Hlen.
  - intros y a Hy Ha. rewrite (bucket_same hash s s') in Ha by (by rewrite Hal).
    rewrite Hal in Ha.
    rewrite (untracked_iff _ _ (inv_index _ HI')) in Hy.
    assert (y <> x).
    { intros ->. apply (Hy e); [rewrite P2; left|]. by subst e. }
    rewrite trueWeight_snoc, decide_False by done.
    assert (trueWeight hist y <= a); [|lia].
    apply B4; [|done]. apply (untracked_iff _ _ (inv_index _ HI)).
    intros b Hb. rewrite P1 in Hb. apply elem_of_cons in Hb as [->|Hb]; [congruence|].
    apply Hy. rewrite P2. by right.
Qed.

Lemma Bounds_free hist s x w s' e :
  Inv s -> Bounds hash hist s -> Forall (fun kw => 1 <= kw.2) hist ->
  1 <= w -> totalWeight hist + w <= GoInt.max_int ->
  Inv s' -> n s' = n s ->
  m (k s) !! x = None ->
  Z.of_nat (length (elts (k s))) < n s * bufMultiplier ->
  e = mkElement x w 0 -> elts (k s') ≡ₚ e :: elts (k s) ->
  alphas s' = alphas s ->
  Bounds hash (hist ++ [(x, w)]) s' /\ bounded (hist ++ [(x, w)]) e.
Proof.
  intros HI HB Hf Hw Ht HI' Hn Hm Hfree He P Hal.
  destruct HB as [B1 B2 B3 B4].
  pose proof (trueWeight_bounds hist x Hf) as Htw.
  destruct (index_lt (alphas s) (bucket hash s x)
              (bucket_bound hash s x (Inv_alphas_nonempty s HI))) as (a & Ha & _).
  pose proof (B4 x a Hm Ha) as Hx.
  rewrite (B3 Hfree a (index_elem_of _ _ _ Ha)) in Hx.
  assert (Hbe : bounded (hist ++ [(x, w)]) e).
  { subst e. unfold bounded. cbn [Key Count Error]. rewrite trueWeight_snoc.
    rewrite decide_True by done. lia. }
  rewrite (untracked_iff _ _ (inv_index _ HI)) in Hm.
  split; [|done]. split.
  - intros b Hb. rewrite P in Hb. apply elem_of_cons in Hb as [->|Hb].
    + split; [done|]. subst e. cbn [Count Error]. rewrite totalWeight_snoc. lia.
    + destruct (B1 b Hb) as ([Hl Hh] & Ht' & He').
      unfold bounded. rewrite trueWeight_snoc, totalWeight_snoc.
      rewrite decide_False by (intros Heq; by apply (Hm b)). lia.
  - intros b Hb. rewrite Hal in Hb. rewrite (B3 Hfree b Hb).
    rewrite totalWeight_snoc. split; [lia|].
    intros c Hc. rewrite P in Hc. apply elem_of_cons in Hc as [->|Hc].
    + subst e. cbn [Count]. lia.
    + destruct (B1 c Hc) as ([Hl Hh] & Ht' & He').
      pose proof (trueWeight_bounds hist (Key c) Hf). lia.
  - intros _ b Hb. rewrite Hal in Hb. by apply B3.
  - intros y b Hy Hb. rewrite (bucket_same hash s s') in Hb by (by rewrite Hal).
    rewrite Hal in Hb.
    rewrite (untracked_iff _ _ (inv_index _ HI')) in Hy.
    assert (y <> x).
    { intros ->. apply (Hy e); [rewrite P; left|]. by subst e. }
    rewrite trueWeight_snoc, decide_False by done.
    assert (trueWeight hist y <= b); [|lia].
    apply B4; [|done]. apply (untracked_iff _ _ (inv_index _ HI)).
    intros c Hc. apply Hy. rewrite P. by right.
Qed.

Lemma Bounds_filter hist s x w s' e a m0 :
  Inv s -> Bounds hash hist s -> Forall (fun kw => 1 <= kw.2) hist ->
  1 <= w -> totalWeight hist + w <= GoInt.max_int ->
  Inv s' -> n s' = n s ->
  m (k s) !! x = None ->
  Z.of_nat (length (elts (k s))) = n s * bufMultiplier ->
  index (alphas s) (bucket hash s x) = Some a ->
  elts (k s) !! 0%nat = Some m0 ->
  GoInt.add a w < Count m0 ->
  e = mkElement x (GoInt.add a w) a ->
  k s' = k s ->
  alphas s' = <[Z.to_nat (bucket hash s x) := GoInt.add a w]> (alphas s) ->
  Bounds hash (hist ++ [(x, w)]) s' /\ bounded (hist ++ [(x, w)]) e.
Proof.
  intros HI HB Hf Hw Ht HI' Hn Hm Hfull Ha H0 Hlt He Hk Hal.
  destruct HB as [B1 B2 B3 B4].
  pose proof (trueWeight_bounds hist x Hf) as Htw.
  pose proof (B4 x a Hm Ha) as Hx.
  destruct (B2 a (index_elem_of _ _ _ Ha)) as [Har Hale].
  rewrite add_small in * by lia.
  assert (Hbe : bounded (hist ++ [(x, w)]) e).
  { subst e. unfold bounded. cbn [Key Count Error]. rewrite trueWeight_snoc.
    rewrite decide_True by done. lia. }
  pose proof (bucket_bound hash s x (Inv_alphas_nonempty s HI)) as Hbx.
  rewrite (untracked_iff _ _ (inv_index _ HI)) in Hm.
  split; [|done]. split.
  - intros b Hb. rewrite Hk in Hb.
    destruct (B1 b Hb) as ([Hl Hh] & Ht' & He').
    unfold bounded. rewrite trueWeight_snoc, totalWeight_snoc.
    rewrite decide_False by (intros Heq; by apply (Hm b)). lia.
  - intros b Hb. rewrite Hal in Hb. rewrite Hk, totalWeight_snoc.
    apply elem_of_overwrite in Hb as [->|Hb].
    + split; [lia|]. intros c Hc.
      pose proof (root_min_Count _ m0 c (inv_heap _ HI) H0 Hc). lia.
    + destruct (B2 b Hb) as [Hr Hle]. split; [lia|done].
  - intros Hlen. rewrite Hk, Hn in Hlen. lia.
  - intros y b Hy Hb.
    rewrite (bucket_same hash s s') in Hb by (by rewrite Hal, length_insert).
    rewrite Hal in Hb. rewrite Hk in Hy.
    rewrite trueWeight_snoc.
    apply (index_overwrite _ _ _ _ _ (proj1 Hbx)) in Hb as [[Heq ->]|[Hne Hb]].
    + destruct (decide (x = y)) as [->|Hxy]; [lia|].
      rewrite Heq in Ha. pose proof (B4 y a Hy Ha). lia.
    + destruct (decide (x = y)) as [->|Hxy]; [done|].
      pose proof (B4 y b Hy Hb). lia.
Qed.

Lemma Bounds_evict hist s x w s' e a m0 rest a1 :
  Inv s -> Bounds hash hist s -> Forall (fun kw => 1 <= kw.2) hist ->
  1 <= w -> totalWeight hist + w <= GoInt.max_int ->
  Inv s' -> n s' = n s ->
  m (k s) !! x = None ->
  Z.of_nat (length (elts (k s))) = n s * bufMultiplier ->
  index (alphas s) (bucket hash s x) = Some a ->
  elts (k s) = m0 :: rest ->
  Count m0 <= GoInt.add a w ->
  alphas s' = <[Z.to_nat (bucket hash s (Key m0)) := Count m0]> (alphas s) ->
  index (alphas s') (bucket hash s x) = Some a1 ->
  e = mkElement x (GoInt.add a1 w) a1 ->
  elts (k s') ≡ₚ e :: rest ->
  Bounds hash (hist ++ [(x, w)]) s' /\ bounded (hist ++ [(x, w)]) e.
Proof.
  intros HI HB Hf Hw Ht HI' Hn Hm Hfull Ha Hel Hge Hal Ha1 He P.
  destruct HB as [B1 B2 B3 B4].
  pose proof (trueWeight_bounds hist x Hf) as Htw.
  pose proof (B4 x a Hm Ha) as Hx.
  destruct (B2 a (index_elem_of _ _ _ Ha)) as [Har Hale].
  assert (Hm0in : m0 ∈ elts (k s)) by (rewrite Hel; left).
  assert (H0 : elts (k s) !! 0%nat = Some m0) by (by rewrite Hel).
  destruct (B1 m0 Hm0in) as ([Hl0 Hh0] & Ht0 & He0).
  pose proof (trueWeight_bounds hist (Key m0) Hf) as Htw0.
  pose proof (Hale m0 Hm0in) as Ham0.
  rewrite add_small in Hge by lia.
  pose proof (bucket_bound hash s (Key m0) (Inv_alphas_nonempty s HI)) as Hbm.
  assert (Ha1v : a <= a1 <= Count m0 /\ Count m0 <= a1 + w).
  { rewrite Hal in Ha1. apply (index_overwrite _ _ _ _ _ (proj1 Hbm)) in Ha1 as [[_ ->]|[_ Ha1]]; [lia|].
    rewrite Ha in Ha1. injection Ha1 as <-. lia. }
  rewrite add_small in He by lia.
  assert (Hbe : bounded (hist ++ [(x, w)]) e).
  { subst e. unfold bounded. cbn [Key Count Error]. rewrite trueWeight_snoc.
    rewrite decide_True by done. lia. }
  pose proof Hm as Hm'.
  rewrite (untracked_iff _ _ (inv_index _ HI)) in Hm.
  assert (Hrest : forall b, b ∈ rest -> b ∈ elts (k s)) by (intros b Hb; rewrite Hel; by right).
  assert (Hnd : NoDup (Key <$> m0 :: rest)).
  { rewrite <- Hel. apply indexed_NoDup, HI. }
  rewrite fmap_cons in Hnd. apply NoDup_cons in Hnd as [Hnotin _].
  split; [|done]. split.
  - intros b Hb. rewrite P in Hb. apply elem_of_cons in Hb as [->|Hb].
    + split; [done|]. subst e. cbn [Count Error]. rewrite totalWeight_snoc. lia.
    + destruct (B1 b (Hrest b Hb)) as ([Hl Hh] & Ht' & He').
      unfold bounded. rewrite trueWeight_snoc, totalWeight_snoc.
      rewrite decide_False by (intros Heq; by apply (Hm b (Hrest b Hb))). lia.
  - intros b Hb. rewrite Hal in Hb. rewrite totalWeight_snoc.
    assert (Hb' : 0 <= b <= Count m0).
    { apply elem_of_overwrite in Hb as [->|Hb]; [lia|].
      destruct (B2 b Hb) as [Hr Hle]. specialize (Hle m0 Hm0in). lia. }
    split; [lia|]. intros c Hc. rewrite P in Hc. apply elem_of_cons in Hc as [->|Hc].
    + subst e. cbn [Count]. lia.
    + pose proof (root_min_Count _ m0 c (inv_heap _ HI) H0 (Hrest c Hc)). lia.
  - intros Hlen. rewrite (Permutation_length P), Hn in Hlen.
    rewrite Hel in Hfull. cbn [length] in *. lia.
  - intros y b Hy Hb.
    rewrite (bucket_same hash s s') in Hb by (by rewrite Hal, length_insert).
    rewrite Hal in Hb.
    rewrite (untracked_iff _ _ (inv_index _ HI')) in Hy.
    assert (Hyx : y <> x).
    { intros ->. apply (Hy e); [rewrite P; left|]. by subst e. }
    rewrite trueWeight_snoc, decide_False by done.
    assert (trueWeight hist y <= b); [|lia].
    destruct (decide (y = Key m0)) as [->|Hym0].
    + apply (index_overwrite _ _ _ _ _ (proj1 Hbm)) in Hb as [[_ ->]|[Hne _]]; [lia|done].
    + assert (Hys : m (k s) !! y = None).
      { apply (untracked_iff _ _ (inv_index _ HI)). intros c Hc. rewrite Hel in Hc.
        apply elem_of_cons in Hc as [->|Hc]; [done|]. apply Hy. rewrite P. by right. }
      apply (index_overwrite _ _ _ _ _ (proj1 Hbm)) in Hb as [[Heq ->]|[Hne Hb]]; [|by apply B4].
      destruct (index_lt (alphas s) (bucket hash s y)
                  (bucket_bound hash s y (Inv_alphas_nonempty s HI))) as (ay & Hay & _).
      pose proof (B4 y ay Hys Hay).
      destruct (B2 ay (index_elem_of _ _ _ Hay)) as [_ Hle]. specialize (Hle m0 Hm0in). lia.
Qed.

(** One [Insert] keeps the bounds, and the element it returns is within
    them. *)
Lemma Bounds_Insert hist s x w :
  Inv s -> Bounds hash hist s -> validStream (hist ++ [(x, w)]) ->
  exists s' e, Insert hash s x w = Some (s', e) /\ Inv s' /\ n s' = n s /\
               InsertCase hash s x w s' e /\
               Bounds hash (hist ++ [(x, w)]) s' /\ bounded (hist ++ [(x, w)]) e.
Proof.
  intros HI HB Hv. apply validStream_snoc in Hv as ([Hf _] & Hw & Ht).
  destruct (Insert_spec hash s x w HI) as (s' & e & Hins & HI' & Hn & Hcase).
  assert (Bounds hash (hist ++ [(x, w)]) s' /\ bounded (hist ++ [(x, w)]) e) as [HB' Hbe].
  { destruct Hcase as [e0 rest|
                       |a m0
                       |a m0 rest a1].
    - eapply (Bounds_tracked hist s x w s' e e0 rest); eassumption.
    - eapply (Bounds_free hist s x w s' e); eassumption.
    - eapply (Bounds_filter hist s x w s' e a m0); eassumption.
    - eapply (Bounds_evict hist s x w s' e a m0 rest a1); eassumption. }
  exists s', e. split_and!; done.
Qed.

End BoundsStep.

(** ** The order of [Keys] and [Merge] *)

Lemma ltb_false_leb s1 s2 : String.ltb s2 s1 = false <-> String.leb s1 s2 = true.
Proof.
  unfold String.ltb, String.leb. rewrite (String.compare_antisym s1 s2).
  destruct (String.compare s2 s1); simpl; split; congruence.
Qed.

Lemma countDescOrder_spec a b : countDescOrder a b <-> countDescending a b.
Proof.
  unfold countDescOrder, countDescLess, countDescending, String.le.
  rewrite orb_false_iff, andb_false_iff, Z.ltb_ge, Z.eqb_neq, ltb_false_leb.
  destruct (String.leb (Key a) (Key b)); simpl; intuition (try lia; try congruence).
Qed.

Global Instance countDescOrder_total : Total countDescOrder.
Proof.
  intros a b. rewrite !countDescOrder_spec. unfold countDescending.
  destruct (Z.lt_trichotomy (Count a) (Count b)) as [Hlt|[Heq|Hgt]].
  - right. left. lia.
  - destruct (total String.le (Key a) (Key b)); [left|right]; right; split; congruence.
  - left. left. lia.
Qed.

Global Instance countDescOrder_trans : Transitive countDescOrder.
Proof.
  intros a b c. rewrite !countDescOrder_spec. unfold countDescending.
  intros [H1|[H1 L1]] [H2|[H2 L2]]; try lia.
  right. split; [lia|]. by transitivity (Key b).
Qed.

Lemma countDescOrder_antisym a b :
  countDescOrder a b -> countDescOrder b a -> Count a = Count b /\ Key a = Key b.
Proof.
  rewrite !countDescOrder_spec. unfold countDescending.
  intros [H1|[H1 L1]] [H2|[H2 L2]]; try lia.
  split; [done|]. by apply (anti_symm String.le).
Qed.

(** Two elements of a slice without repeated keys that have the same
    key are the same element. *)
Lemma NoDup_Key_eq (l : list Element) a b :
  NoDup (Key <$> l) -> a ∈ l -> b ∈ l -> Key a = Key b -> a = b.
Proof.
  intros Hnd [i Hi]%list_elem_of_lookup [j Hj]%list_elem_of_lookup Hk.
  assert (i = j) as ->; [|congruence].
  apply (NoDup_lookup (Key <$> l) i j (Key a)); [done|..];
    rewrite list_lookup_fmap; [by rewrite Hi|by rewrite Hj, Hk].
Qed.

Lemma sortByCountDescending_Permutation l : sortByCountDescending l ≡ₚ l.
Proof. apply merge_sort_Permutation. Qed.

Lemma StronglySorted_weaken {A} (R R' : relation A) (l : list A) :
  (forall a b, R a b -> R' a b) -> StronglySorted R l -> StronglySorted R' l.
Proof.
  intros HR. induction 1 as [|a l _ IH Hall]; constructor; [done|].
  eapply Forall_impl; eauto.
Qed.

Lemma sortByCountDescending_sorted l : StronglySorted countDescending (sortByCountDescending l).
Proof.
  eapply StronglySorted_weaken; [|apply (StronglySorted_merge_sort countDescOrder)].
  intros a b. apply countDescOrder_spec.
Qed.

(** On a slice without repeated keys the sorted order is unique: the
    result of [sort.Sort] does not depend on the algorithm, nor on the
    order in which the slice was filled. *)
Lemma sorted_unique l1 l2 :
  NoDup (Key <$> l1) -> l1 ≡ₚ l2 ->
  Sorted countDescOrder l1 -> Sorted countDescOrder l2 -> l1 = l2.
Proof.
  intros Hnd Hp S1 S2. apply (Sorted_unique_strong countDescOrder); try done.
  intros a b Ha Hb Hab Hba. rewrite <- Hp in Hb.
  apply (NoDup_Key_eq l1); try done. by apply countDescOrder_antisym.
Qed.

Lemma sortByCountDescending_unique l l' :
  NoDup (Key <$> l) -> l' ≡ₚ l -> Sorted countDescOrder l' -> l' = sortByCountDescending l.
Proof.
  intros Hnd Hp Hs. apply sorted_unique; try done.
  - by rewrite Hp.
  - by rewrite sortByCountDescending_Permutation.
  - apply (Sorted_merge_sort countDescOrder).
Qed.

Lemma trim_take sz l : 0 <= sz -> trim sz l = Some (take (Z.to_nat sz) l).
Proof.
  intros Hsz. unfold trim. destruct (sz <? Z.of_nat (length l)) eqn:Hlt.
  - destruct (sz <? 0) eqn:Hneg; [apply Z.ltb_lt in Hneg; lia|done].
  - apply Z.ltb_ge in Hlt. by rewrite take_ge by lia.
Qed.

Lemma StronglySorted_take {A} (R : relation A) (l : list A) i :
  StronglySorted R l -> StronglySorted R (take i l).
Proof.
  intros Hs. rewrite <- (take_drop i l) in Hs. by apply StronglySorted_app_1_l in Hs.
Qed.

Lemma elem_of_take_1 {A} (l : list A) i a : a ∈ take i l -> a ∈ l.
Proof. intros (j & Hj & _)%elem_of_take. by eapply list_elem_of_lookup_2. Qed.

(** ** [Merge] *)

Lemma addAlphas_same_length a o :
  length o = length a ->
  exists r, addAlphas a o = Some r /\ length r = length a.
Proof.
  revert a. induction o as [|v o IH]; intros [|x a] Hlen; simpl in *; try done.
  - by exists [].
  - destruct (IH a ltac:(lia)) as (r & -> & Hr). simpl. eexists. split; [done|].
    simpl. by rewrite Hr.
Qed.

(** Pushing elements with fresh, pairwise distinct keys one after the
    other builds an ordered heap with its map in step. *)
Lemma pushes_spec (l : list Element) : forall tk : keys,
  indexed tk -> heapOrdered (elts tk) -> NoDup (Key <$> l) ->
  (forall e, e ∈ l -> m tk !! Key e = None) ->
  heapOrdered (elts (foldl heap.Push tk l)) /\ indexed (foldl heap.Push tk l) /\
  elts (foldl heap.Push tk l) ≡ₚ elts tk ++ l.
Proof.
  induction l as [|e l IH]; intros tk Hix Hh Hnd Hfresh; cbn [foldl].
  - by rewrite app_nil_r.
  - rewrite fmap_cons in Hnd. apply NoDup_cons in Hnd as [Hnotin Hnd].
    destruct (Push_spec tk e) as (G1 & G2 & G3); [apply Hfresh; left|done|done|].
    destruct (IH (heap.Push tk e)) as (R1 & R2 & R3); try done.
    + intros a Ha. apply (untracked_iff _ _ G2). intros b Hb Hk. rewrite G3 in Hb.
      apply elem_of_cons in Hb as [->|Hb].
      * apply Hnotin. rewrite Hk. by apply list_elem_of_fmap_2.
      * pose proof (Hfresh a ltac:(by right)) as Hf.
        by apply (proj1 (untracked_iff _ _ Hix) Hf b).
    + split; [done|]. split; [done|]. rewrite R3, G3.
      cbn [app]. apply Permutation_middle.
Qed.

Section MergeProps.
Variable hash : string -> Z.

Lemma tracked_index s key idx :
  indexed (k s) -> m (k s) !! key = Some idx ->
  exists e, index (elts (k s)) idx = Some e /\ e ∈ elts (k s) /\ Key e = key.
Proof.
  intros Hix Hm. destruct (proj2 Hix key (mk_is_Some _ _ Hm)) as (e & He & Hk).
  pose proof He as Hin. apply list_elem_of_lookup in He as [i Hi].
  pose proof (proj1 Hix i e Hi) as Hmi. rewrite Hk, Hm in Hmi. injection Hmi as ->.
  exists e. by rewrite index_of_nat.
Qed.

(** The entry of [eMap] for a key, under the invariants of both
    operands. *)
Lemma mergeEntry_spec s other key :
  Inv s -> Inv other -> n s = n other ->
  exists b r, index (alphas other) (bucket hash s key) = Some b /\
              mergeEntry hash s other key = Some r /\
    match m (k s) !! key, m (k other) !! key with
    | Some i1, Some i2 => exists e1 e2,
        e1 ∈ elts (k s) /\ Key e1 = key /\ e2 ∈ elts (k other) /\ Key e2 = key /\
        r = Some (mkElement key (GoInt.add (Count e1) (Count e2))
                                (GoInt.add (Error e1) (Error e2)))
    | Some i1, None => exists e1,
        e1 ∈ elts (k s) /\ Key e1 = key /\
        r = Some (mkElement key (GoInt.add (Count e1) b) (GoInt.add (Error e1) b))
    | None, Some i2 => exists e2,
        e2 ∈ elts (k other) /\ Key e2 = key /\
        r = Some (mkElement key (GoInt.add (Count e2) b) (GoInt.add (Error e2) b))
    | None, None => r = None
    end.
Proof.
  intros HI HO Hn.
  assert (Hlen : length (alphas other) = length (alphas s)).
  { pose proof (inv_alphas _ HI). pose proof (inv_alphas _ HO). lia. }
  destruct (index_lt (alphas other) (bucket hash s key)) as (b & Hb & _).
  { rewrite Hlen. apply bucket_bound, Inv_alphas_nonempty, HI. }
  exists b. unfold mergeEntry. rewrite Hb. cbn [mbind option_bind].
  destruct (m (k s) !! key) as [i1|] eqn:H1; destruct (m (k other) !! key) as [i2|] eqn:H2.
  - destruct (tracked_index s key i1 (inv_index _ HI) H1) as (e1 & -> & ? & ?).
    destruct (tracked_index other key i2 (inv_index _ HO) H2) as (e2 & -> & ? & ?).
    cbn [mbind option_bind]. eexists. split; [done|]. split; [reflexivity|]. by exists e1, e2.
  - destruct (tracked_index s key i1 (inv_index _ HI) H1) as (e1 & -> & ? & ?).
    cbn [mbind option_bind]. eexists. split; [done|]. split; [reflexivity|]. by exists e1.
  - destruct (tracked_index other key i2 (inv_index _ HO) H2) as (e2 & -> & ? & ?).
    cbn [mbind option_bind]. eexists. split; [done|]. split; [reflexivity|]. by exists e2.
  - eexists. split; [done|]. split; reflexivity.
Qed.

Lemma mergeMapOver_lookup s other ks em :
  mergeMapOver hash s other ks = Some em ->
  forall key,
    (key ∈ ks -> exists r, mergeEntry hash s other key = Some r /\ em !! key = r) /\
    (key ∉ ks -> em !! key = None).
Proof.
  revert em. induction ks as [|k0 ks IH]; intros em Hm key; cbn [mergeMapOver foldr] in Hm.
  - injection Hm as <-. split; [by intros ?%elem_of_nil|]. intros _. apply lookup_empty.
  - fold (mergeMapOver hash s other ks) in Hm.
    destruct (mergeMapOver hash s other ks) as [em0|]; [|done]. cbn [mbind option_bind] in Hm.
    destruct (mergeEntry hash s other k0) as [r0|] eqn:Hr0; [|done].
    cbn [mbind option_bind] in Hm. injection Hm as <-.
    destruct (IH em0 eq_refl key) as [IH1 IH2].
    destruct (decide (key = k0)) as [->|Hne].
    + split; [|intros Hn; exfalso; apply Hn; left].
      intros _. exists r0. split; [done|].
      destruct r0 as [e|]; [by rewrite lookup_insert_eq|].
      destruct (decide (k0 ∈ ks)) as [Hin|Hnin]; [|by apply IH2].
      destruct (IH1 Hin) as (r & Hr & Hl). congruence.
    + assert (Hl : (match r0 with Some e => <[k0:=e]> em0 | None => em0 end) !! key = em0 !! key).
      { destruct r0; [by rewrite lookup_insert_ne|done]. }
      rewrite Hl. split.
      * intros [?|Hin]%elem_of_cons; [done|]. by apply IH1.
      * intros Hn. apply IH2. intros Hin. apply Hn. by right.
Qed.

Lemma mergeMapOver_total s other ks :
  (forall key, key ∈ ks -> is_Some (mergeEntry hash s other key)) ->
  is_Some (mergeMapOver hash s other ks).
Proof.
  induction ks as [|k0 ks IH]; intros Hall; cbn [mergeMapOver foldr]; [done|].
  fold (mergeMapOver hash s other ks).
  destruct IH as [em0 ->]; [intros key Hk; apply Hall; by right|].
  destruct (Hall k0 ltac:(left)) as [r0 ->]. by cbn [mbind option_bind].
Qed.

Lemma mergeMap_entries s other em :
  Inv s -> Inv other -> n s = n other ->
  mergeMap hash s other = Some em ->
  forall key e, em !! key = Some e ->
    Key e = key /\ key ∈ mergeKeys s other /\ mergeEntry hash s other key = Some (Some e).
Proof.
  intros HI HO Hn Hm key e He.
  destruct (mergeMapOver_lookup s other _ em Hm key) as [L1 L2].
  destruct (decide (key ∈ elements (mergeKeys s other))) as [Hin|Hnin];
    [|rewrite (L2 Hnin) in He; done].
  destruct (L1 Hin) as (r & Hr & Hl). rewrite He in Hl. subst r.
  split; [|split; [by apply elem_of_elements in Hin|done]].
  destruct (mergeEntry_spec s other key HI HO Hn) as (b & r & _ & Hr' & Hcase).
  rewrite Hr in Hr'. injection Hr' as <-.
  destruct (m (k s) !! key), (m (k other) !! key).
  - destruct Hcase as (e1 & e2 & _ & _ & _ & _ & [= ->]). done.
  - destruct Hcase as (e1 & _ & _ & [= ->]). done.
  - destruct Hcase as (e2 & _ & _ & [= ->]). done.
  - done.
Qed.

Lemma mergeMap_NoDup s other em :
  Inv s -> Inv other -> n s = n other ->
  mergeMap hash s other = Some em ->
  NoDup (Key <$> (snd <$> map_to_list em)).
Proof.
  intros HI HO Hn Hm.
  assert (Heq : Key <$> (snd <$> map_to_list em) = fst <$> map_to_list em).
  { rewrite <- list_fmap_compose. apply list_fmap_ext.
    intros i [key e] Hi. cbn. apply list_elem_of_lookup_2, elem_of_map_to_list in Hi.
    by destruct (mergeMap_entries s other em HI HO Hn Hm key e Hi) as [-> _]. }
  rewrite Heq. apply NoDup_fst_map_to_list.
Qed.

(** [Merge] of two sketches of the same size that satisfy the
    invariant returns [nil]; the new monitored set holds the first [n]
    of the combined estimates in sorted order. *)
Lemma Merge_spec s other :
  Inv s -> Inv other -> n s = n other ->
  exists em al s',
    mergeMap hash s other = Some em /\
    addAlphas (alphas s) (alphas other) = Some al /\
    Merge hash s other = MergeOk s' /\ Inv s' /\ n s' = n s /\ alphas s' = al /\
    elts (k s') ≡ₚ take (Z.to_nat (n s)) (sortByCountDescending (snd <$> map_to_list em)).
Proof.
  intros HI HO Hn.
  destruct (mergeMapOver_total s other (elements (mergeKeys s other))) as [em Hem].
  { intros key _. destruct (mergeEntry_spec s other key HI HO Hn) as (b & r & _ & -> & _).
    done. }
  fold (mergeMap hash s other) in Hem.
  destruct (addAlphas_same_length (alphas s) (alphas other)) as (al & Hal & Hlen).
  { pose proof (inv_alphas _ HI). pose proof (inv_alphas _ HO). lia. }
  pose proof (inv_n _ HI) as Hn1.
  set (sorted := sortByCountDescending (snd <$> map_to_list em)).
  assert (Hnd : NoDup (Key <$> take (Z.to_nat (n s)) sorted)).
  { rewrite fmap_take. eapply sublist_NoDup; [|apply sublist_take].
    subst sorted. rewrite sortByCountDescending_Permutation.
    by apply (mergeMap_NoDup s other). }
  assert (Hix0 : indexed (mkKeys ∅ [])).
  { split; cbn [elts m].
    - intros i e Hi. by rewrite lookup_nil in Hi.
    - intros key [z Hz]. by rewrite lookup_empty in Hz. }
  assert (Hh0 : heapOrdered (elts (mkKeys ∅ []))).
  { intros c Hc. cbn [elts length] in Hc. lia. }
  destruct (pushes_spec (take (Z.to_nat (n s)) sorted) (mkKeys ∅ []) Hix0 Hh0 Hnd)
    as (G1 & G2 & G3).
  { intros e _. apply lookup_empty. }
  exists em, al, (mkStream (n s) (foldl heap.Push (mkKeys ∅ []) (take (Z.to_nat (n s)) sorted)) al).
  split; [done|]. split; [done|].
  split.
  { unfold Merge. rewrite Hn, Z.eqb_refl. cbn [negb]. rewrite Hem.
    fold sorted. rewrite trim_take by lia. by rewrite <- Hn, Hal. }
  split; [|done].
  constructor; cbn [n k alphas]; try done.
  - apply HI.
  - rewrite Hlen. apply HI.
  - rewrite (Permutation_length G3). cbn [elts app]. rewrite length_take.
    unfold bufMultiplier. lia.
Qed.

End MergeProps.

(** ** The structural invariants of the monitored set *)

Lemma Inv_monitored s : Inv s -> monitoredSetInvariants (k s).
Proof.
  intros HI. pose proof (inv_index _ HI) as Hix. split_and!.
  - intros c p e Hc He Hp.
    pose proof (inv_heap _ HI c) as Hedge. unfold edgeOk, parent in Hedge.
    pose proof (lookup_lt_Some _ _ _ He) as Hlen.
    rewrite (list_lookup_total_correct _ _ _ He), (list_lookup_total_correct _ _ _ Hp) in Hedge.
    specialize (Hedge ltac:(lia)). unfold elemLess in Hedge.
    apply orb_false_iff in Hedge as [H1 H2]. apply andb_false_iff in H2.
    rewrite Z.ltb_ge in H1. rewrite Z.eqb_neq, Z.ltb_ge in H2. lia.
  - apply Hix.
  - intros key z Hz.
    destruct (tracked_index s key z Hix Hz) as (e & He & _ & Hk).
    apply index_Some in He as [Hz0 He].
    exists (Z.to_nat z), e. split; [lia|done].
  - by apply indexed_NoDup.
Qed.

Section Reachable.
Variable hash : string -> Z.

Lemma reachable_Inv s : reachable hash s -> Inv s.
Proof.
  induction 1 as [sz s H1 H2 Hnew|s x w s' e _ IH Hins|s other s' _ IH1 _ IH2 Hm].
  - destruct (New_Inv sz H1 H2) as (s0 & Hs0 & HI & _). congruence.
  - destruct (Insert_spec hash s x w IH) as (s1 & e1 & Hs1 & HI & _). congruence.
  - destruct (Merge hash s other) as [s1| |] eqn:Hms; try done. injection Hm as ->.
    destruct (decide (n s = n other)) as [Hn|Hn].
    + destruct (Merge_spec hash s other IH1 IH2 Hn) as (em & al & s1 & _ & _ & Hs1 & HI & _).
      congruence.
    + unfold Merge in Hms. apply Z.eqb_neq in Hn. rewrite Hn in Hms. done.
Qed.

Lemma inserts_snoc s hist x w :
  inserts hash s (hist ++ [(x, w)]) = s1 ← inserts hash s hist; fst <$> Insert hash s1 x w.
Proof. unfold inserts. by rewrite foldl_app. Qed.

Lemma inserts_Bounds sz hist :
  1 <= sz -> sz * 36 <= GoInt.max_int -> validStream hist ->
  exists s0 s, New sz = Some s0 /\ inserts hash s0 hist = Some s /\
               Inv s /\ Bounds hash hist s /\ n s = sz.
Proof.
  intros H1 H2. destruct (New_Inv sz H1 H2) as (s0 & Hs0 & HI0 & Hn0 & _).
  induction hist as [|[x w] hist IH] using rev_ind; intros Hv.
  - exists s0, s0. split_and!; try done. by apply (Bounds_New hash sz).
  - pose proof (validStream_snoc _ _ _ Hv) as (Hv' & _ & _).
    destruct (IH Hv') as (s0' & s & Hs0' & Hrun & HI & HB & Hn).
    destruct (Bounds_Insert hash hist s x w HI HB Hv)
      as (s' & e & Hins & HI' & Hn' & _ & HB' & _).
    exists s0', s'. split_and!; try done; [|congruence].
    rewrite inserts_snoc, Hrun. cbn [mbind option_bind]. by rewrite Hins.
Qed.

End Reachable.

(** ** Sketches used as examples *)

Lemma inserts_reachable hash hist : forall s0 s,
  reachable hash s0 -> inserts hash s0 hist = Some s -> reachable hash s.
Proof.
  induction hist as [|[x w] hist IH] using rev_ind; intros s0 s Hr Hs.
  - injection Hs as <-. done.
  - rewrite inserts_snoc in Hs.
    destruct (inserts hash s0 hist) as [s1|] eqn:H1; [|done]. cbn [mbind option_bind] in Hs.
    destruct (Insert hash s1 x w) as [[s2 e]|] eqn:H2; [|done]. injection Hs as <-.
    eapply reach_Insert; [|exact H2]. by eapply IH.
Qed.

Lemma sketchOf_reachable hash sz hist s :
  1 <= sz -> sz * 36 <= GoInt.max_int -> sketchOf hash sz hist = Some s -> reachable hash s.
Proof.
  intros H1 H2 Hs. unfold sketchOf in Hs.
  destruct (New sz) as [s0|] eqn:Hnew; [|done]. cbn [mbind option_bind] in Hs.
  eapply inserts_reachable; [|exact Hs]. by eapply reach_New.
Qed.

(** ** The claims *)

(** C8.  After [New] and after every [Insert] and every successful
    [Merge], the monitored set is a min-heap by [Count] with ties broken
    by [Error] descending, its map is a bijection between the monitored
    keys and their slots, and no key occurs twice.  On such a sketch
    [Insert] always returns, and [Merge] with a sketch of the same size
    returns [nil]. *)
Theorem monitored_set_invariants hash s :
  reachable hash s ->
  monitoredSetInvariants (k s) /\
  (forall x w, exists s' e,
     Insert hash s x w = Some (s', e) /\ monitoredSetInvariants (k s')) /\
  (forall other, reachable hash other -> n s = n other ->
     exists s', Merge hash s other = MergeOk s' /\ monitoredSetInvariants (k s')).
Proof.
  intros Hr. pose proof (reachable_Inv hash s Hr) as HI. split_and!.
  - by apply Inv_monitored.
  - intros x w. destruct (Insert_spec hash s x w HI) as (s' & e & Hins & HI' & _).
    exists s', e. split; [done|]. by apply Inv_monitored.
  - intros other Ho Hn. pose proof (reachable_Inv hash other Ho) as HO.
    destruct (Merge_spec hash s other HI HO Hn) as (em & al & s' & _ & _ & Hm & HI' & _).
    exists s'. split; [done|]. by apply Inv_monitored.
Qed.

Lemma monitored_set_invariants_witness :
  exists s, sketchOf lengthHash 1 [("a", 5); ("b", 3); ("a", 2)] = Some s /\
            monitoredSetInvariants (k s).
Proof.
  eexists. split; [reflexivity|].
  apply (monitored_set_invariants lengthHash).
  apply (sketchOf_reachable lengthHash 1 [("a", 5); ("b", 3); ("a", 2)]).
  - lia.
  - unfold GoInt.max_int. lia.
  - reflexivity.
Defined.

Lemma InsertCase_Key hash s x w s' e : InsertCase hash s x w s' e -> Key e = x.
Proof. intros []; by subst e. Qed.

Lemma Estimate_tracked hash s y :
  Inv s -> is_Some (m (k s) !! y) ->
  exists e, Estimate hash s y = Some e /\ e ∈ elts (k s) /\ Key e = y.
Proof.
  intros HI [idx Hidx]. unfold Estimate. rewrite Hidx.
  by apply tracked_index; [apply HI|].
Qed.

Lemma Keys_take s :
  0 <= n s ->
  Keys s = Some (take (Z.to_nat (n s)) (sortByCountDescending (elts (k s))), s).
Proof. intros Hn. unfold Keys. by rewrite trim_take. Qed.

(** C1.  On a sketch built by [New sz] with [sz >= 1], after any run of
    [Insert] calls with weights of at least one whose sum is an [int],
    the element returned by the last [Insert], the element [Estimate]
    returns for a monitored key and every element of [Keys] have a
    [Count] of at least the weight inserted for their key, and a
    [Count - Error] of at most that weight. *)
Theorem insert_error_bounds hash sz hist x w :
  1 <= sz -> sz * 36 <= GoInt.max_int -> validStream (hist ++ [(x, w)]) ->
  exists s s' e ks,
    sketchOf hash sz hist = Some s /\ Insert hash s x w = Some (s', e) /\
    Keys s' = Some (ks, s') /\
    (Key e = x /\ bounded (hist ++ [(x, w)]) e) /\
    (forall y, is_Some (m (k s') !! y) ->
       exists e', Estimate hash s' y = Some e' /\ Key e' = y /\
                  bounded (hist ++ [(x, w)]) e') /\
    (forall e', e' ∈ ks ->
       is_Some (m (k s') !! Key e') /\ bounded (hist ++ [(x, w)]) e').
Proof.
  intros H1 H2 Hv. pose proof (validStream_snoc _ _ _ Hv) as (Hv' & _ & _).
  destruct (inserts_Bounds hash sz hist H1 H2 Hv') as (s0 & s & Hs0 & Hrun & HI & HB & Hn).
  destruct (Bounds_Insert hash hist s x w HI HB Hv)
    as (s' & e & Hins & HI' & Hn' & Hcase & HB' & Hbe).
  pose proof (inv_n _ HI') as Hn1.
  exists s, s', e, (take (Z.to_nat (n s')) (sortByCountDescending (elts (k s')))).
  split_and!.
  - unfold sketchOf. by rewrite Hs0.
  - done.
  - apply Keys_take. lia.
  - by apply (InsertCase_Key hash s x w s' e).
  - done.
  - intros y Hy. destruct (Estimate_tracked hash s' y HI' Hy) as (e' & He' & Hin & Hk).
    exists e'. split_and!; try done. by apply (b_elts hash _ _ HB').
  - intros e' He'. apply elem_of_take_1 in He'.
    rewrite sortByCountDescending_Permutation in He'. split.
    + apply (indexed_tracked _ _ (inv_index _ HI')). by apply list_elem_of_fmap_2.
    + by apply (b_elts hash _ _ HB').
Qed.

Lemma insert_error_bounds_witness :
  exists s s' e ks,
    sketchOf lengthHash 1 [("a", 5); ("b", 3)] = Some s /\
    Insert lengthHash s "a" 2 = Some (s', e) /\
    Keys s' = Some (ks, s') /\
    (Key e = "a" /\ bounded ([("a", 5); ("b", 3)] ++ [("a", 2)]) e) /\
    (forall y, is_Some (m (k s') !! y) ->
       exists e', Estimate lengthHash s' y = Some e' /\ Key e' = y /\
                  bounded ([("a", 5); ("b", 3)] ++ [("a", 2)]) e') /\
    (forall e', e' ∈ ks ->
       is_Some (m (k s') !! Key e') /\ bounded ([("a", 5); ("b", 3)] ++ [("a", 2)]) e').
Proof.
  apply (insert_error_bounds lengthHash 1 [("a", 5); ("b", 3)] "a" 2).
  - lia.
  - unfold GoInt.max_int. lia.
  - split.
    + repeat constructor; simpl; lia.
    + unfold GoInt.max_int. simpl. lia.
Defined.

(** C10.  Once the monitored set holds [sz * 6] elements, an [Insert]
    with a weight of at least one leaves it full and does not decrease
    the [Count] of its root, which is its minimum [Count]: for a
    monitored key the element's [Count] grows by the weight; otherwise
    either the monitored set is untouched, or the root is replaced by an
    element whose [Count] is at least that of the evicted root. *)
Theorem full_minimum_monotone hash sz hist x w :
  1 <= sz -> sz * 36 <= GoInt.max_int -> validStream (hist ++ [(x, w)]) ->
  exists s s' e,
    sketchOf hash sz hist = Some s /\ Insert hash s x w = Some (s', e) /\
    (Z.of_nat (length (elts (k s))) = sz * bufMultiplier ->
     Z.of_nat (length (elts (k s'))) = sz * bufMultiplier /\
     exists m0 m1,
       elts (k s) !! 0%nat = Some m0 /\ elts (k s') !! 0%nat = Some m1 /\
       (forall b, b ∈ elts (k s) -> Count m0 <= Count b) /\
       (forall b, b ∈ elts (k s') -> Count m1 <= Count b) /\
       Count m0 <= Count m1 /\
       match m (k s) !! x with
       | Some _ => exists e0 rest,
           Key e0 = x /\ elts (k s) ≡ₚ e0 :: rest /\ elts (k s') ≡ₚ e :: rest /\
           Count e = Count e0 + w
       | None =>
           (k s' = k s /\ Count e < Count m0) \/
           (exists rest, elts (k s) = m0 :: rest /\ elts (k s') ≡ₚ e :: rest /\
                         Count m0 <= Count e)
       end).
Proof.
  intros H1 H2 Hv. pose proof (validStream_snoc _ _ _ Hv) as ([Hf _] & Hw & Ht).
  destruct (inserts_Bounds hash sz hist H1 H2 (proj1 (validStream_snoc _ _ _ Hv)))
    as (s0 & s & Hs0 & Hrun & HI & HB & Hn).
  destruct (Bounds_Insert hash hist s x w HI HB Hv)
    as (s' & e & Hins & HI' & Hn' & Hcase & HB' & Hbe).
  exists s, s', e. split; [unfold sketchOf; by rewrite Hs0|]. split; [done|].
  intros Hfull. rewrite <- Hn in *.
  destruct (elts (k s) !! 0%nat) as [m0|] eqn:H0;
    [|apply lookup_ge_None in H0; unfold bufMultiplier in Hfull; lia].
  pose proof (fun b => root_min_Count (elts (k s)) m0 b (inv_heap _ HI) H0) as Hmin.
  assert (Hpath :
    Z.of_nat (length (elts (k s'))) = n s * bufMultiplier /\
    (forall b, b ∈ elts (k s') -> Count m0 <= Count b) /\
    match m (k s) !! x with
    | Some _ => exists e0 rest,
        Key e0 = x /\ elts (k s) ≡ₚ e0 :: rest /\ elts (k s') ≡ₚ e :: rest /\
        Count e = Count e0 + w
    | None =>
        (k s' = k s /\ Count e < Count m0) \/
        (exists rest, elts (k s) = m0 :: rest /\ elts (k s') ≡ₚ e :: rest /\
                      Count m0 <= Count e)
    end).
  { destruct Hcase as [e0 rest Hk P1 P2 He Hal
                      |Hm Hfree
                      |a m0' Hm _ Ha H0' Hlt He Hk Hal
                      |a m0' rest a1 Hm _ Ha Hel Hge Hal Ha1 He P].
    - assert (He0 : e0 ∈ elts (k s)) by (rewrite P1; left).
      destruct (b_elts hash _ _ HB e0 He0) as ([Hlo _] & Htot & _).
      pose proof (trueWeight_bounds hist (Key e0) Hf).
      rewrite add_small in He by lia.
      assert (Hce : Count e = Count e0 + w) by (by subst e).
      split_and!.
      + rewrite <- Hfull, (Permutation_length P1), (Permutation_length P2). done.
      + intros b Hb. rewrite P2 in Hb. apply elem_of_cons in Hb as [->|Hb].
        * specialize (Hmin e0 He0). lia.
        * apply Hmin. rewrite P1. by right.
      + destruct (m (k s) !! x) eqn:Hm.
        * by exists e0, rest.
        * by destruct (proj1 (untracked_iff _ _ (inv_index _ HI)) Hm e0 He0).
    - lia.
    - rewrite H0 in H0'. injection H0' as <-. rewrite Hm, Hk. split_and!; try done.
      left. split; [done|]. by subst e.
    - rewrite Hel in H0. injection H0 as ->.
      assert (Hin : Count m0 ∈ alphas s').
      { rewrite Hal. apply list_elem_of_insert.
        pose proof (bucket_bound hash s (Key m0) (Inv_alphas_nonempty s HI)). lia. }
      destruct (b_alphas hash _ _ HB' _ Hin) as [_ Hle].
      rewrite Hm. split_and!.
      + rewrite (Permutation_length P). rewrite Hel in Hfull. done.
      + intros b Hb. by apply Hle.
      + right. exists rest. split_and!; try done. apply Hle. rewrite P. left. }
  destruct Hpath as (Hlen' & Hmin' & Hmatch).
  split; [exact Hlen'|].
  destruct (elts (k s') !! 0%nat) as [m1|] eqn:H0';
    [|apply lookup_ge_None in H0'; unfold bufMultiplier in Hlen'; lia].
  exists m0, m1. split_and!; try done.
  - intros b. by apply (root_min_Count (elts (k s')) m1 b (inv_heap _ HI')).
  - apply Hmin'. by eapply list_elem_of_lookup_2.
Qed.

Lemma full_minimum_monotone_witness :
  exists s s' e,
    sketchOf lengthHash 1 [("a", 1); ("b", 2); ("c", 2); ("d", 2); ("e", 2); ("f", 2)] = Some s /\
    Insert lengthHash s "g" 5 = Some (s', e) /\
    (Z.of_nat (length (elts (k s))) = 1 * bufMultiplier ->
     Z.of_nat (length (elts (k s'))) = 1 * bufMultiplier /\
     exists m0 m1,
       elts (k s) !! 0%nat = Some m0 /\ elts (k s') !! 0%nat = Some m1 /\
       (forall b, b ∈ elts (k s) -> Count m0 <= Count b) /\
       (forall b, b ∈ elts (k s') -> Count m1 <= Count b) /\
       Count m0 <= Count m1 /\
       match m (k s) !! "g" with
       | Some _ => exists e0 rest,
           Key e0 = "g" /\ elts (k s) ≡ₚ e0 :: rest /\ elts (k s') ≡ₚ e :: rest /\
           Count e = Count e0 + 5
       | None =>
           (k s' = k s /\ Count e < Count m0) \/
           (exists rest, elts (k s) = m0 :: rest /\ elts (k s') ≡ₚ e :: rest /\
                         Count m0 <= Count e)
       end).
Proof.
  apply (full_minimum_monotone lengthHash 1
           [("a", 1); ("b", 2); ("c", 2); ("d", 2); ("e", 2); ("f", 2)] "g" 5).
  - lia.
  - unfold GoInt.max_int. lia.
  - split.
    + repeat constructor; simpl; lia.
    + unfold GoInt.max_int. simpl. lia.
Defined.

(** C6.  [Keys] returns the elements of the monitored set sorted by
    [Count] descending with ties broken by [Key] ascending, cut to the
    first [n] of them, and leaves the sketch as it was. *)
Theorem Keys_sorted_truncated s :
  0 <= n s ->
  exists sorted ks,
    Keys s = Some (ks, s) /\
    sorted ≡ₚ elts (k s) /\ StronglySorted countDescending sorted /\
    ks = take (Z.to_nat (n s)) sorted /\
    Z.of_nat (length ks) <= n s /\ StronglySorted countDescending ks.
Proof.
  intros Hn.
  exists (sortByCountDescending (elts (k s))),
         (take (Z.to_nat (n s)) (sortByCountDescending (elts (k s)))).
  split_and!.
  - by apply Keys_take.
  - apply sortByCountDescending_Permutation.
  - apply sortByCountDescending_sorted.
  - done.
  - rewrite length_take. lia.
  - apply StronglySorted_take, sortByCountDescending_sorted.
Qed.

Lemma Keys_sorted_truncated_witness :
  exists sorted ks,
    Keys (mkStream 2 (mkKeys ∅ [mkElement "b" 3 0; mkElement "c" 7 1; mkElement "a" 3 0]) [])
      = Some (ks, mkStream 2 (mkKeys ∅ [mkElement "b" 3 0; mkElement "c" 7 1; mkElement "a" 3 0]) []) /\
    sorted ≡ₚ [mkElement "b" 3 0; mkElement "c" 7 1; mkElement "a" 3 0] /\
    StronglySorted countDescending sorted /\
    ks = take (Z.to_nat 2) sorted /\
    Z.of_nat (length ks) <= 2 /\ StronglySorted countDescending ks.
Proof.
  apply (Keys_sorted_truncated
           (mkStream 2 (mkKeys ∅ [mkElement "b" 3 0; mkElement "c" 7 1; mkElement "a" 3 0]) [])).
  simpl. lia.
Defined.

(** The order of the result on the example above. *)
Example Keys_example :
  fst <$> Keys (mkStream 2 (mkKeys ∅ [mkElement "b" 3 0; mkElement "c" 7 1; mkElement "a" 3 0]) [])
  = Some [mkElement "c" 7 1; mkElement "a" 3 0].
Proof. reflexivity. Qed.

(** On a monitored set without repeated keys the result of [Keys] is
    the only sorted arrangement of its elements, cut to [n]. *)
Lemma Keys_unique s l :
  0 <= n s -> NoDup (Key <$> elts (k s)) ->
  l ≡ₚ elts (k s) -> Sorted countDescOrder l ->
  Keys s = Some (take (Z.to_nat (n s)) l, s).
Proof.
  intros Hn Hnd Hp Hs. rewrite (Keys_take s Hn).
  by rewrite (sortByCountDescending_unique (elts (k s)) l).
Qed.

(** C9.  [reduce x len] is the high 32 bits of the 64-bit product of
    the low 32 bits of [x] with [len]; for [len >= 1] it is an index
    below [len], so the filter reads and writes of [Insert], [Estimate]
    and [Merge] are in range on a filter that is not empty. *)
Theorem reduce_in_range hash x len s other key :
  1 <= len <= GoInt.max_int ->
  alphas s <> [] -> length (alphas other) = length (alphas s) ->
  reduce x len = ((x mod 2 ^ 32 * len) mod 2 ^ 64) / 2 ^ 32 /\
  (len < 2 ^ 32 -> reduce x len = (x mod 2 ^ 32 * len) / 2 ^ 32) /\
  0 <= reduce x len < len /\
  bucket hash s key = reduce (hash key) (Z.of_nat (length (alphas s))) /\
  is_Some (index (alphas s) (bucket hash s key)) /\
  is_Some (index (alphas other) (bucket hash s key)) /\
  (Z.to_nat (bucket hash s key) < length (alphas s))%nat.
Proof.
  intros Hlen Hne Hother.
  assert (Hmod : len mod 2 ^ 64 = len).
  { apply Z.mod_small. unfold GoInt.max_int in Hlen. lia. }
  pose proof (bucket_bound hash s key Hne) as Hb.
  pose proof (reduce_bound x len ltac:(lia)) as Hr.
  split_and!.
  - by rewrite reduce_high_bits, Hmod.
  - intros Hsmall. rewrite reduce_high_bits, Hmod.
    assert (0 <= x mod 2 ^ 32 < 2 ^ 32) by (apply Z.mod_pos_bound; lia).
    rewrite Z.mod_small by nia. done.
  - lia.
  - lia.
  - reflexivity.
  - destruct (index_lt (alphas s) _ Hb) as (a & -> & _). done.
  - rewrite <- Hother in Hb. destruct (index_lt (alphas other) _ Hb) as (a & -> & _). done.
  - lia.
Qed.

Lemma reduce_in_range_witness :
  let s := mkStream 1 (mkKeys ∅ []) [0; 0; 0] in
  let other := mkStream 1 (mkKeys ∅ []) [1; 2; 3] in
  reduce (2 ^ 40 + 2 ^ 31) 36 = (((2 ^ 40 + 2 ^ 31) mod 2 ^ 32 * 36) mod 2 ^ 64) / 2 ^ 32 /\
  (36 < 2 ^ 32 -> reduce (2 ^ 40 + 2 ^ 31) 36 = ((2 ^ 40 + 2 ^ 31) mod 2 ^ 32 * 36) / 2 ^ 32) /\
  0 <= reduce (2 ^ 40 + 2 ^ 31) 36 < 36 /\
  bucket lengthHash s "a" = reduce (lengthHash "a") (Z.of_nat (length (alphas s))) /\
  is_Some (index (alphas s) (bucket lengthHash s "a")) /\
  is_Some (index (alphas other) (bucket lengthHash s "a")) /\
  (Z.to_nat (bucket lengthHash s "a") < length (alphas s))%nat.
Proof.
  apply (reduce_in_range lengthHash (2 ^ 40 + 2 ^ 31) 36
           (mkStream 1 (mkKeys ∅ []) [0; 0; 0]) (mkStream 1 (mkKeys ∅ []) [1; 2; 3]) "a").
  - unfold GoInt.max_int. lia.
  - simpl. discriminate.
  - reflexivity.
Defined.

(** The value of [reduce] on the example above: half of [36]. *)
Example reduce_example : reduce (2 ^ 40 + 2 ^ 31) 36 = 18.
Proof. reflexivity. Qed.

(** ** Encoding and decoding *)

Lemma write_entries order : forall w,
  foldl (fun w kv => WriteInt (WriteString w kv.1) kv.2) w order = w ++ entryTokens order.
Proof.
  induction order as [|kv order IH]; intros w; cbn [foldl].
  - by rewrite app_nil_r.
  - rewrite IH. unfold WriteInt, WriteString, entryTokens. cbn [mbind list_bind].
    by rewrite <- !app_assoc.
Qed.

Lemma write_elements l : forall w,
  foldl (fun w e => WriteInt (WriteInt (WriteString w (Key e)) (Count e)) (Error e)) w l
  = w ++ elementTokens l.
Proof.
  induction l as [|e l IH]; intros w; cbn [foldl].
  - by rewrite app_nil_r.
  - rewrite IH. unfold WriteInt, WriteString, elementTokens. cbn [mbind list_bind].
    by rewrite <- !app_assoc.
Qed.

Lemma write_ints l : forall w, foldl WriteInt w l = w ++ (TInt <$> l).
Proof.
  induction l as [|a l IH]; intros w; cbn [foldl].
  - by rewrite app_nil_r.
  - rewrite IH. unfold WriteInt. rewrite fmap_cons. by rewrite <- app_assoc.
Qed.

Lemma read_entries order : forall mp rest,
  readEntries (length order) mp (entryTokens order ++ rest)
  = Some (foldl (fun mp kv => <[kv.1 := kv.2]> mp) mp order, rest).
Proof.
  induction order as [|[key v] order IH]; intros mp rest; [done|].
  cbn [length readEntries]. unfold entryTokens. cbn [mbind list_bind app ReadString ReadInt option_bind].
  apply IH.
Qed.

Lemma read_elements l : forall rest,
  readElements (length l) (elementTokens l ++ rest) = Some (l, rest).
Proof.
  induction l as [|[key c e] l IH]; intros rest; [done|].
  cbn [length readElements]. unfold elementTokens.
  cbn [mbind list_bind app ReadString ReadInt option_bind Key Count Error].
  fold (elementTokens l). rewrite IH. done.
Qed.

Lemma read_ints l : forall rest, readInts (length l) ((TInt <$> l) ++ rest) = Some (l, rest).
Proof.
  induction l as [|a l IH]; intros rest; [done|].
  cbn [length readInts fmap list_fmap app ReadInt mbind option_bind].
  change (list_fmap Z token TInt l) with (TInt <$> l). by rewrite IH.
Qed.

Lemma foldl_insert_rev (order : list (string * Z)) : forall mp : gmap string Z,
  foldl (fun mp kv => <[kv.1 := kv.2]> mp) mp order
  = foldr (fun kv acc => <[kv.1 := kv.2]> acc) mp (rev order).
Proof.
  induction order as [|kv order IH]; intros mp; [done|].
  cbn [foldl rev]. by rewrite IH, foldr_app.
Qed.

(** Reading the entries back in any order of iteration rebuilds the map. *)
Lemma entries_rebuild (mp : gmap string Z) order :
  order ≡ₚ map_to_list mp ->
  foldl (fun mp kv => <[kv.1 := kv.2]> mp) ∅ order = mp.
Proof.
  intros Hp. rewrite foldl_insert_rev.
  change (foldr (fun kv acc => <[kv.1 := kv.2]> acc) ∅ (rev order))
    with (list_to_map (M := gmap string Z) (rev order)).
  transitivity (list_to_map (M := gmap string Z) (map_to_list mp));
    [|apply list_to_map_to_list].
  apply list_to_map_proper.
  - rewrite <- Permutation_rev, Hp. apply NoDup_fst_map_to_list.
  - by rewrite <- Permutation_rev.
Qed.

Lemma uint32_length (len : nat) :
  Z.of_nat len < 2 ^ 32 -> Z.to_nat (GoInt.to_uint32 (Z.of_nat len)) = len.
Proof.
  intros Hlt. unfold GoInt.to_uint32. rewrite Z.mod_small by lia. apply Nat2Z.id.
Qed.

Lemma keys_roundtrip tk order w rest :
  order ≡ₚ map_to_list (m tk) ->
  Z.of_nat (size (m tk)) < 2 ^ 32 -> Z.of_nat (length (elts tk)) < 2 ^ 32 ->
  exists front, keys_EncodeMsgp order tk w = w ++ front /\
                keys_DecodeMsp (front ++ rest) = Some (tk, rest).
Proof.
  intros Hp Hsz Hlen.
  exists ([TMapHeader (GoInt.to_uint32 (Z.of_nat (size (m tk))))] ++ entryTokens order ++
          [TArrayHeader (GoInt.to_uint32 (Z.of_nat (length (elts tk))))] ++
          elementTokens (elts tk)).
  split.
  - unfold keys_EncodeMsgp, WriteMapHeader, WriteArrayHeader.
    rewrite write_elements, write_entries. by rewrite <- !app_assoc.
  - unfold keys_DecodeMsp. cbn [app ReadMapHeader mbind option_bind].
    rewrite uint32_length by done.
    assert (Hso : size (m tk) = length order).
    { by rewrite <- length_map_to_list, (Permutation_length Hp). }
    rewrite Hso, <- app_assoc, read_entries. cbn [mbind option_bind app ReadArrayHeader].
    rewrite uint32_length by done. rewrite read_elements. cbn [mbind option_bind].
    rewrite (entries_rebuild (m tk) order Hp). by destruct tk.
Qed.

Lemma Stream_roundtrip s order rest :
  order ≡ₚ map_to_list (m (k s)) ->
  Z.of_nat (length (alphas s)) < 2 ^ 32 ->
  Z.of_nat (size (m (k s))) < 2 ^ 32 -> Z.of_nat (length (elts (k s))) < 2 ^ 32 ->
  Stream_DecodeMsgp (Stream_EncodeMsgp order s [] ++ rest) = Some (s, rest).
Proof.
  intros Hp Hal Hsz Hlen. unfold Stream_EncodeMsgp.
  rewrite write_ints. unfold WriteInt, WriteArrayHeader.
  match goal with
  | |- context [keys_EncodeMsgp order (k s) ?w] =>
      destruct (keys_roundtrip (k s) order w rest Hp Hsz Hlen) as (front & -> & Hdec)
  end.
  unfold Stream_DecodeMsgp. rewrite <- !app_assoc.
  cbn [app ReadInt ReadArrayHeader mbind option_bind].
  rewrite uint32_length by done. rewrite read_ints. cbn [mbind option_bind].
  rewrite Hdec. cbn [mbind option_bind]. by destruct s.
Qed.

(** C7.  Decoding what [Encode] wrote gives back the sketch: the same
    [n], the same filter, the same elements in the same slots and the
    same key-to-slot map, whatever the order in which the map was
    iterated; so [Keys] and [Estimate] answer the same.  The three
    lengths are written as [uint32] headers and must fit. *)
Theorem Decode_Encode s order :
  order ≡ₚ map_to_list (m (k s)) ->
  Z.of_nat (length (alphas s)) < 2 ^ 32 ->
  Z.of_nat (size (m (k s))) < 2 ^ 32 -> Z.of_nat (length (elts (k s))) < 2 ^ 32 ->
  exists s',
    Decode (Encode order s) = Some s' /\
    n s' = n s /\ alphas s' = alphas s /\
    elts (k s') = elts (k s) /\ m (k s') = m (k s) /\
    s' = s /\
    (fst <$> Keys s') = (fst <$> Keys s) /\
    (forall hash x, Estimate hash s' x = Estimate hash s x).
Proof.
  intros Hp Hal Hsz Hlen. exists s.
  split; [|by split_and!].
  unfold Decode, Encode.
  pose proof (Stream_roundtrip s order [] Hp Hal Hsz Hlen) as Hr.
  rewrite app_nil_r in Hr. by rewrite Hr.
Qed.

Lemma Decode_Encode_witness :
  let s := mkStream 1 (mkKeys (<["b" := 1]> (<["a" := 0]> ∅))
                              [mkElement "a" 5 0; mkElement "b" 7 2]) [0; 3] in
  exists s',
    Decode (Encode [("b", 1); ("a", 0)] s) = Some s' /\
    n s' = n s /\ alphas s' = alphas s /\
    elts (k s') = elts (k s) /\ m (k s') = m (k s) /\
    s' = s /\
    (fst <$> Keys s') = (fst <$> Keys s) /\
    (forall hash x, Estimate hash s' x = Estimate hash s x).
Proof.
  apply (Decode_Encode
           (mkStream 1 (mkKeys (<["b" := 1]> (<["a" := 0]> ∅))
                               [mkElement "a" 5 0; mkElement "b" 7 2]) [0; 3])
           [("b", 1); ("a", 0)]).
  - cbn [k m]. rewrite map_to_list_insert by (vm_compute; reflexivity).
    rewrite map_to_list_insert by reflexivity. by rewrite map_to_list_empty.
  - vm_compute. reflexivity.
  - vm_compute. reflexivity.
  - vm_compute. reflexivity.
Defined.

(** The tokens of the example above. *)
Example Encode_example :
  Encode [("b", 1); ("a", 0)]
    (mkStream 1 (mkKeys (<["b" := 1]> (<["a" := 0]> ∅))
                        [mkElement "a" 5 0; mkElement "b" 7 2]) [0; 3])
  = [TInt 1; TArrayHeader 2; TInt 0; TInt 3;
     TMapHeader 2; TString "b"; TInt 1; TString "a"; TInt 0;
     TArrayHeader 2; TString "a"; TInt 5; TInt 0; TString "b"; TInt 7; TInt 2].
Proof. vm_compute. reflexivity. Qed.

(** ** The total-weight counter *)

Lemma wrap_add_l a b : GoInt.wrap (GoInt.wrap a + b) = GoInt.wrap (a + b).
Proof.
  unfold GoInt.wrap. f_equal.
  replace ((a + 2 ^ 63) mod 2 ^ 64 - 2 ^ 63 + b + 2 ^ 63)
    with ((a + 2 ^ 63) mod 2 ^ 64 + b) by lia.
  rewrite Zplus_mod_idemp_l. f_equal. lia.
Qed.

Section CounterProps.
Variable hash : string -> Z.

Lemma TopK_Clear_Inv t : Inv (stream t) -> Inv (stream (TopK_Clear t)).
Proof.
  intros HI. constructor; cbn [TopK_Clear stream n k alphas elts m].
  - apply HI.
  - apply HI.
  - rewrite length_replicate. apply HI.
  - pose proof (inv_n _ HI). unfold bufMultiplier. simpl. lia.
  - intros c Hc. simpl in Hc. lia.
  - split; cbn [elts m].
    + intros i e Hi. by rewrite lookup_nil in Hi.
    + intros key [z Hz]. by rewrite lookup_empty in Hz.
Qed.

Lemma TopK_Insert_spec t x w :
  Inv (stream t) ->
  exists t' e, TopK_Insert hash t x w = Some (t', e) /\ Inv (stream t') /\
               TopK_Count t' = GoInt.add (TopK_Count t) w.
Proof.
  intros HI. destruct (Insert_spec hash (stream t) x w HI) as (s' & e & Hins & HI' & _).
  unfold TopK_Insert. rewrite Hins. cbn [mbind option_bind].
  eexists _, _. split; [done|]. by split.
Qed.

Lemma applyOps_counter sz ops :
  1 <= sz -> sz * 36 <= GoInt.max_int ->
  exists t0 t, TopK_New sz = Some t0 /\ applyOps hash t0 ops = Some t /\ Inv (stream t) /\
               TopK_Count t = GoInt.wrap (weightSinceClear ops).
Proof.
  intros H1 H2. destruct (New_Inv sz H1 H2) as (s0 & Hs0 & HI0 & _).
  exists (mkTopK s0 0).
  induction ops as [|o ops IH] using rev_ind.
  - exists (mkTopK s0 0). unfold TopK_New. rewrite Hs0. by split_and!.
  - destruct IH as (t & Ht0 & Hrun & HI & Hc).
    unfold applyOps, weightSinceClear in *. rewrite !foldl_app. cbn [foldl].
    rewrite Hrun. cbn [mbind option_bind].
    destruct o as [x w|]; cbn [applyOp].
    + destruct (TopK_Insert_spec t x w HI) as (t' & e & -> & HI' & Hc').
      exists t'. split_and!; try done.
      rewrite Hc', Hc. unfold GoInt.add. apply wrap_add_l.
    + exists (TopK_Clear t). split_and!; try done. by apply TopK_Clear_Inv.
Qed.

End CounterProps.

(** C5.  The sketch keeps a total-weight counter: every [Insert] adds
    its weight to it, whichever branch it takes, and [Count] returns the
    sum of the weights inserted since [New] or the last [Clear], as an
    [int]. *)
Theorem Count_is_total_weight hash sz ops :
  1 <= sz -> sz * 36 <= GoInt.max_int ->
  exists t0 t,
    TopK_New sz = Some t0 /\ applyOps hash t0 ops = Some t /\
    TopK_Count t = GoInt.wrap (weightSinceClear ops) /\
    (GoInt.in_range (weightSinceClear ops) -> TopK_Count t = weightSinceClear ops) /\
    (forall x w, exists t' e,
       TopK_Insert hash t x w = Some (t', e) /\
       TopK_Count t' = GoInt.add (TopK_Count t) w).
Proof.
  intros H1 H2.
  destruct (applyOps_counter hash sz ops H1 H2) as (t0 & t & Ht0 & Hrun & HI & Hc).
  exists t0, t. split_and!; try done.
  - intros Hr. by rewrite Hc, wrap_in_range.
  - intros x w. destruct (TopK_Insert_spec hash t x w HI) as (t' & e & Hins & _ & Hc').
    by exists t', e.
Qed.

Lemma Count_is_total_weight_witness :
  exists t0 t,
    TopK_New 10 = Some t0 /\
    applyOps lengthHash t0 [OpInsert "a" 5; OpInsert "b" 3; OpInsert "c" 7; OpInsert "d" 2]
      = Some t /\
    TopK_Count t
      = GoInt.wrap (weightSinceClear [OpInsert "a" 5; OpInsert "b" 3; OpInsert "c" 7; OpInsert "d" 2]) /\
    (GoInt.in_range (weightSinceClear [OpInsert "a" 5; OpInsert "b" 3; OpInsert "c" 7; OpInsert "d" 2]) ->
     TopK_Count t = weightSinceClear [OpInsert "a" 5; OpInsert "b" 3; OpInsert "c" 7; OpInsert "d" 2]) /\
    (forall x w, exists t' e,
       TopK_Insert lengthHash t x w = Some (t', e) /\
       TopK_Count t' = GoInt.add (TopK_Count t) w).
Proof.
  apply (Count_is_total_weight lengthHash 10
           [OpInsert "a" 5; OpInsert "b" 3; OpInsert "c" 7; OpInsert "d" 2]).
  - lia.
  - unfold GoInt.max_int. lia.
Defined.

(** The scenario of the spec: weights 5, 3, 7 and 2 give a count of 17. *)
Example Count_example :
  (t0 ← TopK_New 10;
   t ← applyOps lengthHash t0 [OpInsert "a" 5; OpInsert "b" 3; OpInsert "c" 7; OpInsert "d" 2];
   Some (TopK_Count t)) = Some 17.
Proof. vm_compute. reflexivity. Qed.

(** ** [Merge]: which filter is read, and how many elements are kept *)

(** For a key monitored in one operand only, [Merge] adds the bucket of
    [other]'s filter, whichever operand monitors the key. *)
Lemma Merge_one_sided hash s other em key :
  Inv s -> Inv other -> n s = n other ->
  mergeMap hash s other = Some em ->
  exists b, index (alphas other) (bucket hash s key) = Some b /\
    (forall e1, m (k s) !! key = None -> e1 ∈ elts (k other) -> Key e1 = key ->
       em !! key = Some (mkElement key (GoInt.add (Count e1) b) (GoInt.add (Error e1) b))) /\
    (forall e1, m (k other) !! key = None -> e1 ∈ elts (k s) -> Key e1 = key ->
       em !! key = Some (mkElement key (GoInt.add (Count e1) b) (GoInt.add (Error e1) b))).
Proof.
  intros HI HO Hn Hm.
  destruct (mergeEntry_spec hash s other key HI HO Hn) as (b & r & Hb & Hr & Hcase).
  exists b. split; [done|].
  destruct (mergeMapOver_lookup hash s other _ em Hm key) as [L1 _].
  assert (Hin : forall e1 (t : Stream), (t = s \/ t = other) -> e1 ∈ elts (k t) -> Key e1 = key ->
            key ∈ elements (mergeKeys s other)).
  { intros e1 t Ht He Hk. apply elem_of_elements. unfold mergeKeys.
    rewrite elem_of_union, !elem_of_list_to_set, <- Hk.
    destruct Ht as [-> | ->]; [left|right]; by apply list_elem_of_fmap_2. }
  split.
  - intros e1 Hs He Hk. destruct (L1 (Hin e1 other (or_intror eq_refl) He Hk)) as (r' & Hr' & ->).
    rewrite Hr in Hr'. injection Hr' as <-. rewrite Hs in Hcase.
    destruct (m (k other) !! key) eqn:Ho.
    + destruct Hcase as (e2 & He2 & Hk2 & ->).
      by rewrite (NoDup_Key_eq (elts (k other)) e1 e2 (indexed_NoDup _ (inv_index _ HO)) He He2)
        by congruence.
    + by destruct (proj1 (untracked_iff _ _ (inv_index _ HO)) Ho e1 He).
  - intros e1 Ho He Hk. destruct (L1 (Hin e1 s (or_introl eq_refl) He Hk)) as (r' & Hr' & ->).
    rewrite Hr in Hr'. injection Hr' as <-. rewrite Ho in Hcase.
    destruct (m (k s) !! key) eqn:Hs.
    + destruct Hcase as (e2 & He2 & Hk2 & ->).
      by rewrite (NoDup_Key_eq (elts (k s)) e1 e2 (indexed_NoDup _ (inv_index _ HI)) He He2)
        by congruence.
    + by destruct (proj1 (untracked_iff _ _ (inv_index _ HI)) Hs e1 He).
Qed.

(** C2, on the code.  The receiver has seen ["g"] once while full, so
    its filter bucket for ["g"] holds [1]; [other] monitors ["g"] with
    count [5] and has an empty filter.  [Merge] gives ["g"] the count
    [5] and the error [0]: it reads the filter of [other], where the
    key is monitored, and not the filter of the receiver. *)
Theorem Merge_reads_other_filter_only :
  exists s other em,
    sketchOf lengthHash 1
      [("a", 10); ("b", 10); ("c", 10); ("d", 10); ("e", 10); ("f", 10); ("g", 1)] = Some s /\
    sketchOf lengthHash 1 [("g", 5)] = Some other /\
    m (k s) !! "g" = None /\
    (exists i, m (k other) !! "g" = Some i /\ index (elts (k other)) i = Some (mkElement "g" 5 0)) /\
    index (alphas s) (bucket lengthHash s "g") = Some 1 /\
    index (alphas other) (bucket lengthHash s "g") = Some 0 /\
    mergeMap lengthHash s other = Some em /\
    em !! "g" = Some (mkElement "g" 5 0).
Proof.
  eexists _, _, _. split_and!.
  - reflexivity.
  - reflexivity.
  - vm_compute. reflexivity.
  - exists 0. split; vm_compute; reflexivity.
  - vm_compute. reflexivity.
  - vm_compute. reflexivity.
  - reflexivity.
  - vm_compute. reflexivity.
Qed.

Lemma mergeMap_dom hash s other em :
  Inv s -> Inv other -> n s = n other ->
  mergeMap hash s other = Some em -> dom em = mergeKeys s other.
Proof.
  intros HI HO Hn Hm. apply set_eq. intros key. rewrite elem_of_dom. split.
  - intros [e He]. by destruct (mergeMap_entries hash s other em HI HO Hn Hm key e He) as (_ & ? & _).
  - intros Hin. pose proof Hin as Hin'. apply elem_of_elements in Hin'.
    destruct (mergeMapOver_lookup hash s other _ em Hm key) as [L1 _].
    destruct (L1 Hin') as (r & Hr & ->).
    destruct (mergeEntry_spec hash s other key HI HO Hn) as (b & r' & _ & Hr' & Hcase).
    rewrite Hr in Hr'. injection Hr' as <-.
    unfold mergeKeys in Hin. rewrite elem_of_union, !elem_of_list_to_set in Hin.
    rewrite <- !(indexed_tracked _ _ (inv_index _ HI)) in Hin.
    rewrite <- !(indexed_tracked _ _ (inv_index _ HO)) in Hin.
    destruct (m (k s) !! key), (m (k other) !! key).
    + destruct Hcase as (? & ? & _ & _ & _ & _ & ->). done.
    + destruct Hcase as (? & _ & _ & ->). done.
    + destruct Hcase as (? & _ & _ & ->). done.
    + destruct Hin as [[? ?]|[? ?]]; done.
Qed.

(** C4, as amended.  [Merge] of two sketches of the same size sorts the
    combined estimates by [Count] descending with ties broken by [Key]
    ascending and cuts the list to [n], the target size: the rebuilt
    monitored set holds the first [n] of them, or all of them when the
    union of the monitored keys has no more than [n] entries. *)
Theorem Merge_trims_to_target_size hash s other :
  reachable hash s -> reachable hash other -> n s = n other ->
  exists em s',
    mergeMap hash s other = Some em /\ dom em = mergeKeys s other /\
    Merge hash s other = MergeOk s' /\
    sortByCountDescending (snd <$> map_to_list em) ≡ₚ (snd <$> map_to_list em) /\
    StronglySorted countDescending (sortByCountDescending (snd <$> map_to_list em)) /\
    elts (k s') ≡ₚ take (Z.to_nat (n s)) (sortByCountDescending (snd <$> map_to_list em)) /\
    length (elts (k s')) = Nat.min (Z.to_nat (n s)) (size (mergeKeys s other)).
Proof.
  intros Hs Ho Hn.
  pose proof (reachable_Inv hash s Hs) as HI. pose proof (reachable_Inv hash other Ho) as HO.
  destruct (Merge_spec hash s other HI HO Hn) as (em & al & s' & Hm & _ & Hmerge & _ & _ & _ & Hp).
  pose proof (mergeMap_dom hash s other em HI HO Hn Hm) as Hdom.
  exists em, s'. split_and!; try done.
  - apply sortByCountDescending_Permutation.
  - apply sortByCountDescending_sorted.
  - rewrite (Permutation_length Hp), length_take.
    rewrite (Permutation_length (sortByCountDescending_Permutation _)).
    by rewrite length_fmap, length_map_to_list, <- Hdom, size_dom.
Qed.

Lemma Merge_trims_to_target_size_witness :
  exists s other em s',
    sketchOf lengthHash 1 [("a", 5)] = Some s /\
    sketchOf lengthHash 1 [("b", 3)] = Some other /\
    mergeMap lengthHash s other = Some em /\ dom em = mergeKeys s other /\
    Merge lengthHash s other = MergeOk s' /\
    sortByCountDescending (snd <$> map_to_list em) ≡ₚ (snd <$> map_to_list em) /\
    StronglySorted countDescending (sortByCountDescending (snd <$> map_to_list em)) /\
    elts (k s') ≡ₚ take (Z.to_nat (n s)) (sortByCountDescending (snd <$> map_to_list em)) /\
    length (elts (k s')) = Nat.min (Z.to_nat (n s)) (size (mergeKeys s other)).
Proof.
  eexists _, _. 
  assert (Hs : reachable lengthHash _ /\ reachable lengthHash _) by
    (split; [apply (sketchOf_reachable lengthHash 1 [("a", 5)])
            |apply (sketchOf_reachable lengthHash 1 [("b", 3)])];
     first [reflexivity | lia | (unfold GoInt.max_int; lia)]).
  destruct (Merge_trims_to_target_size lengthHash _ _ (proj1 Hs) (proj2 Hs) eq_refl)
    as (em & s' & H).
  exists em, s'. split; [reflexivity|]. split; [reflexivity|]. exact H.
Defined.

(** Two sketches of size [1], one holding ["a"] and one holding ["b"]:
    the union has two keys, within the capacity of six, and the merged
    sketch keeps ["a"] alone. *)
Example Merge_two_keys :
  exists s other,
    sketchOf lengthHash 1 [("a", 5)] = Some s /\
    sketchOf lengthHash 1 [("b", 3)] = Some other /\
    size (mergeKeys s other) = 2%nat /\
    (exists s', Merge lengthHash s other = MergeOk s' /\ elts (k s') = [mkElement "a" 5 0]).
Proof.
  eexists _, _. split_and!; [reflexivity|reflexivity|vm_compute; reflexivity|].
  eexists. split; vm_compute; reflexivity.
Qed.

Lemma Merge_trims_counterexample : ~ mergeKeepsWholeBuffer lengthHash.
Proof.
  intros Hclaim.
  destruct Merge_two_keys as (s & other & Hs & Ho & Hsize & s' & Hm & Helts).
  specialize (Hclaim s other s').
  rewrite Hsize, Helts in Hclaim. cbn [length] in Hclaim.
  assert (Hn : n s = 1) by (vm_compute in Hs; by injection Hs as <-).
  rewrite Hn in Hclaim. unfold bufMultiplier in Hclaim.
  discriminate Hclaim.
  - apply (sketchOf_reachable lengthHash 1 [("a", 5)]); [lia|unfold GoInt.max_int; lia|done].
  - apply (sketchOf_reachable lengthHash 1 [("b", 3)]); [lia|unfold GoInt.max_int; lia|done].
  - done.
  - lia.
Qed.

(** ** The eviction path of [Insert] *)

(** C3, as amended.  When the monitored set is full, the key is not
    monitored and the filter estimate plus the weight reaches the count
    of the root, [Insert] banks the root's [Count] in the root key's
    bucket, drops the root's key from the map, and installs and returns
    an element for the key whose [Error] is the key's bucket as read
    after the banking: the value read at the start of the call when the
    two buckets differ, the banked [Count] when they are the same
    bucket.  Its [Count] is that value plus the weight. *)
Theorem eviction_reads_bucket_after_banking hash s x w filterEst minElement :
  reachable hash s ->
  m (k s) !! x = None ->
  Z.of_nat (length (elts (k s))) = n s * bufMultiplier ->
  index (alphas s) (bucket hash s x) = Some filterEst ->
  elts (k s) !! 0%nat = Some minElement ->
  Count minElement <= GoInt.add filterEst w ->
  exists s' e,
    Insert hash s x w = Some (s', e) /\
    alphas s' = <[Z.to_nat (bucket hash s (Key minElement)) := Count minElement]> (alphas s) /\
    index (alphas s') (bucket hash s (Key minElement)) = Some (Count minElement) /\
    m (k s') !! Key minElement = None /\
    (exists i, m (k s') !! x = Some i /\ index (elts (k s')) i = Some e) /\
    (exists rest, elts (k s) = minElement :: rest /\ elts (k s') ≡ₚ e :: rest) /\
    e = mkElement x
          (GoInt.add (if decide (bucket hash s x = bucket hash s (Key minElement))
                      then Count minElement else filterEst) w)
          (if decide (bucket hash s x = bucket hash s (Key minElement))
           then Count minElement else filterEst).
Proof.
  intros Hr Hm Hfull Ha H0 Hge. pose proof (reachable_Inv hash s Hr) as HI.
  destruct (Insert_spec hash s x w HI) as (s' & e & Hins & HI' & Hn & Hcase).
  exists s', e. split; [done|].
  destruct Hcase as [e0 rest Hk P1 P2 He Hal
                    |_ Hfree
                    |a m0 _ _ Ha' H0' Hlt
                    |a m0 rest a1 _ _ Ha' Hel _ Hal Ha1 He P].
  - exfalso. apply (proj1 (untracked_iff _ _ (inv_index _ HI)) Hm e0); [|done].
    rewrite P1. left.
  - lia.
  - rewrite Ha in Ha'. injection Ha' as <-. rewrite H0 in H0'. injection H0' as <-. lia.
  - rewrite Ha in Ha'. injection Ha' as <-. rewrite Hel in H0. injection H0 as ->.
    pose proof (bucket_bound hash s (Key minElement) (Inv_alphas_nonempty s HI)) as Hbm.
    pose proof (bucket_bound hash s x (Inv_alphas_nonempty s HI)) as Hbx.
    assert (Hke : Key e = x) by (by subst e).
    assert (Hein : e ∈ elts (k s')) by (rewrite P; left).
    assert (Hnd : NoDup (Key <$> minElement :: rest)).
    { rewrite <- Hel. apply indexed_NoDup, HI. }
    rewrite fmap_cons in Hnd. apply NoDup_cons in Hnd as [Hnotin _].
    assert (Hxm : x <> Key minElement).
    { intros ->. apply (proj1 (untracked_iff _ _ (inv_index _ HI)) Hm minElement); [|done].
      rewrite Hel. left. }
    split_and!.
    + done.
    + rewrite Hal. unfold index.
      destruct (bucket hash s (Key minElement) <? 0) eqn:Hneg; [apply Z.ltb_lt in Hneg; lia|].
      apply list_lookup_insert_eq. lia.
    + apply (untracked_iff _ _ (inv_index _ HI')). intros b Hb Hkb. rewrite P in Hb.
      apply elem_of_cons in Hb as [->|Hb]; [congruence|].
      apply Hnotin. rewrite <- Hkb. by apply list_elem_of_fmap_2.
    + assert (Hsome : is_Some (m (k s') !! x)).
      { apply (indexed_tracked _ _ (inv_index _ HI')). rewrite <- Hke.
        by apply list_elem_of_fmap_2. }
      destruct Hsome as [i Hi]. exists i. split; [done|].
      destruct (tracked_index s' x i (inv_index _ HI') Hi) as (e' & He' & Hin' & Hk').
      rewrite He'. f_equal.
      apply (NoDup_Key_eq (elts (k s'))); [by apply indexed_NoDup, HI'|done|done|congruence].
    + by exists rest.
    + rewrite Hal in Ha1.
      apply (index_overwrite _ _ _ _ _ (proj1 Hbm)) in Ha1 as [[Heq ->]|[Hne Ha1]].
      * by rewrite decide_True.
      * rewrite decide_False by done. rewrite Ha in Ha1. by injection Ha1 as <-.
Qed.

Lemma eviction_reads_bucket_after_banking_witness :
  exists s s' e,
    sketchOf lengthHash 1 [("a", 1); ("b", 2); ("c", 2); ("d", 2); ("e", 2); ("f", 2)] = Some s /\
    Insert lengthHash s "g" 5 = Some (s', e) /\
    alphas s' = <[Z.to_nat (bucket lengthHash s (Key (mkElement "a" 1 0))) :=
                  Count (mkElement "a" 1 0)]> (alphas s) /\
    index (alphas s') (bucket lengthHash s (Key (mkElement "a" 1 0)))
      = Some (Count (mkElement "a" 1 0)) /\
    m (k s') !! Key (mkElement "a" 1 0) = None /\
    (exists i, m (k s') !! "g" = Some i /\ index (elts (k s')) i = Some e) /\
    (exists rest, elts (k s) = mkElement "a" 1 0 :: rest /\ elts (k s') ≡ₚ e :: rest) /\
    e = mkElement "g"
          (GoInt.add (if decide (bucket lengthHash s "g"
                                 = bucket lengthHash s (Key (mkElement "a" 1 0)))
                      then Count (mkElement "a" 1 0) else 0) 5)
          (if decide (bucket lengthHash s "g" = bucket lengthHash s (Key (mkElement "a" 1 0)))
           then Count (mkElement "a" 1 0) else 0).
Proof.
  eexists. 
  assert (Hs : sketchOf lengthHash 1
                 [("a", 1); ("b", 2); ("c", 2); ("d", 2); ("e", 2); ("f", 2)] = Some _)
    by reflexivity.
  destruct (eviction_reads_bucket_after_banking lengthHash _ "g" 5 0 (mkElement "a" 1 0)
              (sketchOf_reachable lengthHash 1 _ _ ltac:(lia)
                 ltac:(unfold GoInt.max_int; lia) Hs))
    as (s' & e & H).
  - vm_compute. reflexivity.
  - vm_compute. reflexivity.
  - vm_compute. reflexivity.
  - vm_compute. reflexivity.
  - vm_compute. discriminate.
  - exists s', e. split; [exact Hs|]. exact H.
Defined.

(** A full sketch of size [1] whose root ["a"] has count [1], and a new
    key ["g"] of weight [5] in the same bucket: the filter is empty when
    the call starts, and the element returned has count [6] and error
    [1], not count [5] and error [0]. *)
Example eviction_same_bucket :
  exists s,
    sketchOf lengthHash 1 [("a", 1); ("b", 2); ("c", 2); ("d", 2); ("e", 2); ("f", 2)] = Some s /\
    m (k s) !! "g" = None /\
    length (elts (k s)) = 6%nat /\ n s = 1 /\
    bucket lengthHash s "g" = bucket lengthHash s "a" /\
    index (alphas s) (bucket lengthHash s "g") = Some 0 /\
    elts (k s) !! 0%nat = Some (mkElement "a" 1 0) /\
    (exists s', Insert lengthHash s "g" 5 = Some (s', mkElement "g" 6 1)).
Proof.
  eexists. split_and!; [reflexivity|vm_compute; reflexivity..|].
  eexists. vm_compute. reflexivity.
Qed.

Lemma eviction_estimate_counterexample : ~ evictionKeepsFirstEstimate lengthHash.
Proof.
  intros Hclaim.
  destruct eviction_same_bucket as (s & Hs & Hm & Hlen & Hn & _ & Ha & H0 & s' & Hins).
  destruct (Hclaim s "g" 5 s' (mkElement "g" 6 1) 0 (mkElement "a" 1 0)) as (_ & _ & He);
    try done.
  - apply (sketchOf_reachable lengthHash 1
             [("a", 1); ("b", 2); ("c", 2); ("d", 2); ("e", 2); ("f", 2)]);
      [lia|unfold GoInt.max_int; lia|done].
  - rewrite Hlen, Hn. reflexivity.
Qed.

(** ** Runs that do not depend on the digest *)

(** While the monitored set has room, [Insert] of a key that is not
    monitored appends an exact element and leaves the filter alone. *)
Lemma Insert_free hash s x w :
  Inv s -> m (k s) !! x = None ->
  Z.of_nat (length (elts (k s))) < n s * bufMultiplier ->
  exists s', Insert hash s x w = Some (s', mkElement x w 0) /\ Inv s' /\ n s' = n s /\
             alphas s' = alphas s /\ elts (k s') ≡ₚ mkElement x w 0 :: elts (k s).
Proof.
  intros HI Hm Hfree.
  destruct (Insert_spec hash s x w HI) as (s' & e & Hins & HI' & Hn & Hcase).
  destruct Hcase as [e0 rest Hk P1 P2 He Hal
                    |_ _ He P Hal
                    |a m0 _ Hfull
                    |a m0 rest a1 _ Hfull].
  - exfalso. apply (proj1 (untracked_iff _ _ (inv_index _ HI)) Hm e0); [|done].
    rewrite P1. left.
  - subst e. by exists s'.
  - lia.
  - lia.
Qed.

Lemma sketchOf_snoc hash sz hist x w :
  sketchOf hash sz (hist ++ [(x, w)])
  = s ← sketchOf hash sz hist; fst <$> Insert hash s x w.
Proof.
  unfold sketchOf. destruct (New sz) as [s0|]; [|done]. cbn [mbind option_bind].
  apply inserts_snoc.
Qed.

(** A run of distinct keys that fits in the monitored set: every key is
    monitored with its weight and no error, and the filter is zero. *)
Lemma sketchOf_fresh hash sz hist :
  1 <= sz -> sz * 36 <= GoInt.max_int ->
  NoDup (hist.*1) -> Z.of_nat (length hist) <= sz * bufMultiplier ->
  exists s, sketchOf hash sz hist = Some s /\ Inv s /\ n s = sz /\
            alphas s = replicate (Z.to_nat (sz * 36)) 0 /\
            elts (k s) ≡ₚ (fun kw => mkElement kw.1 kw.2 0) <$> hist.
Proof.
  intros H1 H2. induction hist as [|[x w] hist IH] using rev_ind; intros Hnd Hlen.
  - destruct (New_Inv sz H1 H2) as (s0 & Hs0 & HI0 & Hn0 & Hel0 & Hal0).
    exists s0. unfold sketchOf. rewrite Hs0. split_and!; try done. by rewrite Hel0.
  - rewrite fmap_app in Hnd. apply NoDup_app in Hnd as (Hnd & Hnotin & _).
    rewrite length_app in Hlen. cbn [length] in Hlen.
    destruct (IH Hnd ltac:(lia)) as (s & Hs & HI & Hn & Hal & Hel).
    destruct (Insert_free hash s x w HI) as (s' & Hins & HI' & Hn' & Hal' & Hel').
    + apply (untracked_iff _ _ (inv_index _ HI)). intros e He Hk. rewrite Hel in He.
      apply list_elem_of_fmap in He as ([x' w'] & -> & Hin). cbn in Hk. subst x'.
      apply (Hnotin x); [|by left]. by apply (list_elem_of_fmap_2 fst) in Hin.
    + rewrite (Permutation_length Hel), length_fmap, Hn. lia.
    + exists s'. rewrite sketchOf_snoc, Hs. cbn [mbind option_bind]. rewrite Hins.
      split_and!; try done; try congruence.
      rewrite Hel', Hel, fmap_app. cbn [fmap list_fmap]. cbn.
      by rewrite Permutation_app_comm.
Qed.

(** A filter that is all zero reads zero at every index in range. *)
Lemma index_replicate len (i a : Z) : index (replicate len 0) i = Some a -> a = 0.
Proof. intros Ha. by apply index_elem_of, elem_of_replicate in Ha as [-> _]. Qed.

Lemma index_replicate_bucket hash s x len :
  alphas s = replicate len 0 -> alphas s <> [] ->
  index (alphas s) (bucket hash s x) = Some 0.
Proof.
  intros Hal Hne. destruct (index_lt (alphas s) _ (bucket_bound hash s x Hne)) as (a & Ha & _).
  rewrite Ha. f_equal. rewrite Hal in Ha. by apply index_replicate in Ha.
Qed.

(** The number of elements [Merge] keeps. *)
Lemma Merge_length hash s other :
  Inv s -> Inv other -> n s = n other ->
  exists s', Merge hash s other = MergeOk s' /\
    length (elts (k s')) = Nat.min (Z.to_nat (n s)) (size (mergeKeys s other)).
Proof.
  intros HI HO Hn.
  destruct (Merge_spec hash s other HI HO Hn) as (em & al & s' & Hm & _ & Hmerge & _ & _ & _ & Hp).
  exists s'. split; [done|].
  rewrite (Permutation_length Hp), length_take.
  rewrite (Permutation_length (sortByCountDescending_Permutation _)).
  by rewrite length_fmap, length_map_to_list, <- (mergeMap_dom hash s other em HI HO Hn Hm), size_dom.
Qed.

(** The element [Insert] installs when it evicts the root. *)
Lemma Insert_evicts hash s x w a m0 :
  Inv s -> m (k s) !! x = None ->
  Z.of_nat (length (elts (k s))) = n s * bufMultiplier ->
  index (alphas s) (bucket hash s x) = Some a ->
  elts (k s) !! 0%nat = Some m0 ->
  Count m0 <= GoInt.add a w ->
  exists s' e,
    Insert hash s x w = Some (s', e) /\
    e = mkElement x
          (GoInt.add (if decide (bucket hash s x = bucket hash s (Key m0))
                      then Count m0 else a) w)
          (if decide (bucket hash s x = bucket hash s (Key m0)) then Count m0 else a).
Proof.
  intros HI Hm Hfull Ha H0 Hge.
  destruct (Insert_spec hash s x w HI) as (s' & e & Hins & HI' & Hn & Hcase).
  exists s', e. split; [done|].
  destruct Hcase as [e0 rest Hk P1 P2 He Hal
                    |_ Hfree
                    |a' m1 _ _ Ha' H0' Hlt
                    |a' m1 rest a1 _ _ Ha' Hel _ Hal Ha1 He P].
  - exfalso. apply (proj1 (untracked_iff _ _ (inv_index _ HI)) Hm e0); [|done].
    rewrite P1. left.
  - lia.
  - rewrite Ha in Ha'. injection Ha' as <-. rewrite H0 in H0'. injection H0' as <-. lia.
  - rewrite Ha in Ha'. injection Ha' as <-. rewrite Hel in H0. injection H0 as ->.
    pose proof (bucket_bound hash s (Key m0) (Inv_alphas_nonempty s HI)) as Hbm.
    rewrite Hal in Ha1.
    apply (index_overwrite _ _ _ _ _ (proj1 Hbm)) in Ha1 as [[Heq ->]|[Hne Ha1]].
    + by rewrite decide_True.
    + rewrite decide_False by done. rewrite Ha in Ha1. by injection Ha1 as <-.
Qed.

(** C4 fails in the same way whatever the digest is. *)
Lemma Merge_trims_any_hash : ~ exists hash, mergeKeepsWholeBuffer hash.
Proof.
  intros [hash Hclaim].
  assert (H1 : 1 <= 1) by lia.
  assert (H2 : 1 * 36 <= GoInt.max_int) by (unfold GoInt.max_int; lia).
  destruct (sketchOf_fresh hash 1 [("a", 5)] H1 H2) as (s & Hs & HI & Hn & _ & Hel).
  { repeat constructor. by intros ?%elem_of_nil. }
  { cbn. unfold bufMultiplier. lia. }
  destruct (sketchOf_fresh hash 1 [("b", 3)] H1 H2) as (o & Ho & HO & Hno & _ & Helo).
  { repeat constructor. by intros ?%elem_of_nil. }
  { cbn. unfold bufMultiplier. lia. }
  cbn in Hel, Helo. apply Permutation_singleton_r in Hel, Helo.
  pose proof (sketchOf_reachable hash 1 _ s H1 H2 Hs) as Hrs.
  pose proof (sketchOf_reachable hash 1 _ o H1 H2 Ho) as Hro.
  destruct (Merge_length hash s o HI HO ltac:(congruence)) as (s' & Hm & Hlen).
  assert (Hsize : size (mergeKeys s o) = 2%nat).
  { unfold mergeKeys. rewrite Hel, Helo. reflexivity. }
  specialize (Hclaim s o s' Hrs Hro Hm). rewrite Hsize, Hn in Hclaim, Hlen.
  rewrite Hclaim in Hlen; [discriminate Hlen|]. unfold bufMultiplier. lia.
Qed.

(** C2 fails in the same way whatever the digest is: the receiver's
    bucket for ["g"] holds [1], and the merged estimate for ["g"] is the
    count [5] with error [0] of [other]. *)
Lemma Merge_reads_other_filter_any_hash hash :
  exists s other em,
    sketchOf hash 1
      [("a", 10); ("b", 10); ("c", 10); ("d", 10); ("e", 10); ("f", 10); ("g", 1)] = Some s /\
    sketchOf hash 1 [("g", 5)] = Some other /\
    m (k s) !! "g" = None /\
    mkElement "g" 5 0 ∈ elts (k other) /\
    index (alphas s) (bucket hash s "g") = Some 1 /\
    index (alphas other) (bucket hash s "g") = Some 0 /\
    mergeMap hash s other = Some em /\
    em !! "g" = Some (mkElement "g" 5 0).
Proof.
  assert (H1 : 1 <= 1) by lia.
  assert (H2 : 1 * 36 <= GoInt.max_int) by (unfold GoInt.max_int; lia).
  destruct (sketchOf_fresh hash 1
              [("a", 10); ("b", 10); ("c", 10); ("d", 10); ("e", 10); ("f", 10)] H1 H2)
    as (s6 & Hs6 & HI6 & Hn6 & Hal6 & Hel6).
  { apply (bool_decide_unpack _). vm_compute. exact I. }
  { cbn. unfold bufMultiplier. lia. }
  cbn [fmap list_fmap fst snd] in Hel6.
  assert (Hg6 : m (k s6) !! "g" = None).
  { apply (untracked_iff _ _ (inv_index _ HI6)). intros e He. rewrite Hel6 in He.
    repeat (apply elem_of_cons in He as [->|He]; [discriminate|]).
    apply elem_of_nil in He. destruct He. }
  assert (Hc6 : forall e, e ∈ elts (k s6) -> Count e = 10).
  { intros e He. rewrite Hel6 in He.
    repeat (apply elem_of_cons in He as [->|He]; [reflexivity|]).
    apply elem_of_nil in He. destruct He. }
  pose proof (Inv_alphas_nonempty s6 HI6) as Hne6.
  pose proof (index_replicate_bucket hash s6 "g" _ Hal6 Hne6) as Hb6.
  destruct (Insert_spec hash s6 "g" 1 HI6) as (s & e & Hins & HI & Hn & Hcase).
  assert (Hs : alphas s = <[Z.to_nat (bucket hash s6 "g") := 1]> (alphas s6) /\ k s = k s6).
  { destruct Hcase as [e0 rest Hk P1 P2 He Hal
                      |_ Hfree
                      |a m0 _ _ Ha _ _ _ Hk Hal
                      |a m0 rest a1 _ _ Ha Hel Hge].
    - exfalso. apply (proj1 (untracked_iff _ _ (inv_index _ HI6)) Hg6 e0); [|done].
      rewrite P1. left.
    - rewrite (Permutation_length Hel6), Hn6 in Hfree. cbn in Hfree.
      unfold bufMultiplier in Hfree. lia.
    - rewrite Hb6 in Ha. injection Ha as <-. split; [exact Hal|exact Hk].
    - rewrite Hb6 in Ha. injection Ha as <-.
      rewrite (Hc6 m0) in Hge by (rewrite Hel; left). vm_compute in Hge.
      destruct (Hge eq_refl). }
  destruct Hs as [Hal Hk].
  destruct (sketchOf_fresh hash 1 [("g", 5)] H1 H2) as (o & Ho & HO & Hno & Halo & Helo).
  { repeat constructor. by intros ?%elem_of_nil. }
  { cbn. unfold bufMultiplier. lia. }
  cbn in Helo. apply Permutation_singleton_r in Helo.
  assert (Hlen : length (alphas s) = length (alphas s6)) by (by rewrite Hal, length_insert).
  pose proof (bucket_bound hash s6 "g" Hne6) as Hbg.
  destruct (Merge_spec hash s o HI HO ltac:(congruence)) as (em & al & s' & Hm & _).
  destruct (Merge_one_sided hash s o em "g" HI HO ltac:(congruence) Hm) as (b & Hb & Hother & _).
  assert (Hb0 : b = 0) by (rewrite Halo in Hb; by apply index_replicate in Hb).
  subst b.
  exists s, o, em. split_and!; try assumption.
  - change (sketchOf hash 1 ?l) with
      (sketchOf hash 1
         ([("a", 10); ("b", 10); ("c", 10); ("d", 10); ("e", 10); ("f", 10)] ++ [("g", 1)])).
    rewrite sketchOf_snoc.
    rewrite Hs6. cbn [mbind option_bind]. by rewrite Hins.
  - by rewrite Hk.
  - rewrite Helo. left.
  - rewrite (bucket_same hash s6 s) by done. rewrite Hal. unfold index.
    destruct (bucket hash s6 "g" <? 0) eqn:Hneg; [apply Z.ltb_lt in Hneg; lia|].
    apply list_lookup_insert_eq. lia.
  - apply (Hother (mkElement "g" 5 0)); [by rewrite Hk|rewrite Helo; left|done].
Qed.

(** Whatever the digest is, two of the thirty-seven keys share a bucket
    of a filter of thirty-six counters. *)
Lemma bucket_collision hash :
  exists p q, p ∈ collidingKeys /\ q ∈ collidingKeys /\ p <> q /\
              reduce (hash p) 36 = reduce (hash q) 36.
Proof.
  destruct (list_pigeonhole ((fun x => reduce (hash x) 36) <$> collidingKeys) (seqZ 0 36))
    as (i1 & i2 & b & Hlt & Hb1 & Hb2).
  - intros b (x & -> & _)%list_elem_of_fmap. apply elem_of_seqZ.
    pose proof (reduce_bound (hash x) 36 ltac:(lia)). lia.
  - rewrite length_fmap, length_seqZ. vm_compute. lia.
  - rewrite list_lookup_fmap in Hb1, Hb2.
    destruct (collidingKeys !! i1) as [p|] eqn:Hp; [|done].
    destruct (collidingKeys !! i2) as [q|] eqn:Hq; [|done].
    cbn in Hb1, Hb2. exists p, q. split_and!.
    + by eapply list_elem_of_lookup_2.
    + by eapply list_elem_of_lookup_2.
    + intros ->. assert (i1 = i2); [|lia].
      eapply (NoDup_lookup collidingKeys); [|done..].
      apply (bool_decide_unpack _). vm_compute. exact I.
    + congruence.
Qed.

(** C3 fails in the same way whatever the digest is: among the
    thirty-seven keys two share a bucket; the first is made the root of
    a full sketch of size [1] and the second is inserted next. *)
Lemma eviction_estimate_any_hash : ~ exists hash, evictionKeepsFirstEstimate hash.
Proof.
  intros [hash Hclaim].
  destruct (bucket_collision hash) as (p & q & Hp & Hq & Hpq & Hb).
  assert (H1 : 1 <= 1) by lia.
  assert (H2 : 1 * 36 <= GoInt.max_int) by (unfold GoInt.max_int; lia).
  set (fillers := [("f1", 2); ("f2", 2); ("f3", 2); ("f4", 2); ("f5", 2)]).
  assert (Hdisj : forall x, x ∈ collidingKeys -> x ∉ fillers.*1).
  { apply Forall_forall. apply (bool_decide_unpack _). vm_compute. exact I. }
  destruct (sketchOf_fresh hash 1 ((p, 1) :: fillers) H1 H2) as (s & Hs & HI & Hn & Hal & Hel).
  { rewrite fmap_cons. apply NoDup_cons. split; [by apply Hdisj|].
    apply (bool_decide_unpack _). vm_compute. exact I. }
  { cbn. unfold bufMultiplier. lia. }
  cbn [fmap list_fmap fst snd fillers] in Hel.
  pose proof (sketchOf_reachable hash 1 _ s H1 H2 Hs) as Hr.
  pose proof (Inv_alphas_nonempty s HI) as Hne.
  assert (Hbucket : forall x, bucket hash s x = reduce (hash x) 36).
  { intros x. unfold bucket. by rewrite Hal, length_replicate. }
  destruct (elts (k s) !! 0%nat) as [m0|] eqn:H0;
    [|apply lookup_ge_None in H0; rewrite (Permutation_length Hel) in H0; cbn in H0; lia].
  assert (Hm0 : m0 = mkElement p 1 0).
  { pose proof (root_min_Count _ m0 (mkElement p 1 0) (inv_heap _ HI) H0) as Hmin.
    rewrite Hel in Hmin. specialize (Hmin ltac:(left)). cbn in Hmin.
    assert (Hin : m0 ∈ elts (k s)) by (by eapply list_elem_of_lookup_2).
    rewrite Hel in Hin. apply elem_of_cons in Hin as [->|Hin]; [done|].
    repeat (apply elem_of_cons in Hin as [->|Hin]; [cbn in Hmin; lia|]).
    by apply elem_of_nil in Hin. }
  subst m0.
  assert (Hq' : m (k s) !! q = None).
  { apply (untracked_iff _ _ (inv_index _ HI)). intros e He Hk. rewrite Hel in He.
    apply elem_of_cons in He as [->|He]; [by apply Hpq|].
    apply (Hdisj q Hq). rewrite <- Hk.
    change (Key e ∈ Key <$> ((fun kw : string * Z => mkElement kw.1 kw.2 0) <$> fillers)).
    by apply list_elem_of_fmap_2. }
  assert (Hfull : Z.of_nat (length (elts (k s))) = n s * bufMultiplier).
  { rewrite (Permutation_length Hel), Hn. reflexivity. }
  pose proof (index_replicate_bucket hash s q _ Hal Hne) as Ha.
  assert (Hge : Count (mkElement p 1 0) <= GoInt.add 0 5) by (vm_compute; discriminate).
  destruct (Insert_evicts hash s q 5 0 (mkElement p 1 0) HI Hq' Hfull Ha H0 Hge)
    as (s' & e & Hins & He).
  destruct (Hclaim s q 5 s' e 0 (mkElement p 1 0) Hr Hq' Hfull Ha H0 Hge Hins) as (_ & _ & He').
  rewrite He' in He. cbn [Key] in He. rewrite !Hbucket in He.
  rewrite decide_True in He by done. discriminate He.
Qed.

(** * Further properties of the code

    Properties of [New], [Insert], [Estimate], [Keys], [Merge], the
    encoding and the heap interface of [keys] beyond the claims above,
    each read off [topk.go]. *)

(** ** Estimates along a stream *)

Lemma sketchOf_Bounds hash sz hist :
  1 <= sz -> sz * 36 <= GoInt.max_int -> validStream hist ->
  exists s, sketchOf hash sz hist = Some s /\ Inv s /\ Bounds hash hist s /\ n s = sz.
Proof.
  intros H1 H2 Hv.
  destruct (inserts_Bounds hash sz hist H1 H2 Hv) as (s0 & s & Hs0 & Hrun & HI & HB & Hn).
  exists s. unfold sketchOf. rewrite Hs0. by split_and!.
Qed.

(** [Estimate] of the key of a monitored element returns that element. *)
Lemma Estimate_elem hash s e :
  Inv s -> e ∈ elts (k s) -> Estimate hash s (Key e) = Some e.
Proof.
  intros HI He.
  destruct (Estimate_tracked hash s (Key e) HI) as (e' & -> & Hin & Hk).
  - apply (indexed_tracked _ _ (inv_index _ HI)). by apply list_elem_of_fmap_2.
  - f_equal. by apply (NoDup_Key_eq (elts (k s))); [apply indexed_NoDup, HI|..].
Qed.

(** [Estimate] of a key that is not monitored reads the key's bucket. *)
Lemma Estimate_untracked hash s y :
  Inv s -> m (k s) !! y = None ->
  exists a, index (alphas s) (bucket hash s y) = Some a /\
            Estimate hash s y = Some (mkElement y a a).
Proof.
  intros HI Hm.
  destruct (index_lt (alphas s) _ (bucket_bound hash s y (Inv_alphas_nonempty s HI)))
    as (a & Ha & _).
  exists a. split; [done|]. unfold Estimate. rewrite Hm, Ha. reflexivity.
Qed.

Lemma Estimate_total hash s y :
  Inv s ->
  (exists e, is_Some (m (k s) !! y) /\ e ∈ elts (k s) /\ Key e = y /\
             Estimate hash s y = Some e) \/
  (exists a, m (k s) !! y = None /\ index (alphas s) (bucket hash s y) = Some a /\
             Estimate hash s y = Some (mkElement y a a)).
Proof.
  intros HI. destruct (m (k s) !! y) as [idx|] eqn:Hm.
  - left. destruct (Estimate_tracked hash s y HI) as (e & He & Hin & Hk); [by rewrite Hm|].
    exists e. by split_and!.
  - right. destruct (Estimate_untracked hash s y HI Hm) as (a & Ha & He). by exists a.
Qed.

(** X1.  After any run of [Insert] calls with weights of at least one
    whose sum is an [int], [Estimate] returns for every key, monitored
    or not, an element within the error bound: its [Count] is at least
    the weight inserted for the key and its [Count - Error] at most that
    weight.  For a key that is not monitored the element is the key's
    filter counter, as [Count] and as [Error]. *)
Theorem Estimate_within_bounds hash sz hist :
  1 <= sz -> sz * 36 <= GoInt.max_int -> validStream hist ->
  exists s, sketchOf hash sz hist = Some s /\
    forall y, exists e,
      Estimate hash s y = Some e /\ Key e = y /\ bounded hist e /\
      (m (k s) !! y = None ->
       index (alphas s) (bucket hash s y) = Some (Count e) /\ Error e = Count e).
Proof.
  intros H1 H2 Hv. destruct (sketchOf_Bounds hash sz hist H1 H2 Hv) as (s & Hs & HI & HB & Hn).
  exists s. split; [done|]. intros y.
  destruct (Estimate_total hash s y HI) as [(e & Hy & Hin & Hk & He)|(a & Hy & Ha & He)].
  - exists e. split_and!; try done.
    + by apply (b_elts hash _ _ HB).
    + intros Hnone. rewrite Hnone in Hy. by destruct Hy.
  - exists (mkElement y a a). split_and!; try done.
    pose proof (b_untracked hash _ _ HB y a Hy Ha) as Hw.
    pose proof (trueWeight_bounds hist y (proj1 Hv)) as Hpos.
    unfold bounded. cbn [Key Count Error]. lia.
Qed.

Lemma Estimate_within_bounds_witness :
  exists s, sketchOf lengthHash 1 [("a", 5); ("b", 3); ("a", 2)] = Some s /\
    forall y, exists e,
      Estimate lengthHash s y = Some e /\ Key e = y /\
      bounded [("a", 5); ("b", 3); ("a", 2)] e /\
      (m (k s) !! y = None ->
       index (alphas s) (bucket lengthHash s y) = Some (Count e) /\ Error e = Count e).
Proof.
  apply (Estimate_within_bounds lengthHash 1 [("a", 5); ("b", 3); ("a", 2)]).
  - lia.
  - unfold GoInt.max_int. lia.
  - split.
    + repeat constructor; simpl; lia.
    + unfold GoInt.max_int. simpl. lia.
Defined.

(** X2.  A key that is not monitored has not been inserted with more
    weight than the [Count] of any monitored element: every key heavier
    than the root of the monitored set is monitored.  While the
    monitored set has room, a key that is not monitored has not been
    inserted at all. *)
Theorem heavy_keys_are_monitored hash sz hist :
  1 <= sz -> sz * 36 <= GoInt.max_int -> validStream hist ->
  exists s, sketchOf hash sz hist = Some s /\
    (forall y e, m (k s) !! y = None -> e ∈ elts (k s) -> trueWeight hist y <= Count e) /\
    (forall y m0, elts (k s) !! 0%nat = Some m0 -> Count m0 < trueWeight hist y ->
       is_Some (m (k s) !! y)) /\
    (Z.of_nat (length (elts (k s))) < sz * bufMultiplier ->
     forall y, m (k s) !! y = None -> trueWeight hist y = 0).
Proof.
  intros H1 H2 Hv. destruct (sketchOf_Bounds hash sz hist H1 H2 Hv) as (s & Hs & HI & HB & Hn).
  exists s. split; [done|].
  assert (Hun : forall y e, m (k s) !! y = None -> e ∈ elts (k s) -> trueWeight hist y <= Count e).
  { intros y e Hy He.
    destruct (Estimate_untracked hash s y HI Hy) as (a & Ha & _).
    pose proof (b_untracked hash _ _ HB y a Hy Ha) as Hw.
    destruct (b_alphas hash _ _ HB a (index_elem_of _ _ _ Ha)) as [_ Hle].
    specialize (Hle e He). lia. }
  split_and!.
  - exact Hun.
  - intros y m0 H0 Hlt. destruct (m (k s) !! y) eqn:Hy; [done|].
    pose proof (Hun y m0 Hy (list_elem_of_lookup_2 _ _ _ H0)). lia.
  - intros Hfree y Hy. rewrite <- Hn in Hfree.
    destruct (Estimate_untracked hash s y HI Hy) as (a & Ha & _).
    pose proof (b_untracked hash _ _ HB y a Hy Ha) as Hw.
    pose proof (b_free hash _ _ HB Hfree a (index_elem_of _ _ _ Ha)) as H0.
    pose proof (trueWeight_bounds hist y (proj1 Hv)) as Hpos. lia.
Qed.

Lemma heavy_keys_are_monitored_witness :
  exists s, sketchOf lengthHash 1 [("a", 5); ("b", 3); ("a", 2)] = Some s /\
    (forall y e, m (k s) !! y = None -> e ∈ elts (k s) ->
       trueWeight [("a", 5); ("b", 3); ("a", 2)] y <= Count e) /\
    (forall y m0, elts (k s) !! 0%nat = Some m0 ->
       Count m0 < trueWeight [("a", 5); ("b", 3); ("a", 2)] y ->
       is_Some (m (k s) !! y)) /\
    (Z.of_nat (length (elts (k s))) < 1 * bufMultiplier ->
     forall y, m (k s) !! y = None -> trueWeight [("a", 5); ("b", 3); ("a", 2)] y = 0).
Proof.
  apply (heavy_keys_are_monitored lengthHash 1 [("a", 5); ("b", 3); ("a", 2)]).
  - lia.
  - unfold GoInt.max_int. lia.
  - split.
    + repeat constructor; simpl; lia.
    + unfold GoInt.max_int. simpl. lia.
Defined.

(** The monitored elements after an [Insert] are the element returned
    and elements that were monitored before. *)
Lemma InsertCase_elts hash s x w s' e b :
  InsertCase hash s x w s' e -> b ∈ elts (k s') -> b = e \/ b ∈ elts (k s).
Proof.
  intros [e0 rest Hk P1 P2 He Hal
         |Hm Hroom He P Hal
         |a0 m0 Hm Hfull Ha H0 Hlt He Hk Hal
         |a0 m0 rest a1 Hm Hfull Ha Hel Hge Hal Ha1 He P] Hb.
  - rewrite P2 in Hb. apply elem_of_cons in Hb as [->|Hb]; [by left|].
    right. rewrite P1. by right.
  - rewrite P in Hb. apply elem_of_cons in Hb as [->|Hb]; [by left|by right].
  - right. by rewrite <- Hk.
  - rewrite P in Hb. apply elem_of_cons in Hb as [->|Hb]; [by left|].
    right. rewrite Hel. by right.
Qed.

Lemma index_lookup {A} (l : list A) i a : index l i = Some a -> l !! Z.to_nat i = Some a.
Proof. intros H. by apply index_Some in H as [_ H]. Qed.

(** Along a stream the [Error] of a monitored element stays below its
    [Count]. *)
Lemma sketchOf_Error_le hash sz hist :
  1 <= sz -> sz * 36 <= GoInt.max_int -> validStream hist ->
  exists s, sketchOf hash sz hist = Some s /\ Inv s /\ Bounds hash hist s /\ n s = sz /\
    forall e, e ∈ elts (k s) -> Error e <= Count e.
Proof.
  intros H1 H2. induction hist as [|[x w] hist IH] using rev_ind; intros Hv.
  - destruct (sketchOf_Bounds hash sz [] H1 H2 Hv) as (s & Hs & HI & HB & Hn).
    exists s. split_and!; try done. intros e He.
    unfold sketchOf in Hs. destruct (New_Inv sz H1 H2) as (s0 & Hs0 & _ & _ & Hel & _).
    rewrite Hs0 in Hs. cbn in Hs. injection Hs as <-. rewrite Hel in He.
    by apply elem_of_nil in He.
  - pose proof (validStream_snoc _ _ _ Hv) as (Hv' & Hw & Htot).
    destruct (IH Hv') as (s & Hs & HI & HB & Hn & Hle).
    destruct (Bounds_Insert hash hist s x w HI HB Hv)
      as (s' & e & Hins & HI' & Hn' & Hcase & HB' & Hbe).
    exists s'. rewrite sketchOf_snoc, Hs. cbn [mbind option_bind]. rewrite Hins.
    split_and!; try done; try congruence.
    intros e' He'.
    destruct (InsertCase_elts hash s x w s' e e' Hcase He') as [->|Hold]; [|by apply Hle].
    destruct Hcase as [e0 rest Hk P1 P2 He Hal
                      |Hm Hroom He P Hal
                      |a m0 Hm Hfull Ha H0 Hlt He Hk Hal
                      |a m0 rest a1 Hm Hfull Ha Hel Hge Hal Ha1 He P].
    + assert (Hin0 : e0 ∈ elts (k s)) by (rewrite P1; left).
      destruct (b_elts hash _ _ HB e0 Hin0) as ([Hlo _] & Hhi & _).
      pose proof (trueWeight_bounds hist (Key e0) (proj1 Hv')).
      pose proof (Hle e0 Hin0).
      subst e. cbn [Count Error]. rewrite add_small by lia. lia.
    + subst e. cbn [Count Error]. lia.
    + destruct (b_alphas hash _ _ HB a (index_elem_of _ _ _ Ha)) as [[? ?] _].
      subst e. cbn [Count Error]. rewrite add_small by lia. lia.
    + destruct (b_alphas hash _ _ HB a (index_elem_of _ _ _ Ha)) as [[? ?] _].
      assert (Hup : 0 <= a1 <= totalWeight hist).
      { rewrite Hal in Ha1.
        pose proof (bucket_bound hash s (Key m0) (Inv_alphas_nonempty s HI)) as Hbm.
        apply (index_overwrite _ _ _ _ _ (proj1 Hbm)) in Ha1 as [[_ ->]|[_ Ha1]].
        - assert (Hin0 : m0 ∈ elts (k s)) by (rewrite Hel; left).
          destruct (b_elts hash _ _ HB m0 Hin0) as ([Hlo _] & Hhi & _).
          pose proof (trueWeight_bounds hist (Key m0) (proj1 Hv')). lia.
        - rewrite Ha in Ha1. injection Ha1 as <-. lia. }
      subst e. cbn [Count Error]. rewrite add_small by lia. lia.
Qed.

(** X3.  No counter of the filter is negative or larger than the
    [Count] of a monitored element; the [Error] of a monitored element
    lies between zero and its [Count], and no [Count] is larger than the
    weight inserted for all keys together. *)
Theorem filter_below_monitored_counts hash sz hist :
  1 <= sz -> sz * 36 <= GoInt.max_int -> validStream hist ->
  exists s, sketchOf hash sz hist = Some s /\
    (forall a, a ∈ alphas s -> 0 <= a <= totalWeight hist) /\
    (forall a e, a ∈ alphas s -> e ∈ elts (k s) -> a <= Count e) /\
    (forall e, e ∈ elts (k s) -> 0 <= Error e <= Count e /\ Count e <= totalWeight hist).
Proof.
  intros H1 H2 Hv.
  destruct (sketchOf_Error_le hash sz hist H1 H2 Hv) as (s & Hs & HI & HB & Hn & Hle).
  exists s. split_and!; [done|..].
  - intros a Ha. by destruct (b_alphas hash _ _ HB a Ha).
  - intros a e Ha He. destruct (b_alphas hash _ _ HB a Ha) as [_ Hle']. by apply Hle'.
  - intros e He. destruct (b_elts hash _ _ HB e He) as (_ & ? & ?).
    pose proof (Hle e He). lia.
Qed.

Lemma filter_below_monitored_counts_witness :
  exists s, sketchOf lengthHash 1 [("a", 5); ("b", 3); ("a", 2)] = Some s /\
    (forall a, a ∈ alphas s -> 0 <= a <= totalWeight [("a", 5); ("b", 3); ("a", 2)]) /\
    (forall a e, a ∈ alphas s -> e ∈ elts (k s) -> a <= Count e) /\
    (forall e, e ∈ elts (k s) ->
       0 <= Error e <= Count e /\ Count e <= totalWeight [("a", 5); ("b", 3); ("a", 2)]).
Proof.
  apply (filter_below_monitored_counts lengthHash 1 [("a", 5); ("b", 3); ("a", 2)]).
  - lia.
  - unfold GoInt.max_int. lia.
  - split.
    + repeat constructor; simpl; lia.
    + unfold GoInt.max_int. simpl. lia.
Defined.

Lemma sketchOf_exact hash sz hist :
  1 <= sz -> sz * 36 <= GoInt.max_int -> validStream hist ->
  exists s, sketchOf hash sz hist = Some s /\ Inv s /\ Bounds hash hist s /\ n s = sz /\
    (Z.of_nat (length (elts (k s))) < sz * bufMultiplier ->
     forall e, e ∈ elts (k s) -> Error e = 0).
Proof.
  intros H1 H2. induction hist as [|[x w] hist IH] using rev_ind; intros Hv.
  - destruct (sketchOf_Bounds hash sz [] H1 H2 Hv) as (s & Hs & HI & HB & Hn).
    exists s. split_and!; try done. intros _ e He.
    unfold sketchOf in Hs. destruct (New_Inv sz H1 H2) as (s0 & Hs0 & _ & _ & Hel & _).
    rewrite Hs0 in Hs. cbn in Hs. injection Hs as <-. rewrite Hel in He.
    by apply elem_of_nil in He.
  - pose proof (validStream_snoc _ _ _ Hv) as (Hv' & Hw & Htot).
    destruct (IH Hv') as (s & Hs & HI & HB & Hn & Hex).
    destruct (Bounds_Insert hash hist s x w HI HB Hv)
      as (s' & e & Hins & HI' & Hn' & Hcase & HB' & Hbe).
    exists s'. rewrite sketchOf_snoc, Hs. cbn [mbind option_bind]. rewrite Hins.
    split_and!; try done; try congruence.
    intros Hfree e' He'.
    destruct Hcase as [e0 rest Hk P1 P2 He Hal
                      |Hm Hroom He P Hal
                      |a m0 Hm Hfull _ _ _ _ Hk _
                      |a m0 rest a1 Hm Hfull _ Hel _ _ _ _ P].
    + rewrite (Permutation_length P2) in Hfree.
      assert (Hfree' : Z.of_nat (length (elts (k s))) < sz * bufMultiplier)
        by (by rewrite (Permutation_length P1)).
      rewrite P2 in He'. apply elem_of_cons in He' as [->|He'].
      * subst e. cbn [Error]. apply (Hex Hfree'). rewrite P1. left.
      * apply (Hex Hfree'). rewrite P1. by right.
    + rewrite P in He'. apply elem_of_cons in He' as [->|He']; [by subst e|].
      apply Hex; [lia|done].
    + rewrite Hk in Hfree. lia.
    + rewrite (Permutation_length P) in Hfree. rewrite Hel in Hfull.
      cbn [length] in Hfree, Hfull. lia.
Qed.

(** X4.  As long as the monitored set has room, that is, while fewer
    than [sz * 6] distinct keys have been inserted, the sketch is exact:
    every monitored element has the weight inserted for its key as
    [Count] and [Error] zero, a key that is not monitored has not been
    inserted, and the filter is all zero. *)
Theorem exact_until_full hash sz hist :
  1 <= sz -> sz * 36 <= GoInt.max_int -> validStream hist ->
  exists s, sketchOf hash sz hist = Some s /\
    (Z.of_nat (length (elts (k s))) < sz * bufMultiplier ->
     (forall e, e ∈ elts (k s) -> Count e = trueWeight hist (Key e) /\ Error e = 0) /\
     (forall y, m (k s) !! y = None -> trueWeight hist y = 0) /\
     (forall a, a ∈ alphas s -> a = 0)).
Proof.
  intros H1 H2 Hv.
  destruct (sketchOf_exact hash sz hist H1 H2 Hv) as (s & Hs & HI & HB & Hn & Hex).
  exists s. split; [done|]. intros Hfree. split_and!.
  - intros e He. pose proof (Hex Hfree e He) as Herr.
    destruct (b_elts hash _ _ HB e He) as ([Hlo Hhi] & _). split; [lia|done].
  - intros y Hy.
    destruct (Estimate_untracked hash s y HI Hy) as (a & Ha & _).
    pose proof (b_untracked hash _ _ HB y a Hy Ha) as Hw.
    rewrite <- Hn in Hfree.
    pose proof (b_free hash _ _ HB Hfree a (index_elem_of _ _ _ Ha)) as H0.
    pose proof (trueWeight_bounds hist y (proj1 Hv)) as Hpos. lia.
  - rewrite <- Hn in Hfree. by apply (b_free hash _ _ HB).
Qed.

Lemma exact_until_full_witness :
  exists s, sketchOf lengthHash 1 [("a", 5); ("b", 3); ("a", 2)] = Some s /\
    (Z.of_nat (length (elts (k s))) < 1 * bufMultiplier ->
     (forall e, e ∈ elts (k s) ->
        Count e = trueWeight [("a", 5); ("b", 3); ("a", 2)] (Key e) /\ Error e = 0) /\
     (forall y, m (k s) !! y = None -> trueWeight [("a", 5); ("b", 3); ("a", 2)] y = 0) /\
     (forall a, a ∈ alphas s -> a = 0)).
Proof.
  apply (exact_until_full lengthHash 1 [("a", 5); ("b", 3); ("a", 2)]).
  - lia.
  - unfold GoInt.max_int. lia.
  - split.
    + repeat constructor; simpl; lia.
    + unfold GoInt.max_int. simpl. lia.
Defined.

(** What one [Insert] does to the filter, with the bounds in force. *)
Lemma Insert_filter_step hash hist s x w s' e :
  Inv s -> Bounds hash hist s -> validStream (hist ++ [(x, w)]) ->
  InsertCase hash s x w s' e ->
  length (alphas s') = length (alphas s) /\
  forall i a a', alphas s !! i = Some a -> alphas s' !! i = Some a' -> a <= a'.
Proof.
  intros HI HB Hv Hcase.
  pose proof (validStream_snoc _ _ _ Hv) as (Hv' & Hw & Htot).
  pose proof (Inv_alphas_nonempty s HI) as Hne.
  destruct Hcase as [e0 rest Hk P1 P2 He Hal
                    |Hm Hroom He P Hal
                    |a0 m0 Hm Hfull Ha H0 Hlt He Hk Hal
                    |a0 m0 rest a1 Hm Hfull Ha Hel Hge Hal Ha1 He P].
  - rewrite Hal. split; [done|]. intros i a a' H H'. rewrite H in H'. injection H' as <-. lia.
  - rewrite Hal. split; [done|]. intros i a a' H H'. rewrite H in H'. injection H' as <-. lia.
  - rewrite Hal, length_insert. split; [done|]. intros i a a' H H'.
    destruct (decide (i = Z.to_nat (bucket hash s x))) as [->|Hne'].
    + apply index_Some in Ha as [_ Ha]. rewrite Ha in H. injection H as <-.
      rewrite list_lookup_insert_eq in H' by (by eapply lookup_lt_Some).
      injection H' as <-.
      destruct (b_alphas hash _ _ HB a0 (list_elem_of_lookup_2 _ _ _ Ha)) as [[? ?] _].
      rewrite add_small by lia. lia.
    + rewrite list_lookup_insert_ne in H' by done. rewrite H in H'. injection H' as <-. lia.
  - rewrite Hal, length_insert. split; [done|]. intros i a a' H H'.
    destruct (decide (i = Z.to_nat (bucket hash s (Key m0)))) as [->|Hne'].
    + rewrite list_lookup_insert_eq in H' by (by eapply lookup_lt_Some).
      injection H' as <-.
      destruct (b_alphas hash _ _ HB a (list_elem_of_lookup_2 _ _ _ H)) as [_ Hle].
      apply Hle. rewrite Hel. left.
    + rewrite list_lookup_insert_ne in H' by done. rewrite H in H'. injection H' as <-. lia.
Qed.

(** X5.  [Insert] never lowers a counter of the filter, and keeps the
    length of the filter. *)
Theorem filter_never_decreases hash sz hist x w :
  1 <= sz -> sz * 36 <= GoInt.max_int -> validStream (hist ++ [(x, w)]) ->
  exists s s' e,
    sketchOf hash sz hist = Some s /\ Insert hash s x w = Some (s', e) /\
    length (alphas s') = length (alphas s) /\
    forall i a a', alphas s !! i = Some a -> alphas s' !! i = Some a' -> a <= a'.
Proof.
  intros H1 H2 Hv. pose proof (validStream_snoc _ _ _ Hv) as (Hv' & _ & _).
  destruct (sketchOf_Bounds hash sz hist H1 H2 Hv') as (s & Hs & HI & HB & Hn).
  destruct (Bounds_Insert hash hist s x w HI HB Hv)
    as (s' & e & Hins & HI' & Hn' & Hcase & HB' & Hbe).
  exists s, s', e. split; [done|]. split; [done|].
  by apply (Insert_filter_step hash hist s x w s' e).
Qed.

Lemma filter_never_decreases_witness :
  exists s s' e,
    sketchOf lengthHash 1 [("a", 1); ("b", 2); ("c", 2); ("d", 2); ("e", 2); ("f", 2)] = Some s /\
    Insert lengthHash s "g" 5 = Some (s', e) /\
    length (alphas s') = length (alphas s) /\
    forall i a a', alphas s !! i = Some a -> alphas s' !! i = Some a' -> a <= a'.
Proof.
  apply (filter_never_decreases lengthHash 1
           [("a", 1); ("b", 2); ("c", 2); ("d", 2); ("e", 2); ("f", 2)] "g" 5).
  - lia.
  - unfold GoInt.max_int. lia.
  - split.
    + repeat constructor; simpl; lia.
    + unfold GoInt.max_int. simpl. lia.
Defined.

(** X6.  [Insert] never lowers the [Count] that [Estimate] reports, for
    any key: a monitored key keeps or raises its [Count], the evicted
    key keeps its [Count] in the filter, and a key that is not monitored
    keeps or raises its filter counter. *)
Theorem Estimate_never_decreases hash sz hist x w :
  1 <= sz -> sz * 36 <= GoInt.max_int -> validStream (hist ++ [(x, w)]) ->
  exists s s' e,
    sketchOf hash sz hist = Some s /\ Insert hash s x w = Some (s', e) /\
    forall y, exists ey ey',
      Estimate hash s y = Some ey /\ Estimate hash s' y = Some ey' /\
      Count ey <= Count ey'.
Proof.
  intros H1 H2 Hv. pose proof (validStream_snoc _ _ _ Hv) as (Hv' & Hw & Htot).
  destruct (sketchOf_Bounds hash sz hist H1 H2 Hv') as (s & Hs & HI & HB & Hn).
  destruct (Bounds_Insert hash hist s x w HI HB Hv)
    as (s' & e & Hins & HI' & Hn' & Hcase & HB' & Hbe).
  exists s, s', e. split; [done|]. split; [done|]. intros y.
  destruct (Insert_filter_step hash hist s x w s' e HI HB Hv Hcase) as [Hlen Hmono].
  pose proof (bucket_same hash s s' y Hlen) as Hbk.
  pose proof (indexed_NoDup _ (inv_index _ HI)) as Hnd.
  pose proof (InsertCase_Key hash s x w s' e Hcase) as Hke.
  assert (Hun : forall t z, Inv t -> m (k t) !! z = None ->
            forall b, b ∈ elts (k t) -> Key b <> z).
  { intros t z Ht Hz. by apply (untracked_iff _ _ (inv_index _ Ht)). }
  destruct (Estimate_total hash s y HI) as [(ey & Hy & Hin & Hk & He)|(a & Hy & Ha & He)];
    destruct (Estimate_total hash s' y HI') as [(ey' & Hy' & Hin' & Hk' & He')|(a' & Hy' & Ha' & He')].
  - (* monitored before and after *)
    exists ey, ey'. split; [done|]. split; [done|].
    destruct (InsertCase_elts hash s x w s' e ey' Hcase Hin') as [->|Hold].
    + destruct Hcase as [e0 rest Hk0 P1 P2 Heq Hal
                        |Hm _ _ _ _
                        |a0 m0 Hm _ _ _ _ _ _ _
                        |a0 m0 rest a1 Hm _ _ _ _ _ _ _ _].
      * assert (ey = e0) as ->.
        { apply (NoDup_Key_eq (elts (k s))); [done|done|rewrite P1; left|congruence]. }
        subst e. cbn [Count].
        destruct (b_elts hash _ _ HB e0 Hin) as ([Hlo _] & Hhi & _).
        pose proof (trueWeight_bounds hist (Key e0) (proj1 Hv')).
        rewrite add_small by lia. lia.
      * exfalso. apply (Hun s x HI Hm ey Hin). congruence.
      * exfalso. apply (Hun s x HI Hm ey Hin). congruence.
      * exfalso. apply (Hun s x HI Hm ey Hin). congruence.
    + assert (ey' = ey) as ->; [|lia].
      apply (NoDup_Key_eq (elts (k s))); [done|done|done|congruence].
  - (* monitored before, not after: the evicted key *)
    exists ey, (mkElement y a' a'). split; [done|]. split; [done|]. cbn [Count].
    destruct Hcase as [e0 rest Hk0 P1 P2 Heq Hal
                      |Hm Hroom Heq P Hal
                      |a0 m0 Hm Hfull Ha0 H0 Hlt Heq Hkk Hal
                      |a0 m0 rest a1 Hm Hfull Ha0 Hel Hge Hal Ha1 Heq P].
    + exfalso. rewrite P1 in Hin. apply elem_of_cons in Hin as [->|Hin].
      * apply (Hun s' y HI' Hy' e); [rewrite P2; left|congruence].
      * apply (Hun s' y HI' Hy' ey); [rewrite P2; by right|done].
    + exfalso. apply (Hun s' y HI' Hy' ey); [rewrite P; by right|done].
    + exfalso. apply (Hun s' y HI' Hy' ey); [by rewrite Hkk|done].
    + rewrite Hel in Hin. apply elem_of_cons in Hin as [->|Hin].
      * rewrite Hbk, <- Hk, Hal in Ha'.
        pose proof (bucket_bound hash s (Key m0) (Inv_alphas_nonempty s HI)) as Hbm.
        apply (index_overwrite _ _ _ _ _ (proj1 Hbm)) in Ha' as [[_ ->]|[Hne _]]; [lia|done].
      * exfalso. apply (Hun s' y HI' Hy' ey); [rewrite P; by right|done].
  - (* not monitored before, monitored after: the inserted key *)
    exists (mkElement y a a), ey'. split; [done|]. split; [done|]. cbn [Count].
    destruct (InsertCase_elts hash s x w s' e ey' Hcase Hin') as [->|Hold];
      [|exfalso; by apply (Hun s y HI Hy ey' Hold)].
    assert (y = x) as -> by congruence.
    destruct Hcase as [e0 rest Hk0 P1 P2 Heq Hal
                      |Hm Hroom Heq P Hal
                      |a0 m0 Hm Hfull Ha0 H0 Hlt Heq Hkk Hal
                      |a0 m0 rest a1 Hm Hfull Ha0 Hel Hge Hal Ha1 Heq P].
    + exfalso. apply (Hun s x HI Hy e0); [rewrite P1; left|done].
    + subst e. cbn [Count].
      rewrite (b_free hash _ _ HB Hroom a (index_elem_of _ _ _ Ha)). lia.
    + exfalso. rewrite Hkk in Hy'. rewrite Hy in Hy'. by destruct Hy'.
    + subst e. cbn [Count]. rewrite Ha in Ha0. injection Ha0 as <-.
      pose proof (Hmono _ _ _ (index_lookup _ _ _ Ha) (index_lookup _ _ _ Ha1)) as Hle.
      destruct (b_alphas hash _ _ HB a (index_elem_of _ _ _ Ha)) as [[Ha0 _] _].
      assert (Hup : a1 <= totalWeight hist).
      { rewrite Hal in Ha1.
        pose proof (bucket_bound hash s (Key m0) (Inv_alphas_nonempty s HI)) as Hbm.
        apply (index_overwrite _ _ _ _ _ (proj1 Hbm)) in Ha1 as [[_ ->]|[_ Ha1]].
        - destruct (b_elts hash _ _ HB m0) as (_ & ? & _); [rewrite Hel; left|done].
        - rewrite Ha in Ha1. injection Ha1 as <-.
          by destruct (b_alphas hash _ _ HB a (index_elem_of _ _ _ Ha)) as [[_ ?] _]. }
      rewrite add_small by lia. lia.
  - (* not monitored before or after *)
    exists (mkElement y a a), (mkElement y a' a'). split; [done|]. split; [done|]. cbn [Count].
    rewrite Hbk in Ha'.
    exact (Hmono _ _ _ (index_lookup _ _ _ Ha) (index_lookup _ _ _ Ha')).
Qed.

Lemma Estimate_never_decreases_witness :
  exists s s' e,
    sketchOf lengthHash 1 [("a", 1); ("b", 2); ("c", 2); ("d", 2); ("e", 2); ("f", 2)] = Some s /\
    Insert lengthHash s "g" 5 = Some (s', e) /\
    forall y, exists ey ey',
      Estimate lengthHash s y = Some ey /\ Estimate lengthHash s' y = Some ey' /\
      Count ey <= Count ey'.
Proof.
  apply (Estimate_never_decreases lengthHash 1
           [("a", 1); ("b", 2); ("c", 2); ("d", 2); ("e", 2); ("f", 2)] "g" 5).
  - lia.
  - unfold GoInt.max_int. lia.
  - split.
    + repeat constructor; simpl; lia.
    + unfold GoInt.max_int. simpl. lia.
Defined.

(** ** The paths of [Insert] *)

Lemma InsertCase_tracked hash s x w s' e :
  Inv s -> is_Some (m (k s) !! x) -> InsertCase hash s x w s' e ->
  exists e0 rest, Key e0 = x /\ elts (k s) ≡ₚ e0 :: rest /\ elts (k s') ≡ₚ e :: rest /\
                  e = mkElement x (GoInt.add (Count e0) w) (Error e0) /\ alphas s' = alphas s.
Proof.
  intros HI Hx [e0 rest Hk P1 P2 He Hal|Hm _ _ _ _|a0 m0 Hm _ _ _ _ _ _ _
               |a0 m0 rest a1 Hm _ _ _ _ _ _ _ _].
  - by exists e0, rest.
  - rewrite Hm in Hx. by destruct Hx.
  - rewrite Hm in Hx. by destruct Hx.
  - rewrite Hm in Hx. by destruct Hx.
Qed.

(** X7.  [Insert] of a monitored key adds the weight to the [Count] of
    its element and keeps its [Error]; the filter, the size and the set
    of monitored keys stay as they are. *)
Theorem Insert_monitored_key hash s x w idx :
  reachable hash s -> m (k s) !! x = Some idx ->
  exists e0 s',
    index (elts (k s)) idx = Some e0 /\ Key e0 = x /\
    Insert hash s x w = Some (s', mkElement x (GoInt.add (Count e0) w) (Error e0)) /\
    Estimate hash s' x = Some (mkElement x (GoInt.add (Count e0) w) (Error e0)) /\
    alphas s' = alphas s /\ n s' = n s /\
    length (elts (k s')) = length (elts (k s)) /\
    (forall y, is_Some (m (k s') !! y) <-> is_Some (m (k s) !! y)).
Proof.
  intros Hr Hm. pose proof (reachable_Inv hash s Hr) as HI.
  destruct (tracked_index s x idx (inv_index _ HI) Hm) as (e0 & Hidx & Hin & Hk).
  destruct (Insert_spec hash s x w HI) as (s' & e & Hins & HI' & Hn & Hcase).
  destruct (InsertCase_tracked hash s x w s' e HI ltac:(by rewrite Hm) Hcase)
    as (e0' & rest & Hk' & P1 & P2 & He & Hal).
  assert (e0' = e0) as ->.
  { apply (NoDup_Key_eq (elts (k s))); [by apply indexed_NoDup, HI|rewrite P1; left|done|congruence]. }
  exists e0, s'. rewrite <- He. split_and!; try done.
  - replace x with (Key e) by (by subst e). apply Estimate_elem; [done|]. rewrite P2. left.
  - by rewrite (Permutation_length P1), (Permutation_length P2).
  - intros y. rewrite !(indexed_tracked _ _ (inv_index _ HI)), !(indexed_tracked _ _ (inv_index _ HI')).
    rewrite P1, P2, !fmap_cons. by replace (Key e) with (Key e0) by (subst e; done).
Qed.

Lemma Insert_monitored_key_witness :
  let s := mkStream 1 (mkKeys {[ "a" := 0 ]} [mkElement "a" 5 0]) (replicate 36 0) in
  exists e0 s',
    index (elts (k s)) 0 = Some e0 /\ Key e0 = "a" /\
    Insert lengthHash s "a" 2 = Some (s', mkElement "a" (GoInt.add (Count e0) 2) (Error e0)) /\
    Estimate lengthHash s' "a" = Some (mkElement "a" (GoInt.add (Count e0) 2) (Error e0)) /\
    alphas s' = alphas s /\ n s' = n s /\
    length (elts (k s')) = length (elts (k s)) /\
    (forall y, is_Some (m (k s') !! y) <-> is_Some (m (k s) !! y)).
Proof.
  intros s. apply (Insert_monitored_key lengthHash s "a" 2 0).
  - apply (sketchOf_reachable lengthHash 1 [("a", 5)]);
      [lia|unfold GoInt.max_int; lia|vm_compute; reflexivity].
  - reflexivity.
Defined.

(** X8.  While the monitored set has room, [Insert] of a key that is not
    monitored adds the element [{key, weight, 0}] to the monitored set
    and returns it; the filter is not touched and every other monitored
    element stays. *)
Theorem Insert_with_room hash s x w :
  reachable hash s -> m (k s) !! x = None ->
  Z.of_nat (length (elts (k s))) < n s * bufMultiplier ->
  exists s',
    Insert hash s x w = Some (s', mkElement x w 0) /\
    Estimate hash s' x = Some (mkElement x w 0) /\
    alphas s' = alphas s /\ n s' = n s /\
    elts (k s') ≡ₚ mkElement x w 0 :: elts (k s) /\
    length (elts (k s')) = S (length (elts (k s))).
Proof.
  intros Hr Hm Hroom. pose proof (reachable_Inv hash s Hr) as HI.
  destruct (Insert_free hash s x w HI Hm Hroom) as (s' & Hins & HI' & Hn & Hal & P).
  exists s'. split_and!; try done.
  - apply (Estimate_elem hash s' (mkElement x w 0) HI'). rewrite P. left.
  - by rewrite (Permutation_length P).
Qed.

Lemma Insert_with_room_witness :
  let s := mkStream 1 (mkKeys {[ "a" := 0 ]} [mkElement "a" 5 0]) (replicate 36 0) in
  exists s',
    Insert lengthHash s "b" 3 = Some (s', mkElement "b" 3 0) /\
    Estimate lengthHash s' "b" = Some (mkElement "b" 3 0) /\
    alphas s' = alphas s /\ n s' = n s /\
    elts (k s') ≡ₚ mkElement "b" 3 0 :: elts (k s) /\
    length (elts (k s')) = S (length (elts (k s))).
Proof.
  intros s. apply (Insert_with_room lengthHash s "b" 3).
  - apply (sketchOf_reachable lengthHash 1 [("a", 5)]);
      [lia|unfold GoInt.max_int; lia|vm_compute; reflexivity].
  - reflexivity.
  - vm_compute. reflexivity.
Defined.

(** X9.  On a full monitored set, [Insert] of a key that is not
    monitored whose filter counter plus the weight stays below the
    [Count] of the root changes the filter only: the counter of the
    key's bucket grows by the weight, the monitored set is untouched,
    and the element returned has the new counter as [Count] and the old
    one as [Error]. *)
Theorem Insert_below_minimum hash s x w a minElement :
  reachable hash s -> m (k s) !! x = None ->
  Z.of_nat (length (elts (k s))) = n s * bufMultiplier ->
  index (alphas s) (bucket hash s x) = Some a ->
  elts (k s) !! 0%nat = Some minElement ->
  GoInt.add a w < Count minElement ->
  Insert hash s x w
  = Some (mkStream (n s) (k s) (<[Z.to_nat (bucket hash s x) := GoInt.add a w]> (alphas s)),
          mkElement x (GoInt.add a w) a) /\
  forall s' e, Insert hash s x w = Some (s', e) ->
    Estimate hash s' x = Some (mkElement x (GoInt.add a w) (GoInt.add a w)).
Proof.
  intros Hr Hm Hfull Ha H0 Hlt. pose proof (reachable_Inv hash s Hr) as HI.
  destruct (Insert_spec hash s x w HI) as (s' & e & Hins & HI' & Hn & Hcase).
  destruct Hcase as [e0 rest Hk P1 P2 He Hal
                    |_ Hroom _ _ _
                    |a0 m0 _ _ Ha0 H0' _ He Hk Hal
                    |a0 m0 rest a1 _ _ Ha0 Hel Hge _ _ _ _].
  - exfalso. apply (proj1 (untracked_iff _ _ (inv_index _ HI)) Hm e0); [|done].
    rewrite P1. left.
  - lia.
  - rewrite Ha in Ha0. injection Ha0 as <-.
    assert (Hs' : s' = mkStream (n s) (k s)
                         (<[Z.to_nat (bucket hash s x) := GoInt.add a w]> (alphas s))).
    { destruct s' as [n' k' al']. cbn [n k alphas] in *. by subst. }
    split; [by rewrite Hins, Hs', He|].
    intros s'' e'' Hins'. rewrite Hins in Hins'. injection Hins' as <- <-.
    destruct (Estimate_untracked hash s' x HI') as (b & Hb & ->); [by rewrite Hk|].
    rewrite (bucket_same hash s s' x) in Hb by (by rewrite Hal, length_insert).
    rewrite Hal in Hb.
    pose proof (bucket_bound hash s x (Inv_alphas_nonempty s HI)) as Hbx.
    apply (index_overwrite _ _ _ _ _ (proj1 Hbx)) in Hb as [[_ ->]|[Hne _]]; done.
  - rewrite Ha in Ha0. injection Ha0 as <-. rewrite Hel in H0. injection H0 as ->. lia.
Qed.

Lemma Insert_below_minimum_witness :
  exists s,
    sketchOf lengthHash 1 [("a", 9); ("b", 9); ("c", 9); ("d", 9); ("e", 9); ("f", 9)] = Some s /\
    Insert lengthHash s "g" 2
    = Some (mkStream (n s) (k s) (<[Z.to_nat (bucket lengthHash s "g") := GoInt.add 0 2]> (alphas s)),
            mkElement "g" (GoInt.add 0 2) 0) /\
    forall s' e, Insert lengthHash s "g" 2 = Some (s', e) ->
      Estimate lengthHash s' "g" = Some (mkElement "g" (GoInt.add 0 2) (GoInt.add 0 2)).
Proof.
  eexists. split; [reflexivity|].
  apply (Insert_below_minimum lengthHash _ "g" 2 0 (mkElement "a" 9 0)).
  - apply (sketchOf_reachable lengthHash 1
             [("a", 9); ("b", 9); ("c", 9); ("d", 9); ("e", 9); ("f", 9)]);
      [lia|unfold GoInt.max_int; lia|reflexivity].
  - vm_compute. reflexivity.
  - vm_compute. reflexivity.
  - vm_compute. reflexivity.
  - vm_compute. reflexivity.
  - vm_compute. reflexivity.
Defined.

(** X10.  After [Insert] of a key, [Estimate] of that key reports the
    [Count] that [Insert] returned.  When the key is monitored after the
    call, [Estimate] returns the very element [Insert] returned;
    otherwise the weight went to the filter and [Estimate] reports the
    new counter as [Count] and as [Error]. *)
Theorem Estimate_after_Insert hash s x w s' e :
  reachable hash s -> Insert hash s x w = Some (s', e) ->
  exists e',
    Estimate hash s' x = Some e' /\ Key e' = x /\ Count e' = Count e /\
    (is_Some (m (k s') !! x) -> e' = e) /\
    (m (k s') !! x = None -> Error e' = Count e).
Proof.
  intros Hr Hins. pose proof (reachable_Inv hash s Hr) as HI.
  destruct (Insert_spec hash s x w HI) as (s1 & e1 & Hins1 & HI' & Hn & Hcase).
  rewrite Hins in Hins1. injection Hins1 as <- <-.
  pose proof (InsertCase_Key hash s x w s' e Hcase) as Hke.
  assert (Hin : e ∈ elts (k s') -> exists e',
            Estimate hash s' x = Some e' /\ Key e' = x /\ Count e' = Count e /\
            (is_Some (m (k s') !! x) -> e' = e) /\
            (m (k s') !! x = None -> Error e' = Count e)).
  { intros He. exists e. rewrite <- Hke at 1. split_and!; try done.
    - by apply Estimate_elem.
    - intros Hnone. exfalso.
      by apply (proj1 (untracked_iff _ _ (inv_index _ HI')) Hnone e He). }
  destruct Hcase as [e0 rest Hk P1 P2 He Hal
                    |Hm Hroom He P Hal
                    |a0 m0 Hm Hfull Ha0 H0 Hlt He Hk Hal
                    |a0 m0 rest a1 Hm Hfull Ha0 Hel Hge Hal Ha1 He P].
  - apply Hin. rewrite P2. left.
  - apply Hin. rewrite P. left.
  - destruct (Estimate_untracked hash s' x HI') as (b & Hb & Hest); [by rewrite Hk|].
    rewrite (bucket_same hash s s' x) in Hb by (by rewrite Hal, length_insert).
    rewrite Hal in Hb.
    pose proof (bucket_bound hash s x (Inv_alphas_nonempty s HI)) as Hbx.
    apply (index_overwrite _ _ _ _ _ (proj1 Hbx)) in Hb as [[_ ->]|[Hne _]]; [|done].
    exists (mkElement x (GoInt.add a0 w) (GoInt.add a0 w)). subst e. split_and!; try done.
    intros Hsome. rewrite Hk, Hm in Hsome. by destruct Hsome.
  - apply Hin. rewrite P. left.
Qed.

Lemma Estimate_after_Insert_witness :
  let s := mkStream 1 (mkKeys {[ "a" := 0 ]} [mkElement "a" 5 0]) (replicate 36 0) in
  let s' := mkStream 1 (mkKeys {[ "a" := 0 ]} [mkElement "a" 7 0]) (replicate 36 0) in
  exists e',
    Estimate lengthHash s' "a" = Some e' /\ Key e' = "a" /\
    Count e' = Count (mkElement "a" 7 0) /\
    (is_Some (m (k s') !! "a") -> e' = mkElement "a" 7 0) /\
    (m (k s') !! "a" = None -> Error e' = Count (mkElement "a" 7 0)).
Proof.
  intros s s'. apply (Estimate_after_Insert lengthHash s "a" 2 s' (mkElement "a" 7 0)).
  - apply (sketchOf_reachable lengthHash 1 [("a", 5)]);
      [lia|unfold GoInt.max_int; lia|vm_compute; reflexivity].
  - vm_compute. reflexivity.
Defined.



(** ** [New] *)

(** X12.  For a size whose filter length [36 * sz] is an [int], [New]
    panics when the size is negative, and otherwise returns a sketch of
    that size with no monitored element and a filter of [36 * sz]
    zeros. *)
Theorem New_result sz :
  - GoInt.max_int <= sz * 36 <= GoInt.max_int ->
  New sz = if sz <? 0 then None
           else Some (mkStream sz (mkKeys ∅ []) (replicate (Z.to_nat (sz * 36)) 0)).
Proof.
  intros Hr. unfold New, int_mul, bufMultiplier.
  assert (Hcap : GoInt.wrap (sz * 6) = sz * 6).
  { apply wrap_in_range. unfold GoInt.in_range, GoInt.min_int, GoInt.max_int in *. lia. }
  rewrite Hcap.
  assert (Hlen : GoInt.wrap (sz * 6 * 6) = sz * 36).
  { rewrite wrap_in_range; [lia|].
    unfold GoInt.in_range, GoInt.min_int, GoInt.max_int in *. lia. }
  rewrite Hlen.
  destruct (sz <? 0) eqn:Hneg.
  - apply Z.ltb_lt in Hneg.
    assert ((sz * 6 <? 0) = true) as -> by (apply Z.ltb_lt; lia). reflexivity.
  - apply Z.ltb_ge in Hneg.
    assert ((sz * 6 <? 0) = false) as -> by (apply Z.ltb_ge; lia).
    assert ((sz * 36 <? 0) = false) as -> by (apply Z.ltb_ge; lia). reflexivity.
Qed.

Lemma New_result_witness :
  New (-3) = if -3 <? 0 then None
             else Some (mkStream (-3) (mkKeys ∅ []) (replicate (Z.to_nat (-3 * 36)) 0)).
Proof. apply (New_result (-3)). unfold GoInt.max_int. lia. Defined.

(** X13.  [New 0] returns a sketch without room and without filter: on
    it [Keys] returns the empty list and [Merge] with itself returns
    [nil], but [Insert] panics for every key and weight, and so does
    [Estimate] for every key, on the read of the filter. *)
Theorem New_zero_unusable hash :
  exists s0,
    New 0 = Some s0 /\ Keys s0 = Some ([], s0) /\ Merge hash s0 s0 = MergeOk s0 /\
    (forall x w, Insert hash s0 x w = None) /\
    (forall x, Estimate hash s0 x = None).
Proof.
  exists (mkStream 0 (mkKeys ∅ []) []). split_and!.
  - reflexivity.
  - reflexivity.
  - vm_compute. reflexivity.
  - intros x w. unfold Insert. cbn [k m elts alphas n].
    rewrite lookup_empty.
    change (Z.of_nat (length []) <? int_mul 0 bufMultiplier) with false. cbv iota.
    unfold index. destruct (bucket hash _ x <? 0); [reflexivity|].
    by rewrite lookup_nil.
  - intros x. unfold Estimate. cbn [k m elts alphas n]. rewrite lookup_empty.
    unfold index. destruct (bucket hash _ x <? 0); [reflexivity|].
    by rewrite lookup_nil.
Qed.

(** ** [Keys] *)

(** X14.  [Keys] panics exactly when the size of the sketch is negative,
    as the sketch read from a corrupt encoding can be: the slice
    expression [elts[:n]] is then out of range, even on an empty
    monitored set. *)
Theorem Keys_panics_iff_negative s : Keys s = None <-> n s < 0.
Proof.
  unfold Keys, trim. split.
  - destruct (n s <? Z.of_nat (length (sortByCountDescending (elts (k s))))) eqn:Hlt;
      [|discriminate].
    destruct (n s <? 0) eqn:Hneg; [|discriminate]. intros _. by apply Z.ltb_lt.
  - intros Hneg.
    assert ((n s <? Z.of_nat (length (sortByCountDescending (elts (k s))))) = true) as ->
      by (apply Z.ltb_lt; lia).
    assert ((n s <? 0) = true) as -> by (by apply Z.ltb_lt). reflexivity.
Qed.

(** X15.  The elements [Keys] returns are the largest of the monitored
    set: every element returned comes, in the order by [Count]
    descending and [Key] ascending, before every monitored element that
    is not returned, so its [Count] is at least as large. *)
Theorem Keys_are_the_largest s :
  0 <= n s ->
  exists ks,
    Keys s = Some (ks, s) /\
    length ks = Nat.min (Z.to_nat (n s)) (length (elts (k s))) /\
    (forall e, e ∈ ks -> e ∈ elts (k s)) /\
    (forall e b, e ∈ ks -> b ∈ elts (k s) -> b ∉ ks ->
       countDescending e b /\ Count b <= Count e).
Proof.
  intros Hn. set (l := sortByCountDescending (elts (k s))).
  exists (take (Z.to_nat (n s)) l). split_and!.
  - by apply Keys_take.
  - rewrite length_take. unfold l.
    by rewrite (Permutation_length (sortByCountDescending_Permutation _)).
  - intros e He. apply elem_of_take_1 in He. unfold l in He.
    by rewrite sortByCountDescending_Permutation in He.
  - intros e b He Hb Hnot.
    assert (Hdrop : b ∈ drop (Z.to_nat (n s)) l).
    { rewrite <- (sortByCountDescending_Permutation (elts (k s))) in Hb. fold l in Hb.
      rewrite <- (take_drop (Z.to_nat (n s)) l) in Hb.
      apply elem_of_app in Hb as [Hb|Hb]; [done|done]. }
    pose proof (sortByCountDescending_sorted (elts (k s))) as Hs. fold l in Hs.
    rewrite <- (take_drop (Z.to_nat (n s)) l) in Hs.
    pose proof (StronglySorted_app_1_elem_of _ _ _ e b Hs He Hdrop) as Hd.
    split; [done|]. destruct Hd as [?|[? _]]; lia.
Qed.

Lemma Keys_are_the_largest_witness :
  let s := mkStream 2 (mkKeys ∅ [mkElement "b" 3 0; mkElement "c" 7 1; mkElement "a" 3 0]) [] in
  exists ks,
    Keys s = Some (ks, s) /\
    length ks = Nat.min (Z.to_nat (n s)) (length (elts (k s))) /\
    (forall e, e ∈ ks -> e ∈ elts (k s)) /\
    (forall e b, e ∈ ks -> b ∈ elts (k s) -> b ∉ ks ->
       countDescending e b /\ Count b <= Count e).
Proof.
  intros s. apply (Keys_are_the_largest s). simpl. lia.
Defined.

(** X16.  On a sketch built by [New], [Insert] and [Merge], [Keys]
    returns elements with distinct keys, each of them the element
    [Estimate] returns for its key; and the list is determined by the
    order alone, whatever [sort.Sort] does with it: it is the first [n]
    elements of any arrangement of the monitored elements in which no
    element is [Less] than one before it. *)
Theorem Keys_agree_with_Estimate hash s :
  reachable hash s ->
  exists ks,
    Keys s = Some (ks, s) /\ NoDup (Key <$> ks) /\
    (forall e, e ∈ ks -> Estimate hash s (Key e) = Some e) /\
    (forall l, l ≡ₚ elts (k s) -> Sorted countDescOrder l -> ks = take (Z.to_nat (n s)) l).
Proof.
  intros Hr. pose proof (reachable_Inv hash s Hr) as HI.
  pose proof (inv_n _ HI) as Hn.
  exists (take (Z.to_nat (n s)) (sortByCountDescending (elts (k s)))). split_and!.
  - apply Keys_take. lia.
  - rewrite fmap_take. eapply sublist_NoDup; [|apply sublist_take].
    rewrite sortByCountDescending_Permutation. apply indexed_NoDup, HI.
  - intros e He. apply elem_of_take_1 in He.
    rewrite sortByCountDescending_Permutation in He. by apply Estimate_elem.
  - intros l Hp Hs. f_equal. symmetry.
    apply sortByCountDescending_unique; [apply indexed_NoDup, HI|done|done].
Qed.

Lemma Keys_agree_with_Estimate_witness :
  exists s, sketchOf lengthHash 1 [("a", 5); ("b", 3); ("a", 2)] = Some s /\
  exists ks,
    Keys s = Some (ks, s) /\ NoDup (Key <$> ks) /\
    (forall e, e ∈ ks -> Estimate lengthHash s (Key e) = Some e) /\
    (forall l, l ≡ₚ elts (k s) -> Sorted countDescOrder l -> ks = take (Z.to_nat (n s)) l).
Proof.
  eexists. split; [reflexivity|].
  apply (Keys_agree_with_Estimate lengthHash).
  apply (sketchOf_reachable lengthHash 1 [("a", 5); ("b", 3); ("a", 2)]);
    [lia|unfold GoInt.max_int; lia|reflexivity].
Defined.

(** ** [Merge]: the result, the filter and the panics *)

Lemma addAlphas_lookup o : forall a r,
  addAlphas a o = Some r ->
  length r = length a /\ (length o <= length a)%nat /\
  forall i x, a !! i = Some x ->
    r !! i = Some (match o !! i with Some v => GoInt.add x v | None => x end).
Proof.
  induction o as [|v o IH]; intros a r H.
  - destruct a; injection H as <-; (split; [done|]); (split; [cbn; lia|]); intros i x Hx;
      by rewrite lookup_nil.
  - destruct a as [|x0 a]; [discriminate|]. cbn [addAlphas] in H.
    destruct (addAlphas a o) as [r'|] eqn:Hr; [|discriminate]. cbn in H. injection H as <-.
    destruct (IH a r' Hr) as (Hlen & Hle & Hlk). split_and!.
    + cbn. by rewrite Hlen.
    + cbn. lia.
    + intros [|i] x Hx.
      * cbn in Hx. injection Hx as <-. reflexivity.
      * cbn in Hx. cbn. by apply Hlk.
Qed.

Lemma addAlphas_longer o : forall a, (length a < length o)%nat -> addAlphas a o = None.
Proof.
  induction o as [|v o IH]; intros a H; [cbn in H; lia|].
  destruct a as [|x0 a]; [reflexivity|]. cbn in H. cbn [addAlphas].
  rewrite IH by lia. reflexivity.
Qed.

(** X17.  [Merge] returns its error exactly when the two sketches have
    different sizes; with equal sizes it returns [nil] or panics, and
    it panics when the filter of [other] is longer than the receiver's:
    the loop that adds the filters writes past the end of the
    receiver's slice. *)
Theorem Merge_error_iff hash s other :
  (Merge hash s other = MergeError <-> n s <> n other) /\
  (n s = n other -> (length (alphas s) < length (alphas other))%nat ->
   Merge hash s other = MergePanic).
Proof.
  unfold Merge. destruct (n s =? n other) eqn:Hn; cbn [negb].
  - apply Z.eqb_eq in Hn. split.
    + split; [|done].
      destruct (mergeMap hash s other); [|discriminate].
      destruct (trim _ _); [|discriminate].
      destruct (addAlphas _ _); discriminate.
    + intros _ Hlen.
      destruct (mergeMap hash s other); [|reflexivity].
      destruct (trim _ _); [|reflexivity].
      by rewrite addAlphas_longer.
  - apply Z.eqb_neq in Hn. done.
Qed.

(** X18.  When [Merge] returns [nil], the size of the receiver is kept,
    the filter of [other] is no longer than the receiver's, and every
    counter of the receiver's filter has the counter of [other] at the
    same index added to it, with [int] wrap-around; counters beyond the
    length of [other]'s filter stay. *)
Theorem Merge_adds_filters hash s other s' :
  Merge hash s other = MergeOk s' ->
  n s' = n s /\ n s = n other /\
  length (alphas s') = length (alphas s) /\
  (length (alphas other) <= length (alphas s))%nat /\
  forall i a, alphas s !! i = Some a ->
    alphas s' !! i
    = Some (match alphas other !! i with Some b => GoInt.add a b | None => a end).
Proof.
  unfold Merge. destruct (n s =? n other) eqn:Hn; cbn [negb]; [|discriminate].
  apply Z.eqb_eq in Hn.
  destruct (mergeMap hash s other); [|discriminate].
  destruct (trim _ _); [|discriminate].
  destruct (addAlphas _ _) as [al|] eqn:Hal; [|discriminate].
  intros H. injection H as <-. cbn [n alphas].
  destruct (addAlphas_lookup _ _ _ Hal) as (H1 & H2 & H3). by split_and!.
Qed.

Lemma Merge_adds_filters_witness :
  let s := mkStream 1 (mkKeys ∅ []) [1; 2; 3] in
  let other := mkStream 1 (mkKeys ∅ []) [10; 20] in
  let s' := mkStream 1 (mkKeys ∅ []) [11; 22; 3] in
  n s' = n s /\ n s = n other /\
  length (alphas s') = length (alphas s) /\
  (length (alphas other) <= length (alphas s))%nat /\
  forall i a, alphas s !! i = Some a ->
    alphas s' !! i
    = Some (match alphas other !! i with Some b => GoInt.add a b | None => a end).
Proof.
  intros s other s'. apply (Merge_adds_filters lengthHash s other s').
  vm_compute. reflexivity.
Defined.

(** X19.  [Merge] of two sketches of the same size returns [nil], and
    every element of the merged monitored set is the combination the
    loop over the keys computes: for a key both sides monitor, the sum
    of the two [Count]s and of the two [Error]s; for a key only one side
    monitors, that side's [Count] and [Error], each plus the counter of
    the key's bucket in the filter of [other], on whichever side the key
    is monitored. *)
Theorem Merge_element_estimates hash s other :
  reachable hash s -> reachable hash other -> n s = n other ->
  exists s',
    Merge hash s other = MergeOk s' /\
    forall e, e ∈ elts (k s') ->
      exists b, index (alphas other) (bucket hash s (Key e)) = Some b /\
      (forall e1 e2, e1 ∈ elts (k s) -> e2 ∈ elts (k other) ->
         Key e1 = Key e -> Key e2 = Key e ->
         e = mkElement (Key e) (GoInt.add (Count e1) (Count e2))
                       (GoInt.add (Error e1) (Error e2))) /\
      (forall e1, e1 ∈ elts (k s) -> Key e1 = Key e -> m (k other) !! Key e = None ->
         e = mkElement (Key e) (GoInt.add (Count e1) b) (GoInt.add (Error e1) b)) /\
      (forall e2, e2 ∈ elts (k other) -> Key e2 = Key e -> m (k s) !! Key e = None ->
         e = mkElement (Key e) (GoInt.add (Count e2) b) (GoInt.add (Error e2) b)).
Proof.
  intros Hs Ho Hn.
  pose proof (reachable_Inv hash s Hs) as HI. pose proof (reachable_Inv hash other Ho) as HO.
  destruct (Merge_spec hash s other HI HO Hn)
    as (em & al & s' & Hm & _ & Hmerge & _ & _ & _ & Hp).
  exists s'. split; [done|]. intros e He.
  rewrite Hp in He. apply elem_of_take_1 in He.
  rewrite sortByCountDescending_Permutation in He.
  apply list_elem_of_fmap in He as ([key e'] & -> & Hin). cbn [snd].
  apply elem_of_map_to_list in Hin.
  destruct (mergeMap_entries hash s other em HI HO Hn Hm key e' Hin) as (Hke & _ & Hentry).
  destruct (mergeEntry_spec hash s other key HI HO Hn) as (b & r & Hb & Hr & Hcase).
  rewrite Hentry in Hr. injection Hr as <-. rewrite Hke.
  assert (Hsame : forall (t : Stream) a1 a2, Inv t -> a1 ∈ elts (k t) -> a2 ∈ elts (k t) ->
            Key a1 = key -> Key a2 = key -> a1 = a2).
  { intros t a1 a2 Ht H1 H2 K1 K2.
    apply (NoDup_Key_eq (elts (k t))); [by apply indexed_NoDup, Ht|done|done|congruence]. }
  assert (Hin1 : forall e1, e1 ∈ elts (k s) -> Key e1 = key -> is_Some (m (k s) !! key)).
  { intros e1 H1 K1. apply (indexed_tracked _ _ (inv_index _ HI)). rewrite <- K1.
    by apply list_elem_of_fmap_2. }
  assert (Hin2 : forall e2, e2 ∈ elts (k other) -> Key e2 = key -> is_Some (m (k other) !! key)).
  { intros e2 H2 K2. apply (indexed_tracked _ _ (inv_index _ HO)). rewrite <- K2.
    by apply list_elem_of_fmap_2. }
  exists b. split; [done|]. split_and!.
  - intros e1 e2 H1 H2 K1 K2.
    destruct (Hin1 e1 H1 K1) as [i1 M1]. destruct (Hin2 e2 H2 K2) as [i2 M2].
    rewrite M1, M2 in Hcase. destruct Hcase as (a1 & a2 & A1 & KA1 & A2 & KA2 & Heq).
    injection Heq as ->.
    by rewrite (Hsame s a1 e1 HI A1 H1 KA1 K1), (Hsame other a2 e2 HO A2 H2 KA2 K2).
  - intros e1 H1 K1 M2. destruct (Hin1 e1 H1 K1) as [i1 M1].
    rewrite M1, M2 in Hcase. destruct Hcase as (a1 & A1 & KA1 & Heq).
    injection Heq as ->. by rewrite (Hsame s a1 e1 HI A1 H1 KA1 K1).
  - intros e2 H2 K2 M1. destruct (Hin2 e2 H2 K2) as [i2 M2].
    rewrite M1, M2 in Hcase. destruct Hcase as (a2 & A2 & KA2 & Heq).
    injection Heq as ->. by rewrite (Hsame other a2 e2 HO A2 H2 KA2 K2).
Qed.

Lemma Merge_element_estimates_witness :
  exists s other,
    sketchOf lengthHash 2 [("a", 5); ("b", 3)] = Some s /\
    sketchOf lengthHash 2 [("a", 4); ("c", 1)] = Some other /\
    exists s',
      Merge lengthHash s other = MergeOk s' /\
      forall e, e ∈ elts (k s') ->
        exists b, index (alphas other) (bucket lengthHash s (Key e)) = Some b /\
        (forall e1 e2, e1 ∈ elts (k s) -> e2 ∈ elts (k other) ->
           Key e1 = Key e -> Key e2 = Key e ->
           e = mkElement (Key e) (GoInt.add (Count e1) (Count e2))
                         (GoInt.add (Error e1) (Error e2))) /\
        (forall e1, e1 ∈ elts (k s) -> Key e1 = Key e -> m (k other) !! Key e = None ->
           e = mkElement (Key e) (GoInt.add (Count e1) b) (GoInt.add (Error e1) b)) /\
        (forall e2, e2 ∈ elts (k other) -> Key e2 = Key e -> m (k s) !! Key e = None ->
           e = mkElement (Key e) (GoInt.add (Count e2) b) (GoInt.add (Error e2) b)).
Proof.
  eexists _, _. split; [reflexivity|]. split; [reflexivity|].
  apply (Merge_element_estimates lengthHash).
  - apply (sketchOf_reachable lengthHash 2 [("a", 5); ("b", 3)]);
      [lia|unfold GoInt.max_int; lia|reflexivity].
  - apply (sketchOf_reachable lengthHash 2 [("a", 4); ("c", 1)]);
      [lia|unfold GoInt.max_int; lia|reflexivity].
  - reflexivity.
Defined.

Lemma add_zero a : GoInt.in_range a -> GoInt.add a 0 = a.
Proof. intros H. unfold GoInt.add. rewrite Z.add_0_r. by apply wrap_in_range. Qed.

(** X20.  [Merge] with the empty sketch [New sz] as [other] keeps the
    filter and keeps the [sz] largest monitored elements as they are,
    so [Keys] answers as before; the monitored elements beyond the
    first [sz] are dropped. *)
Theorem Merge_with_empty_sketch hash sz hist :
  1 <= sz -> sz * 36 <= GoInt.max_int -> validStream hist ->
  exists s other s',
    sketchOf hash sz hist = Some s /\ New sz = Some other /\
    Merge hash s other = MergeOk s' /\
    n s' = n s /\ alphas s' = alphas s /\
    elts (k s') ≡ₚ take (Z.to_nat sz) (sortByCountDescending (elts (k s))) /\
    length (elts (k s')) = Nat.min (Z.to_nat sz) (length (elts (k s))) /\
    Keys s' = Some (take (Z.to_nat sz) (sortByCountDescending (elts (k s))), s') /\
    Keys s = Some (take (Z.to_nat sz) (sortByCountDescending (elts (k s))), s).
Proof.
  intros H1 H2 Hv.
  destruct (sketchOf_Error_le hash sz hist H1 H2 Hv) as (s & Hs & HI & HB & Hn & Hle).
  destruct (New_Inv sz H1 H2) as (o & Ho & HO & Hno & Helo & Halo).
  assert (Hnn : n s = n o) by congruence.
  destruct (Merge_spec hash s o HI HO Hnn)
    as (em & al & s' & Hm & Hadd & Hmerge & HI' & Hn' & Hal' & Hp).
  assert (Hmax : totalWeight hist <= GoInt.max_int) by apply Hv.
  assert (Hrange : forall e, e ∈ elts (k s) ->
            GoInt.in_range (Count e) /\ GoInt.in_range (Error e)).
  { intros e He. destruct (b_elts hash _ _ HB e He) as ([Hlo _] & Hhi & Herr).
    pose proof (Hle e He). pose proof (trueWeight_bounds hist (Key e) (proj1 Hv)).
    unfold GoInt.in_range, GoInt.min_int, GoInt.max_int in *. lia. }
  assert (Hmo : forall key, m (k o) !! key = None).
  { intros key. apply (untracked_iff _ _ (inv_index _ HO)). intros e He.
    rewrite Helo in He. by apply elem_of_nil in He. }
  (* the merged estimates are the monitored elements of the receiver *)
  assert (Hval : forall key e, em !! key = Some e -> e ∈ elts (k s) /\ Key e = key).
  { intros key e He.
    destruct (mergeMap_entries hash s o em HI HO Hnn Hm key e He) as (Hke & _ & Hentry).
    destruct (mergeEntry_spec hash s o key HI HO Hnn) as (b & r & Hb & Hr & Hcase).
    rewrite Hentry in Hr. injection Hr as <-. rewrite Hmo in Hcase.
    rewrite Halo in Hb. apply index_replicate in Hb. subst b.
    destruct (m (k s) !! key); [|done].
    destruct Hcase as (e1 & Hin1 & Hk1 & Heq). injection Heq as ->.
    destruct (Hrange e1 Hin1) as [Hc He1]. rewrite !add_zero by done.
    split; [|done]. rewrite <- Hk1. by destruct e1. }
  assert (Hperm : (snd <$> map_to_list em) ≡ₚ elts (k s)).
  { apply NoDup_Permutation.
    - eapply NoDup_fmap_1. by apply (mergeMap_NoDup hash s o em).
    - eapply NoDup_fmap_1. apply indexed_NoDup, HI.
    - intros e. split.
      + intros ([key e'] & -> & Hin)%list_elem_of_fmap. cbn [snd].
        apply elem_of_map_to_list in Hin. by destruct (Hval key e' Hin).
      + intros He.
        assert (Hdom : Key e ∈ dom em).
        { rewrite (mergeMap_dom hash s o em HI HO Hnn Hm). unfold mergeKeys.
          rewrite elem_of_union, elem_of_list_to_set. left. by apply list_elem_of_fmap_2. }
        apply elem_of_dom in Hdom as [e' He'].
        destruct (Hval _ _ He') as [Hin' Hk'].
        assert (e' = e) as ->
          by (apply (NoDup_Key_eq (elts (k s))); [apply indexed_NoDup, HI|done..]).
        apply list_elem_of_fmap. exists (Key e, e). split; [done|].
        by apply elem_of_map_to_list. }
  assert (Hsort : sortByCountDescending (snd <$> map_to_list em)
                  = sortByCountDescending (elts (k s))).
  { apply sortByCountDescending_unique.
    - apply indexed_NoDup, HI.
    - by rewrite sortByCountDescending_Permutation.
    - apply (Sorted_merge_sort countDescOrder). }
  rewrite Hsort, Hn in Hp.
  (* the filter *)
  assert (Hals : al = alphas s).
  { destruct (addAlphas_lookup _ _ _ Hadd) as (Hlen & _ & Hlk).
    apply list_eq_same_length with (length (alphas s)); [done..|].
    intros i x y _ Hx Hy. rewrite (Hlk i y Hy) in Hx. injection Hx as <-.
    destruct (b_alphas hash _ _ HB y (list_elem_of_lookup_2 _ _ _ Hy)) as [[? ?] _].
    destruct (alphas o !! i) as [v|] eqn:Hv0; [|done].
    rewrite Halo in Hv0. apply lookup_replicate in Hv0 as [-> _].
    apply add_zero. unfold GoInt.in_range, GoInt.min_int, GoInt.max_int in *. lia. }
  set (L := sortByCountDescending (elts (k s))) in *.
  assert (Hks' : sortByCountDescending (elts (k s')) = take (Z.to_nat sz) L).
  { symmetry. apply sortByCountDescending_unique.
    - apply indexed_NoDup, HI'.
    - by rewrite Hp.
    - apply StronglySorted_Sorted, StronglySorted_take.
      apply (StronglySorted_merge_sort countDescOrder). }
  exists s, o, s'. split_and!; try done; try congruence.
  - rewrite (Permutation_length Hp), length_take. unfold L.
    by rewrite (Permutation_length (sortByCountDescending_Permutation _)).
  - rewrite Keys_take by lia. rewrite Hks', Hn', Hn, take_take. do 3 f_equal. lia.
  - rewrite Keys_take by lia. by rewrite Hn.
Qed.

Lemma Merge_with_empty_sketch_witness :
  exists s other s',
    sketchOf lengthHash 1 [("a", 5); ("b", 3); ("a", 2)] = Some s /\ New 1 = Some other /\
    Merge lengthHash s other = MergeOk s' /\
    n s' = n s /\ alphas s' = alphas s /\
    elts (k s') ≡ₚ take (Z.to_nat 1) (sortByCountDescending (elts (k s))) /\
    length (elts (k s')) = Nat.min (Z.to_nat 1) (length (elts (k s))) /\
    Keys s' = Some (take (Z.to_nat 1) (sortByCountDescending (elts (k s))), s') /\
    Keys s = Some (take (Z.to_nat 1) (sortByCountDescending (elts (k s))), s).
Proof.
  apply (Merge_with_empty_sketch lengthHash 1 [("a", 5); ("b", 3); ("a", 2)]).
  - lia.
  - unfold GoInt.max_int. lia.
  - split.
    + repeat constructor; simpl; lia.
    + unfold GoInt.max_int. simpl. lia.
Defined.

Lemma trueWeight_app h1 h2 y : trueWeight (h1 ++ h2) y = trueWeight h1 y + trueWeight h2 y.
Proof.
  unfold trueWeight. induction h1 as [|[x w] h1 IH]; cbn [app foldr fst snd]; [lia|].
  rewrite IH. destruct (decide (x = y)); lia.
Qed.

Lemma totalWeight_app h1 h2 : totalWeight (h1 ++ h2) = totalWeight h1 + totalWeight h2.
Proof.
  unfold totalWeight. induction h1 as [|[x w] h1 IH]; cbn [app foldr fst snd]; [lia|].
  rewrite IH. lia.
Qed.

Lemma totalWeight_nonneg h : Forall (fun kw : string * Z => 1 <= kw.2) h -> 0 <= totalWeight h.
Proof.
  unfold totalWeight. induction 1 as [|[x w] h Hw _ IH]; cbn [foldr fst snd] in *; lia.
Qed.

Lemma validStream_app h1 h2 :
  validStream (h1 ++ h2) -> validStream h1 /\ validStream h2.
Proof.
  intros [Hall Htot]. apply Forall_app in Hall as [A1 A2].
  rewrite totalWeight_app in Htot.
  pose proof (totalWeight_nonneg h1 A1). pose proof (totalWeight_nonneg h2 A2).
  split; (split; [done|lia]).
Qed.

(** X21.  [Merge] of two sketches of the same size that both still have
    room is exact: every element of the merged monitored set has the
    weight inserted for its key on both sides together as [Count] and
    [Error] zero, and the merged filter is all zero. *)
Theorem Merge_of_exact_sketches hash sz hist1 hist2 :
  1 <= sz -> sz * 36 <= GoInt.max_int -> validStream (hist1 ++ hist2) ->
  exists s other s',
    sketchOf hash sz hist1 = Some s /\ sketchOf hash sz hist2 = Some other /\
    Merge hash s other = MergeOk s' /\
    (Z.of_nat (length (elts (k s))) < sz * bufMultiplier ->
     Z.of_nat (length (elts (k other))) < sz * bufMultiplier ->
     (forall e, e ∈ elts (k s') ->
        Count e = trueWeight (hist1 ++ hist2) (Key e) /\ Error e = 0) /\
     (forall a, a ∈ alphas s' -> a = 0)).
Proof.
  intros H1 H2 Hv. destruct (validStream_app _ _ Hv) as [Hv1 Hv2].
  destruct (sketchOf_exact hash sz hist1 H1 H2 Hv1) as (s & Hs & HI & HB & Hn & Hex).
  destruct (sketchOf_exact hash sz hist2 H1 H2 Hv2) as (o & Ho & HO & HBo & Hno & Hexo).
  assert (Hnn : n s = n o) by congruence.
  destruct (Merge_spec hash s o HI HO Hnn)
    as (em & al & s' & Hm & Hadd & Hmerge & HI' & Hn' & Hal' & Hp).
  exists s, o, s'. split_and!; try done. intros Hroom Hroomo.
  assert (Hfs : forall a, a ∈ alphas s -> a = 0)
    by (apply (b_free hash _ _ HB); by rewrite Hn).
  assert (Hfo : forall a, a ∈ alphas o -> a = 0)
    by (apply (b_free hash _ _ HBo); by rewrite Hno).
  assert (Hlen : length (alphas o) = length (alphas s)).
  { pose proof (inv_alphas _ HI). pose proof (inv_alphas _ HO). lia. }
  assert (Hexact : forall hist t e, Bounds hash hist t ->
            (forall b, b ∈ elts (k t) -> Error b = 0) -> e ∈ elts (k t) ->
            Count e = trueWeight hist (Key e) /\ Error e = 0).
  { intros hist t e HBt Hz He. pose proof (Hz e He).
    destruct (b_elts hash _ _ HBt e He) as ([? ?] & _). split; [lia|done]. }
  assert (Hzero : forall hist t key, Inv t -> Bounds hash hist t ->
            Forall (fun kw : string * Z => 1 <= kw.2) hist ->
            (forall a, a ∈ alphas t -> a = 0) -> m (k t) !! key = None ->
            trueWeight hist key = 0).
  { intros hist t key HIt HBt Hpos Hz Hnone.
    destruct (Estimate_untracked hash t key HIt Hnone) as (a & Ha & _).
    pose proof (b_untracked hash _ _ HBt key a Hnone Ha).
    pose proof (Hz a (index_elem_of _ _ _ Ha)).
    pose proof (trueWeight_bounds hist key Hpos). lia. }
  split.
  - intros e He. rewrite Hp in He. apply elem_of_take_1 in He.
    rewrite sortByCountDescending_Permutation in He.
    apply list_elem_of_fmap in He as ([key e'] & -> & Hin). cbn [snd].
    apply elem_of_map_to_list in Hin.
    destruct (mergeMap_entries hash s o em HI HO Hnn Hm key e' Hin) as (Hke & _ & Hentry).
    destruct (mergeEntry_spec hash s o key HI HO Hnn) as (b & r & Hb & Hr & Hcase).
    rewrite Hentry in Hr. injection Hr as <-.
    pose proof (Hfo b (index_elem_of _ _ _ Hb)) as ->.
    rewrite trueWeight_app, Hke.
    pose proof (trueWeight_bounds (hist1 ++ hist2) key (proj1 Hv)) as Hsum.
    rewrite trueWeight_app in Hsum.
    pose proof (trueWeight_bounds hist1 key (proj1 Hv1)).
    pose proof (trueWeight_bounds hist2 key (proj1 Hv2)).
    destruct Hv as [_ Hmax].
    destruct (m (k s) !! key) eqn:Ms; destruct (m (k o) !! key) eqn:Mo.
    + destruct Hcase as (e1 & e2 & Hin1 & Hk1 & Hin2 & Hk2 & Heq). injection Heq as ->.
      destruct (Hexact hist1 s e1 HB (Hex Hroom) Hin1) as [C1 E1].
      destruct (Hexact hist2 o e2 HBo (Hexo Hroomo) Hin2) as [C2 E2].
      cbn [Count Error]. rewrite C1, C2, E1, E2, Hk1, Hk2.
      rewrite !add_small by lia. lia.
    + destruct Hcase as (e1 & Hin1 & Hk1 & Heq). injection Heq as ->.
      destruct (Hexact hist1 s e1 HB (Hex Hroom) Hin1) as [C1 E1].
      pose proof (Hzero hist2 o key HO HBo (proj1 Hv2) Hfo Mo).
      cbn [Count Error]. rewrite C1, E1, Hk1. rewrite !add_small by lia. lia.
    + destruct Hcase as (e2 & Hin2 & Hk2 & Heq). injection Heq as ->.
      destruct (Hexact hist2 o e2 HBo (Hexo Hroomo) Hin2) as [C2 E2].
      pose proof (Hzero hist1 s key HI HB (proj1 Hv1) Hfs Ms).
      cbn [Count Error]. rewrite C2, E2, Hk2. rewrite !add_small by lia. lia.
    + done.
  - intros a Ha. rewrite Hal' in Ha.
    destruct (addAlphas_lookup _ _ _ Hadd) as (Hlen' & _ & Hlk).
    apply list_elem_of_lookup in Ha as [i Hi].
    destruct (lookup_lt_is_Some_2 (alphas s) i) as [x Hx];
      [rewrite <- Hlen'; by eapply lookup_lt_Some|].
    rewrite (Hlk i x Hx) in Hi. injection Hi as <-.
    pose proof (Hfs x (list_elem_of_lookup_2 _ _ _ Hx)) as ->.
    destruct (alphas o !! i) as [v|] eqn:Hv0; [|done].
    pose proof (Hfo v (list_elem_of_lookup_2 _ _ _ Hv0)) as ->. reflexivity.
Qed.

Lemma Merge_of_exact_sketches_witness :
  exists s other s',
    sketchOf lengthHash 2 [("a", 5); ("b", 3)] = Some s /\
    sketchOf lengthHash 2 [("a", 4); ("c", 1)] = Some other /\
    Merge lengthHash s other = MergeOk s' /\
    (Z.of_nat (length (elts (k s))) < 2 * bufMultiplier ->
     Z.of_nat (length (elts (k other))) < 2 * bufMultiplier ->
     (forall e, e ∈ elts (k s') ->
        Count e = trueWeight ([("a", 5); ("b", 3)] ++ [("a", 4); ("c", 1)]) (Key e) /\
        Error e = 0) /\
     (forall a, a ∈ alphas s' -> a = 0)).
Proof.
  apply (Merge_of_exact_sketches lengthHash 2 [("a", 5); ("b", 3)] [("a", 4); ("c", 1)]).
  - lia.
  - unfold GoInt.max_int. lia.
  - split.
    + repeat constructor; simpl; lia.
    + unfold GoInt.max_int. simpl. lia.
Defined.

(** ** The encoding: layout, trailing data, truncation *)

(** X22.  [Encode] writes the size, the filter as an array with its
    length, the key-to-slot map as a map with its size, in the order of
    iteration, and the monitored elements as an array with its length,
    each element as key, [Count], [Error]: four values, one per filter
    counter, two per map entry and three per element. *)
Theorem Encode_layout order s :
  Encode order s
  = [TInt (n s); TArrayHeader (GoInt.to_uint32 (Z.of_nat (length (alphas s))))]
    ++ (TInt <$> alphas s)
    ++ [TMapHeader (GoInt.to_uint32 (Z.of_nat (size (m (k s)))))]
    ++ entryTokens order
    ++ [TArrayHeader (GoInt.to_uint32 (Z.of_nat (length (elts (k s)))))]
    ++ elementTokens (elts (k s)) /\
  length (Encode order s)
  = (4 + length (alphas s) + 2 * length order + 3 * length (elts (k s)))%nat.
Proof.
  assert (Hen : forall l : list (string * Z), length (entryTokens l) = (2 * length l)%nat).
  { induction l as [|kv l IH]; [done|]. unfold entryTokens in *. cbn [mbind list_bind] in *.
    rewrite length_app, IH. cbn. lia. }
  assert (Hel : forall l : list Element, length (elementTokens l) = (3 * length l)%nat).
  { induction l as [|e l IH]; [done|]. unfold elementTokens in *. cbn [mbind list_bind] in *.
    rewrite length_app, IH. cbn. lia. }
  assert (Heq : Encode order s
    = [TInt (n s); TArrayHeader (GoInt.to_uint32 (Z.of_nat (length (alphas s))))]
      ++ (TInt <$> alphas s)
      ++ [TMapHeader (GoInt.to_uint32 (Z.of_nat (size (m (k s)))))]
      ++ entryTokens order
      ++ [TArrayHeader (GoInt.to_uint32 (Z.of_nat (length (elts (k s)))))]
      ++ elementTokens (elts (k s))).
  { unfold Encode, Stream_EncodeMsgp, keys_EncodeMsgp.
    unfold WriteMapHeader, WriteArrayHeader.
    rewrite write_elements, write_entries, write_ints. unfold WriteInt, WriteArrayHeader.
    cbn [app]. by rewrite <- !app_assoc. }
  split; [exact Heq|]. rewrite Heq.
  rewrite !length_app, length_fmap, Hen, Hel. cbn [length]. lia.
Qed.

(** X23.  [Decode] reads a sketch from the front of its input and
    leaves what follows unread: decoding an encoding followed by any
    further data gives back the sketch. *)
Theorem Decode_ignores_trailing_data s order rest :
  order ≡ₚ map_to_list (m (k s)) ->
  Z.of_nat (length (alphas s)) < 2 ^ 32 ->
  Z.of_nat (size (m (k s))) < 2 ^ 32 -> Z.of_nat (length (elts (k s))) < 2 ^ 32 ->
  Stream_DecodeMsgp (Encode order s ++ rest) = Some (s, rest) /\
  Decode (Encode order s ++ rest) = Some s.
Proof.
  intros Hp Hal Hsz Hlen.
  pose proof (Stream_roundtrip s order rest Hp Hal Hsz Hlen) as Hr.
  split; [exact Hr|]. unfold Decode, Encode. by rewrite Hr.
Qed.

Lemma Decode_ignores_trailing_data_witness :
  let s := mkStream 1 (mkKeys {[ "a" := 0 ]} [mkElement "a" 5 0]) [0; 2] in
  Stream_DecodeMsgp (Encode [("a", 0)] s ++ [TInt 7; TString "x"])
    = Some (s, [TInt 7; TString "x"]) /\
  Decode (Encode [("a", 0)] s ++ [TInt 7; TString "x"]) = Some s.
Proof.
  intros s. apply (Decode_ignores_trailing_data s [("a", 0)] [TInt 7; TString "x"]).
  - vm_compute. reflexivity.
  - simpl. lia.
  - vm_compute. reflexivity.
  - simpl. lia.
Defined.

Lemma ReadInt_app r z r' suf :
  ReadInt r = Some (z, r') -> ReadInt (r ++ suf) = Some (z, r' ++ suf).
Proof. destruct r as [|[] r0]; try discriminate. intros H. by injection H as <- <-. Qed.

Lemma ReadString_app r z r' suf :
  ReadString r = Some (z, r') -> ReadString (r ++ suf) = Some (z, r' ++ suf).
Proof. destruct r as [|[] r0]; try discriminate. intros H. by injection H as <- <-. Qed.

Lemma ReadMapHeader_app r z r' suf :
  ReadMapHeader r = Some (z, r') -> ReadMapHeader (r ++ suf) = Some (z, r' ++ suf).
Proof. destruct r as [|[] r0]; try discriminate. intros H. by injection H as <- <-. Qed.

Lemma ReadArrayHeader_app r z r' suf :
  ReadArrayHeader r = Some (z, r') -> ReadArrayHeader (r ++ suf) = Some (z, r' ++ suf).
Proof. destruct r as [|[] r0]; try discriminate. intros H. by injection H as <- <-. Qed.

Lemma readInts_app suf cnt : forall r l r',
  readInts cnt r = Some (l, r') -> readInts cnt (r ++ suf) = Some (l, r' ++ suf).
Proof.
  induction cnt as [|cnt IH]; intros r l r' H; cbn [readInts] in *.
  - by injection H as <- <-.
  - destruct (ReadInt r) as [[a r1]|] eqn:E1; [|discriminate].
    rewrite (ReadInt_app _ _ _ suf E1). cbn [mbind option_bind] in *.
    destruct (readInts cnt r1) as [[l1 r2]|] eqn:E2; [|discriminate].
    rewrite (IH _ _ _ E2). cbn [mbind option_bind] in *. by injection H as <- <-.
Qed.

Lemma readEntries_app suf cnt : forall mp r mp' r',
  readEntries cnt mp r = Some (mp', r') ->
  readEntries cnt mp (r ++ suf) = Some (mp', r' ++ suf).
Proof.
  induction cnt as [|cnt IH]; intros mp r mp' r' H; cbn [readEntries] in *.
  - by injection H as <- <-.
  - destruct (ReadString r) as [[key r1]|] eqn:E1; [|discriminate].
    rewrite (ReadString_app _ _ _ suf E1). cbn [mbind option_bind] in *.
    destruct (ReadInt r1) as [[v r2]|] eqn:E2; [|discriminate].
    rewrite (ReadInt_app _ _ _ suf E2). cbn [mbind option_bind] in *.
    by apply IH.
Qed.

Lemma readElements_app suf cnt : forall r l r',
  readElements cnt r = Some (l, r') -> readElements cnt (r ++ suf) = Some (l, r' ++ suf).
Proof.
  induction cnt as [|cnt IH]; intros r l r' H; cbn [readElements] in *.
  - by injection H as <- <-.
  - destruct (ReadString r) as [[key r1]|] eqn:E1; [|discriminate].
    rewrite (ReadString_app _ _ _ suf E1). cbn [mbind option_bind] in *.
    destruct (ReadInt r1) as [[c r2]|] eqn:E2; [|discriminate].
    rewrite (ReadInt_app _ _ _ suf E2). cbn [mbind option_bind] in *.
    destruct (ReadInt r2) as [[e r3]|] eqn:E3; [|discriminate].
    rewrite (ReadInt_app _ _ _ suf E3). cbn [mbind option_bind] in *.
    destruct (readElements cnt r3) as [[l1 r4]|] eqn:E4; [|discriminate].
    rewrite (IH _ _ _ E4). cbn [mbind option_bind] in *. by injection H as <- <-.
Qed.

Lemma keys_DecodeMsp_app suf r tk r' :
  keys_DecodeMsp r = Some (tk, r') -> keys_DecodeMsp (r ++ suf) = Some (tk, r' ++ suf).
Proof.
  unfold keys_DecodeMsp. intros H.
  destruct (ReadMapHeader r) as [[sz r1]|] eqn:E1; [|discriminate].
  rewrite (ReadMapHeader_app _ _ _ suf E1). cbn [mbind option_bind] in *.
  destruct (readEntries (Z.to_nat sz) ∅ r1) as [[mp r2]|] eqn:E2; [|discriminate].
  rewrite (readEntries_app suf _ _ _ _ _ E2). cbn [mbind option_bind] in *.
  destruct (ReadArrayHeader r2) as [[sz2 r3]|] eqn:E3; [|discriminate].
  rewrite (ReadArrayHeader_app _ _ _ suf E3). cbn [mbind option_bind] in *.
  destruct (readElements (Z.to_nat sz2) r3) as [[l r4]|] eqn:E4; [|discriminate].
  rewrite (readElements_app suf _ _ _ _ E4). cbn [mbind option_bind] in *.
  by injection H as <- <-.
Qed.

(** Reading a sketch does not look past what it reads: more input after
    it changes nothing but the rest. *)
Lemma Stream_DecodeMsgp_app suf r s r' :
  Stream_DecodeMsgp r = Some (s, r') -> Stream_DecodeMsgp (r ++ suf) = Some (s, r' ++ suf).
Proof.
  unfold Stream_DecodeMsgp. intros H.
  destruct (ReadInt r) as [[sz0 r1]|] eqn:E1; [|discriminate].
  rewrite (ReadInt_app _ _ _ suf E1). cbn [mbind option_bind] in *.
  destruct (ReadArrayHeader r1) as [[sz r2]|] eqn:E2; [|discriminate].
  rewrite (ReadArrayHeader_app _ _ _ suf E2). cbn [mbind option_bind] in *.
  destruct (readInts (Z.to_nat sz) r2) as [[al r3]|] eqn:E3; [|discriminate].
  rewrite (readInts_app suf _ _ _ _ E3). cbn [mbind option_bind] in *.
  destruct (keys_DecodeMsp r3) as [[tk r4]|] eqn:E4; [|discriminate].
  rewrite (keys_DecodeMsp_app suf _ _ _ E4). cbn [mbind option_bind] in *.
  by injection H as <- <-.
Qed.

(** X24.  [Decode] returns an error on every truncated encoding: on
    every proper prefix of what [Encode] wrote, the empty input
    included. *)
Theorem Decode_truncated_fails s order pre suf :
  order ≡ₚ map_to_list (m (k s)) ->
  Z.of_nat (length (alphas s)) < 2 ^ 32 ->
  Z.of_nat (size (m (k s))) < 2 ^ 32 -> Z.of_nat (length (elts (k s))) < 2 ^ 32 ->
  Encode order s = pre ++ suf -> suf <> [] ->
  Decode pre = None.
Proof.
  intros Hp Hal Hsz Hlen Hsplit Hsuf. unfold Decode.
  destruct (Stream_DecodeMsgp pre) as [[s1 r1]|] eqn:E; [|done].
  exfalso. apply (Stream_DecodeMsgp_app suf) in E.
  pose proof (Stream_roundtrip s order [] Hp Hal Hsz Hlen) as Hr.
  rewrite app_nil_r in Hr. fold (Encode order s) in Hr. rewrite Hsplit, E in Hr.
  injection Hr as _ Hnil. by apply app_eq_nil in Hnil as [_ ?].
Qed.

Lemma Decode_truncated_fails_witness :
  Decode [TInt 1; TArrayHeader 2; TInt 0; TInt 2; TMapHeader 1; TString "a"; TInt 0;
          TArrayHeader 1; TString "a"; TInt 5] = None.
Proof.
  apply (Decode_truncated_fails
           (mkStream 1 (mkKeys {[ "a" := 0 ]} [mkElement "a" 5 0]) [0; 2]) [("a", 0)]
           [TInt 1; TArrayHeader 2; TInt 0; TInt 2; TMapHeader 1; TString "a"; TInt 0;
            TArrayHeader 1; TString "a"; TInt 5] [TInt 0]).
  - vm_compute. reflexivity.
  - simpl. lia.
  - vm_compute. reflexivity.
  - simpl. lia.
  - vm_compute. reflexivity.
  - discriminate.
Defined.

(** ** The heap interface of [keys] *)

(** X25.  [heap.Push] of an element whose key is not in the map, onto a
    monitored set that is heap ordered with its map in step, adds the
    element and nothing else, and leaves the set heap ordered with its
    map in step; the root then has the smallest [Count]. *)
Theorem heap_Push_keeps_heap (tk : keys) e :
  m tk !! Key e = None -> indexed tk -> heapOrdered (elts tk) ->
  heapOrdered (elts (heap.Push tk e)) /\ indexed (heap.Push tk e) /\
  elts (heap.Push tk e) ≡ₚ e :: elts tk /\
  (forall m0 b, elts (heap.Push tk e) !! 0%nat = Some m0 -> b ∈ e :: elts tk ->
     Count m0 <= Count b).
Proof.
  intros Hfresh Hix Hh.
  destruct (Push_spec tk e Hfresh Hix Hh) as (G1 & G2 & G3).
  split_and!; try done.
  intros m0 b H0 Hb. apply (root_min_Count (elts (heap.Push tk e))); [done|done|].
  by rewrite G3.
Qed.

Lemma heap_Push_keeps_heap_witness :
  let tk := mkKeys {[ "a" := 0; "b" := 1 ]} [mkElement "a" 3 0; mkElement "b" 5 0] in
  let e := mkElement "c" 1 0 in
  heapOrdered (elts (heap.Push tk e)) /\ indexed (heap.Push tk e) /\
  elts (heap.Push tk e) ≡ₚ e :: elts tk /\
  (forall m0 b, elts (heap.Push tk e) !! 0%nat = Some m0 -> b ∈ e :: elts tk ->
     Count m0 <= Count b).
Proof.
  intros tk e. apply (heap_Push_keeps_heap tk e).
  - vm_compute. reflexivity.
  - split.
    + intros [|[|i]] a Ha; cbn in Ha; try discriminate; injection Ha as <-;
        vm_compute; reflexivity.
    + intros key [z Hz]. cbn [m elts tk] in *.
      apply lookup_insert_Some in Hz as [[<- _]|[_ Hz]].
      * exists (mkElement "a" 3 0). split; [left|done].
      * apply lookup_singleton_Some in Hz as [<- _].
        exists (mkElement "b" 5 0). split; [right; left|done].
  - intros c Hc. cbn in Hc. assert (c = 1%nat) as -> by lia. vm_compute. reflexivity.
Defined.

(** X26.  After the element in one slot is overwritten by an element
    with the same key, [heap.Fix] at that slot restores the heap order:
    the elements are the same, the map is in step with the slots again
    and the root has the smallest [Count]. *)
Theorem heap_Fix_restores_heap (tk : keys) i e0 e :
  indexed tk -> heapOrdered (elts tk) -> elts tk !! i = Some e0 -> Key e = Key e0 ->
  heapOrdered (elts (heap.Fix (mkKeys (m tk) (<[i := e]> (elts tk))) i)) /\
  indexed (heap.Fix (mkKeys (m tk) (<[i := e]> (elts tk))) i) /\
  elts (heap.Fix (mkKeys (m tk) (<[i := e]> (elts tk))) i) ≡ₚ <[i := e]> (elts tk) /\
  (forall m0 b, elts (heap.Fix (mkKeys (m tk) (<[i := e]> (elts tk))) i) !! 0%nat = Some m0 ->
     b ∈ <[i := e]> (elts tk) -> Count m0 <= Count b).
Proof.
  intros Hix Hh Hi Hk. pose proof (lookup_lt_Some _ _ _ Hi) as Hlen.
  destruct (Fix_spec (mkKeys (m tk) (<[i := e]> (elts tk))) i) as (G1 & G2 & G3).
  - cbn [elts]. by rewrite length_insert.
  - by apply (indexed_overwrite tk i e0 e).
  - cbn [elts]. by apply heapHole_insert.
  - cbn [elts] in G3. split_and!; try done.
    intros m0 b H0 Hb. eapply root_min_Count; [exact G1|done|]. by rewrite G3.
Qed.

Lemma heap_Fix_restores_heap_witness :
  let tk := mkKeys {[ "a" := 0; "b" := 1 ]} [mkElement "a" 3 0; mkElement "b" 5 0] in
  let e := mkElement "a" 9 0 in
  heapOrdered (elts (heap.Fix (mkKeys (m tk) (<[0%nat := e]> (elts tk))) 0)) /\
  indexed (heap.Fix (mkKeys (m tk) (<[0%nat := e]> (elts tk))) 0) /\
  elts (heap.Fix (mkKeys (m tk) (<[0%nat := e]> (elts tk))) 0) ≡ₚ <[0%nat := e]> (elts tk) /\
  (forall m0 b, elts (heap.Fix (mkKeys (m tk) (<[0%nat := e]> (elts tk))) 0) !! 0%nat = Some m0 ->
     b ∈ <[0%nat := e]> (elts tk) -> Count m0 <= Count b).
Proof.
  intros tk e. apply (heap_Fix_restores_heap tk 0 (mkElement "a" 3 0) e).
  - split.
    + intros [|[|i]] a Ha; cbn in Ha; try discriminate; injection Ha as <-;
        vm_compute; reflexivity.
    + intros key [z Hz]. cbn [m elts tk] in *.
      apply lookup_insert_Some in Hz as [[<- _]|[_ Hz]].
      * exists (mkElement "a" 3 0). split; [left|done].
      * apply lookup_singleton_Some in Hz as [<- _].
        exists (mkElement "b" 5 0). split; [right; left|done].
  - intros c Hc. cbn in Hc. assert (c = 1%nat) as -> by lia. vm_compute. reflexivity.
  - reflexivity.
  - reflexivity.
Defined.

(** X27.  [Swap] of two slots in range exchanges the two elements and
    rewrites their two map entries, so a map that is in step with the
    slots stays in step; the other slots are not touched. *)
Theorem Swap_keeps_index (tk : keys) i j :
  (i < length (elts tk))%nat -> (j < length (elts tk))%nat -> indexed tk ->
  indexed (keys_Swap tk i j) /\
  elts (keys_Swap tk i j) !! i = elts tk !! j /\
  elts (keys_Swap tk i j) !! j = elts tk !! i /\
  (forall c, c <> i -> c <> j -> elts (keys_Swap tk i j) !! c = elts tk !! c) /\
  length (elts (keys_Swap tk i j)) = length (elts tk).
Proof.
  intros Hi Hj Hix.
  assert (Hel : elts (keys_Swap tk i j) = <[j := elts tk !!! i]> (<[i := elts tk !!! j]> (elts tk)))
    by reflexivity.
  split_and!.
  - by apply (Swap_indexed tk i j).
  - rewrite Hel. destruct (decide (i = j)) as [->|Hne].
    + rewrite list_lookup_insert_eq by (by rewrite length_insert).
      symmetry. by apply list_lookup_lookup_total_lt.
    + rewrite list_lookup_insert_ne by done. rewrite list_lookup_insert_eq by done.
      symmetry. by apply list_lookup_lookup_total_lt.
  - rewrite Hel. rewrite list_lookup_insert_eq by (by rewrite length_insert).
    symmetry. by apply list_lookup_lookup_total_lt.
  - intros c Hci Hcj. rewrite Hel. by rewrite !list_lookup_insert_ne by done.
  - rewrite Hel. by rewrite !length_insert.
Qed.

Lemma Swap_keeps_index_witness :
  let tk := mkKeys {[ "a" := 0; "b" := 1 ]} [mkElement "a" 3 0; mkElement "b" 5 0] in
  indexed (keys_Swap tk 0 1) /\
  elts (keys_Swap tk 0 1) !! 0%nat = elts tk !! 1%nat /\
  elts (keys_Swap tk 0 1) !! 1%nat = elts tk !! 0%nat /\
  (forall c, c <> 0%nat -> c <> 1%nat -> elts (keys_Swap tk 0 1) !! c = elts tk !! c) /\
  length (elts (keys_Swap tk 0 1)) = length (elts tk).
Proof.
  intros tk. apply (Swap_keeps_index tk 0 1).
  - simpl. lia.
  - simpl. lia.
  - split.
    + intros [|[|i]] a Ha; cbn in Ha; try discriminate; injection Ha as <-;
        vm_compute; reflexivity.
    + intros key [z Hz]. cbn [m elts tk] in *.
      apply lookup_insert_Some in Hz as [[<- _]|[_ Hz]].
      * exists (mkElement "a" 3 0). split; [left|done].
      * apply lookup_singleton_Some in Hz as [<- _].
        exists (mkElement "b" 5 0). split; [right; left|done].
Defined.

(** X28.  [Pop] panics on an empty monitored set; otherwise it takes the
    last element off the slice and its key out of the map, and a map
    that was in step with the slots stays in step.  [Pop] after [Push]
    of an element whose key was not in the map returns that element and
    the monitored set as it was. *)
Theorem Pop_removes_last (tk : keys) :
  indexed tk ->
  (keys_Pop tk = None <-> elts tk = []) /\
  (forall e tk', keys_Pop tk = Some (e, tk') ->
     elts tk = elts tk' ++ [e] /\ m tk' = delete (Key e) (m tk) /\
     m tk' !! Key e = None /\ indexed tk') /\
  (forall e, m tk !! Key e = None -> keys_Pop (keys_Push tk e) = Some (e, tk)).
Proof.
  intros Hix. split_and!.
  - unfold keys_Pop. destruct (elts tk) as [|a l] eqn:Hel using rev_ind; [done|].
    rewrite last_snoc. split; [done|]. intros H. by apply app_eq_nil in H as [_ ?].
  - intros e tk'. unfold keys_Pop.
    destruct (elts tk) as [|a l _] eqn:Hel using rev_ind; [done|].
    rewrite last_snoc, removelast_last. intros H. injection H as <- <-. cbn [elts m].
    split_and!; try done.
    + apply lookup_delete_eq.
    + destruct Hix as [H1 H2]. pose proof (indexed_NoDup tk (conj H1 H2)) as Hnd.
      rewrite Hel, fmap_app in Hnd. apply NoDup_app in Hnd as (_ & Hdis & _).
      split; cbn [elts m].
      * intros i b Hb.
        assert (Key b <> Key a).
        { intros Hk. apply (Hdis (Key b)).
          - apply list_elem_of_fmap_2. by eapply list_elem_of_lookup_2.
          - rewrite Hk. cbn. left. }
        rewrite lookup_delete_ne by done. apply H1. rewrite Hel.
        by apply lookup_app_l_Some.
      * intros key Hs. apply lookup_delete_is_Some in Hs as [Hne Hs].
        destruct (H2 key Hs) as (b & Hb & Hk). rewrite Hel in Hb.
        apply elem_of_app in Hb as [Hb|Hb]; [by exists b|].
        apply list_elem_of_singleton in Hb. congruence.
  - intros e Hfresh. unfold keys_Pop, keys_Push. cbn [elts m].
    rewrite last_snoc, removelast_last. cbn [Key].
    rewrite delete_insert_eq, delete_id by done. by destruct tk.
Qed.

Lemma Pop_removes_last_witness :
  let tk := mkKeys {[ "a" := 0; "b" := 1 ]} [mkElement "a" 3 0; mkElement "b" 5 0] in
  (keys_Pop tk = None <-> elts tk = []) /\
  (forall e tk', keys_Pop tk = Some (e, tk') ->
     elts tk = elts tk' ++ [e] /\ m tk' = delete (Key e) (m tk) /\
     m tk' !! Key e = None /\ indexed tk') /\
  (forall e, m tk !! Key e = None -> keys_Pop (keys_Push tk e) = Some (e, tk)).
Proof.
  intros tk. apply (Pop_removes_last tk).
  split.
  - intros [|[|i]] a Ha; cbn in Ha; try discriminate; injection Ha as <-;
      vm_compute; reflexivity.
  - intros key [z Hz]. cbn [m elts tk] in *.
    apply lookup_insert_Some in Hz as [[<- _]|[_ Hz]].
    + exists (mkElement "a" 3 0). split; [left|done].
    + apply lookup_singleton_Some in Hz as [<- _].
      exists (mkElement "b" 5 0). split; [right; left|done].
Defined.

(** ** [reduce] and the digest *)

(** X29.  [reduce] uses the low 32 bits of the digest only: digests that
    agree there fall in the same bucket, so the bucket of a key is a
    function of [uint32(hash)]. *)
Theorem reduce_uses_low_32_bits hash s (key1 key2 : string) x len c :
  reduce x len = reduce (x mod 2 ^ 32) len /\
  reduce (x + c * 2 ^ 32) len = reduce x len /\
  (hash key1 mod 2 ^ 32 = hash key2 mod 2 ^ 32 -> bucket hash s key1 = bucket hash s key2).
Proof.
  assert (H : forall a b l, a mod 2 ^ 32 = b mod 2 ^ 32 -> reduce a l = reduce b l).
  { intros a b l Hab. rewrite !reduce_high_bits. by rewrite Hab. }
  split_and!.
  - apply H. by rewrite Z.mod_mod by lia.
  - apply H. by rewrite Z.mod_add by lia.
  - intros Hxy. unfold bucket. by apply H.
Qed.

(** X30.  [reduce] maps the 32-bit digests onto the buckets in order: it is
    monotone in the digest and reaches every bucket of a filter of at
    most [2 ^ 32] counters. *)
Theorem reduce_monotone_onto len :
  1 <= len <= 2 ^ 32 ->
  (forall x y, 0 <= x <= y -> y < 2 ^ 32 -> reduce x len <= reduce y len) /\
  (forall b, 0 <= b < len -> exists x, 0 <= x < 2 ^ 32 /\ reduce x len = b).
Proof.
  intros Hlen.
  assert (Hred : forall x, 0 <= x < 2 ^ 32 -> reduce x len = (x * len) / 2 ^ 32).
  { intros x Hx. rewrite reduce_high_bits.
    rewrite (Z.mod_small x) by lia. rewrite (Z.mod_small len) by lia.
    rewrite Z.mod_small by nia. done. }
  split.
  - intros x y Hxy Hy. rewrite !Hred by lia. apply Z.div_le_mono; [lia|nia].
  - intros b Hb. set (N := b * 2 ^ 32 + len - 1). set (q := N / len).
    assert (Hq1 : len * q <= N) by (apply Z.mul_div_le; lia).
    assert (Hq2 : N < len * (q + 1)).
    { pose proof (Z.mod_pos_bound N len ltac:(lia)).
      pose proof (Z.div_mod N len ltac:(lia)). fold q in H0. lia. }
    assert (Hq0 : 0 <= q) by (apply Z.div_pos; subst N; lia).
    assert (Hq3 : q < 2 ^ 32) by (subst N; nia).
    exists q. split; [lia|]. rewrite Hred by lia.
    symmetry. apply (Z.div_unique_pos (q * len) (2 ^ 32) b (q * len - b * 2 ^ 32)); subst N; lia.
Qed.

Lemma reduce_monotone_onto_witness :
  (forall x y, 0 <= x <= y -> y < 2 ^ 32 -> reduce x 36 <= reduce y 36) /\
  (forall b, 0 <= b < 36 -> exists x, 0 <= x < 2 ^ 32 /\ reduce x 36 = b).
Proof. apply (reduce_monotone_onto 36). lia. Defined.
